(** * cook-rag: query-serving core, embedded in Rocq

    A shallow embedding of the components that serve a question:

    - [CacheManager]      (src/rag_modules/cache_manager.py)
    - [SessionManager]    (src/rag_modules/session_manager.py)
    - [DataPreparationModule._enhance_metadata] and [get_parent_documents]
                          (src/rag_modules/data_preparation.py)
    - [RetrievalOptimizationModule.hybrid_search], [_rrf_rerank] and
      [metadata_filter]   (src/rag_modules/retrieval_optimization.py)
    - [RecipeRAGSystem._extract_filters_from_query]
                          (src/main.py)

    Conventions.
    - A Python [str] is the list of its code points ([pystr]); literals are
      written through [utf8].
    - A Python [float] is a binary64 primitive float.  [time.time()] is an
      input of the operation that reads the clock.
    - A Python [dict] / [OrderedDict] whose iteration order matters is an
      association list in insertion order ([odict]); a dict that is only
      looked up is a [gmap].
    - An operation that can raise returns an [outcome]; state that the code
      mutated before raising is returned next to it.
    - Document objects that are mutated in place live in a store
      ([gmap loc Document]) and are passed around as references. *)

From Stdlib Require Import ZArith List Floats Uint63 Lia Bool Permutation Sorted.
From stdpp Require Import gmap strings list sorting.
Import ListNotations.
Local Open Scope Z_scope.

(* ===================================================================== *)
(** * Python values and control                                           *)
(* ===================================================================== *)

Module Py.

(** Exception classes that the modelled code raises, catches or lets
    through.  [KeyboardInterrupt] stands for the classes that derive from
    [BaseException] but not from [Exception]. *)
Inductive exn : Type :=
  | AttributeError
  | TypeError
  | KeyError
  | IndexError
  | StopIteration
  | ZeroDivisionError
  | UnicodeEncodeError
  | OtherException
  | KeyboardInterrupt.

(** [isinstance(e, Exception)] *)
Definition is_Exception (e : exn) : bool :=
  match e with
  | KeyboardInterrupt => false
  | _ => true
  end.

Inductive outcome (A : Type) : Type :=
  | Returned (a : A)
  | Raised (e : exn).
Arguments Returned {A} a.
Arguments Raised {A} e.

(** A string is the list of its code points. *)
Abbreviation pystr := (list Z) (only parsing).

(** Decoder for the UTF-8 bytes of a string literal of this file. *)
Fixpoint utf8_decode (bs : list Z) (need : nat) (acc : Z) : pystr :=
  match bs with
  | [] => []
  | b :: rest =>
      match need with
      | O =>
          if b <? 0x80 then b :: utf8_decode rest 0%nat 0
          else if b <? 0xE0 then utf8_decode rest 1%nat (Z.land b 0x1F)
          else if b <? 0xF0 then utf8_decode rest 2%nat (Z.land b 0x0F)
          else utf8_decode rest 3%nat (Z.land b 0x07)
      | S O => (acc * 64 + Z.land b 0x3F) :: utf8_decode rest 0%nat 0
      | S n => utf8_decode rest n (acc * 64 + Z.land b 0x3F)
      end
  end.

Fixpoint bytes_of_string (s : string) : list Z :=
  match s with
  | EmptyString => []
  | String a s' => Z.of_nat (Ascii.nat_of_ascii a) :: bytes_of_string s'
  end.

Definition utf8 (s : string) : pystr := utf8_decode (bytes_of_string s) 0%nat 0.

(** [s.encode("utf-8")]: a lone surrogate cannot be encoded. *)
Definition encode_char (c : Z) : outcome (list Z) :=
  if c <? 0x80 then Returned [c]
  else if c <? 0x800 then
    Returned [Z.lor 0xC0 (Z.shiftr c 6); Z.lor 0x80 (Z.land c 0x3F)]
  else if (0xD800 <=? c) && (c <=? 0xDFFF) then Raised UnicodeEncodeError
  else if c <? 0x10000 then
    Returned [Z.lor 0xE0 (Z.shiftr c 12);
              Z.lor 0x80 (Z.land (Z.shiftr c 6) 0x3F);
              Z.lor 0x80 (Z.land c 0x3F)]
  else
    Returned [Z.lor 0xF0 (Z.shiftr c 18);
              Z.lor 0x80 (Z.land (Z.shiftr c 12) 0x3F);
              Z.lor 0x80 (Z.land (Z.shiftr c 6) 0x3F);
              Z.lor 0x80 (Z.land c 0x3F)].

Fixpoint encode_utf8 (s : pystr) : outcome (list Z) :=
  match s with
  | [] => Returned []
  | c :: s' =>
      match encode_char c with
      | Raised e => Raised e
      | Returned bs =>
          match encode_utf8 s' with
          | Raised e => Raised e
          | Returned rest => Returned (bs ++ rest)
          end
      end
  end.

(** [sep.join(parts)] *)
Fixpoint join (sep : pystr) (parts : list pystr) : pystr :=
  match parts with
  | [] => []
  | [p] => p
  | p :: ps => p ++ sep ++ join sep ps
  end.

(** [c.isspace()]: the code points with bidirectional class WS, B or S, or
    general category Zs. *)
Definition isspace (c : Z) : bool :=
  ((0x09 <=? c) && (c <=? 0x0D)) || ((0x1C <=? c) && (c <=? 0x20))
  || (c =? 0x85) || (c =? 0xA0) || (c =? 0x1680)
  || ((0x2000 <=? c) && (c <=? 0x200A))
  || (c =? 0x2028) || (c =? 0x2029) || (c =? 0x202F) || (c =? 0x205F)
  || (c =? 0x3000).

Fixpoint lstrip (s : pystr) : pystr :=
  match s with
  | c :: s' => if isspace c then lstrip s' else s
  | [] => []
  end.

(** [s.strip()] *)
Definition strip (s : pystr) : pystr := rev (lstrip (rev (lstrip s))).

(** [s.split()]: the maximal runs of non-space characters.  [cur] is the
    run being read, reversed. *)
Fixpoint split_aux (s : pystr) (cur : pystr) : list pystr :=
  match s with
  | [] => match cur with [] => [] | _ => [rev cur] end
  | c :: s' =>
      if isspace c then
        match cur with
        | [] => split_aux s' []
        | _ => rev cur :: split_aux s' []
        end
      else split_aux s' (c :: cur)
  end.

Definition split (s : pystr) : list pystr := split_aux s [].

(** [str.lower] restricted to ASCII letters; code points outside ASCII are
    kept.  It agrees with Python on text whose cased letters are ASCII. *)
Definition ascii_lower (s : pystr) : pystr :=
  map (fun c => if (0x41 <=? c) && (c <=? 0x5A) then c + 32 else c) s.

(** Conversion of an [int] to a [float], as done by a mixed operation such
    as [1.0 / n] (exact for |z| < 2^53, defined for |z| < 2^63). *)
Definition float_of_Z (z : Z) : float :=
  if z <? 0 then PrimFloat.opp (PrimFloat.of_uint63 (Uint63.of_Z (- z)))
  else PrimFloat.of_uint63 (Uint63.of_Z z).

(** Values stored in a [Dict[str, Any]] metadata mapping by this code. *)
Inductive pyval : Type :=
  | VStr (s : pystr)
  | VInt (z : Z)
  | VFloat (f : float).

(** [l[i:]] *)
Definition slice_from {A} (i : Z) (l : list A) : list A :=
  if i <? 0 then drop (Z.to_nat (Z.of_nat (length l) + i)) l
  else drop (Z.to_nat i) l.

(** [l[:j]] *)
Definition slice_to {A} (j : Z) (l : list A) : list A :=
  if j <? 0 then take (Z.to_nat (Z.of_nat (length l) + j)) l
  else take (Z.to_nat j) l.

(** ** Insertion-ordered dictionaries *)
Abbreviation odict K V := (list (K * V)) (only parsing).

Section odict.
Context {K V : Type} `{EqDecision K}.

(** [d.get(k)] *)
Fixpoint od_get (k : K) (d : odict K V) : option V :=
  match d with
  | [] => None
  | (k', v) :: d' => if decide (k = k') then Some v else od_get k d'
  end.

(** [k in d] *)
Definition od_mem (k : K) (d : odict K V) : bool :=
  match od_get k d with Some _ => true | None => false end.

(** [d[k] = v]: an existing key keeps its position. *)
Fixpoint od_set (k : K) (v : V) (d : odict K V) : odict K V :=
  match d with
  | [] => [(k, v)]
  | (k', v') :: d' =>
      if decide (k = k') then (k', v) :: d' else (k', v') :: od_set k v d'
  end.

(** [del d[k]], for a key that is present. *)
Fixpoint od_del (k : K) (d : odict K V) : odict K V :=
  match d with
  | [] => []
  | (k', v) :: d' => if decide (k = k') then d' else (k', v) :: od_del k d'
  end.

(** [d.move_to_end(k)], for a key that is present. *)
Definition od_move_to_end (k : K) (d : odict K V) : odict K V :=
  match od_get k d with
  | Some v => od_del k d ++ [(k, v)]
  | None => d
  end.

Definition od_keys (d : odict K V) : list K := map fst d.
End odict.

(** ** [sorted(l, key=..., reverse=True)]

  A stable sort: elements are ordered by decreasing key and elements
  whose keys are not ordered by [<] keep their input order.  [lt] is the
  [<] of the keys, the only comparison the sort performs. *)
Section sorted.
Context {A K : Type} (key : A -> K) (lt : K -> K -> bool).

Fixpoint insert_desc (x : A) (l : list A) : list A :=
  match l with
  | [] => [x]
  | y :: l' =>
      if lt (key x) (key y) then y :: insert_desc x l' else x :: y :: l'
  end.

Definition sorted_reverse (l : list A) : list A := foldr insert_desc [] l.
End sorted.


(** [s.startswith(p)] *)
Fixpoint startswith (p s : pystr) : bool :=
  match p, s with
  | [], _ => true
  | _ :: _, [] => false
  | a :: p', b :: s' => (a =? b) && startswith p' s'
  end.

(** [needle in hay], for two strings: [needle] is a substring of [hay]. *)
Fixpoint contains (needle hay : pystr) : bool :=
  startswith needle hay
  || match hay with
     | [] => false
     | _ :: hay' => contains needle hay'
     end.

End Py.
Export Py.

(* ===================================================================== *)
(** * hashlib.md5 (RFC 1321)                                              *)
(* ===================================================================== *)

Module MD5.

Definition two32 : Z := 0x100000000.

Definition add32 (a b : Z) : Z := (a + b) mod two32.

Definition not32 (x : Z) : Z := Z.lxor x 0xFFFFFFFF.

Definition rotl32 (x c : Z) : Z :=
  Z.lor (Z.shiftl x c mod two32) (Z.shiftr x (32 - c)).

Definition s_table : list Z :=
  [7; 12; 17; 22; 7; 12; 17; 22; 7; 12; 17; 22; 7; 12; 17; 22;
   5; 9; 14; 20; 5; 9; 14; 20; 5; 9; 14; 20; 5; 9; 14; 20;
   4; 11; 16; 23; 4; 11; 16; 23; 4; 11; 16; 23; 4; 11; 16; 23;
   6; 10; 15; 21; 6; 10; 15; 21; 6; 10; 15; 21; 6; 10; 15; 21].

Definition k_table : list Z :=
  [0xd76aa478; 0xe8c7b756; 0x242070db; 0xc1bdceee;
   0xf57c0faf; 0x4787c62a; 0xa8304613; 0xfd469501;
   0x698098d8; 0x8b44f7af; 0xffff5bb1; 0x895cd7be;
   0x6b901122; 0xfd987193; 0xa679438e; 0x49b40821;
   0xf61e2562; 0xc040b340; 0x265e5a51; 0xe9b6c7aa;
   0xd62f105d; 0x02441453; 0xd8a1e681; 0xe7d3fbc8;
   0x21e1cde6; 0xc33707d6; 0xf4d50d87; 0x455a14ed;
   0xa9e3e905; 0xfcefa3f8; 0x676f02d9; 0x8d2a4c8a;
   0xfffa3942; 0x8771f681; 0x6d9d6122; 0xfde5380c;
   0xa4beea44; 0x4bdecfa9; 0xf6bb4b60; 0xbebfbc70;
   0x289b7ec6; 0xeaa127fa; 0xd4ef3085; 0x04881d05;
   0xd9d4d039; 0xe6db99e5; 0x1fa27cf8; 0xc4ac5665;
   0xf4292244; 0x432aff97; 0xab9423a7; 0xfc93a039;
   0x655b59c3; 0x8f0ccc92; 0xffeff47d; 0x85845dd1;
   0x6fa87e4f; 0xfe2ce6e0; 0xa3014314; 0x4e0811a1;
   0xf7537e82; 0xbd3af235; 0x2ad7d2bb; 0xeb86d391].

(** The [n] low bytes of [x], least significant first. *)
Fixpoint le_bytes (n : nat) (x : Z) : list Z :=
  match n with
  | O => []
  | S n' => (x mod 256) :: le_bytes n' (x / 256)
  end.

Fixpoint le_word (bs : list Z) : Z :=
  match bs with
  | [] => 0
  | b :: bs' => b + 256 * le_word bs'
  end.

Definition pad (msg : list Z) : list Z :=
  let len := Z.of_nat (length msg) in
  msg ++ [0x80] ++ repeat 0 (Z.to_nat ((55 - len) mod 64))
      ++ le_bytes 8 (8 * len).

(** Cut into groups of [n] items; [fuel] bounds the number of groups. *)
Fixpoint groups {A} (fuel n : nat) (l : list A) : list (list A) :=
  match fuel with
  | O => []
  | S fuel' =>
      match l with
      | [] => []
      | _ => take n l :: groups fuel' n (drop n l)
      end
  end.

Definition words (block : list Z) : list Z :=
  map le_word (groups 16 4 block).

Definition state : Type := Z * Z * Z * Z.

Definition step (M : list Z) (st : state) (i : nat) : state :=
  let '(A, B, C, D) := st in
  let iz := Z.of_nat i in
  let '(F, g) :=
    if iz <? 16 then (Z.lor (Z.land B C) (Z.land (not32 B) D), iz)
    else if iz <? 32 then
      (Z.lor (Z.land D B) (Z.land (not32 D) C), (5 * iz + 1) mod 16)
    else if iz <? 48 then (Z.lxor (Z.lxor B C) D, (3 * iz + 5) mod 16)
    else (Z.lxor C (Z.lor B (not32 D)), (7 * iz) mod 16) in
  let F' := add32 (add32 (add32 F A) (nth i k_table 0)) (nth (Z.to_nat g) M 0) in
  (D, add32 B (rotl32 F' (nth i s_table 0)), B, C).

Definition process_block (st : state) (block : list Z) : state :=
  let '(a0, b0, c0, d0) := st in
  let '(A, B, C, D) := fold_left (step (words block)) (seq 0 64) st in
  (add32 a0 A, add32 b0 B, add32 c0 C, add32 d0 D).

Definition digest (msg : list Z) : list Z :=
  let p := pad msg in
  let '(a, b, c, d) :=
    fold_left process_block (groups (length p) 64 p)
              (0x67452301, 0xefcdab89, 0x98badcfe, 0x10325476) in
  le_bytes 4 a ++ le_bytes 4 b ++ le_bytes 4 c ++ le_bytes 4 d.

Definition hex_digit (n : Z) : Z := if n <? 10 then 48 + n else 87 + n.

(** [hashlib.md5(msg).hexdigest()] *)
Definition hexdigest (msg : list Z) : pystr :=
  flat_map (fun b => [hex_digit (b / 16); hex_digit (b mod 16)]) (digest msg).

End MD5.

(* ===================================================================== *)
(** * cache_manager.py                                                    *)
(* ===================================================================== *)

Module CacheManager.

Record CacheEntry : Type := {
  query : pystr;
  answer : pystr;
  created_at : float;
  hit_count : Z;
  metadata : gmap pystr pyval
}.

Record Stats : Type := {
  hits : Z;
  misses : Z;
  sets : Z;
  evictions : Z
}.

Record t : Type := {
  max_size : Z;
  ttl : Z;
  enable_semantic : bool;
  _cache : odict pystr CacheEntry;
  _stats : Stats
}.

(** [CacheManager(max_size, ttl, enable_semantic)] *)
Definition __init__ (max_size ttl : Z) (enable_semantic : bool) : t :=
  {| max_size := max_size; ttl := ttl; enable_semantic := enable_semantic;
     _cache := [];
     _stats := {| hits := 0; misses := 0; sets := 0; evictions := 0 |} |}.

Definition with_state (c : t) (d : odict pystr CacheEntry) (st : Stats) : t :=
  {| max_size := max_size c; ttl := ttl c;
     enable_semantic := enable_semantic c; _cache := d; _stats := st |}.

Definition add_hit (st : Stats) : Stats :=
  {| hits := hits st + 1; misses := misses st; sets := sets st;
     evictions := evictions st |}.

Definition add_miss (st : Stats) : Stats :=
  {| hits := hits st; misses := misses st + 1; sets := sets st;
     evictions := evictions st |}.

Definition add_set (st : Stats) : Stats :=
  {| hits := hits st; misses := misses st; sets := sets st + 1;
     evictions := evictions st |}.

Definition add_evictions (n : Z) (st : Stats) : Stats :=
  {| hits := hits st; misses := misses st; sets := sets st;
     evictions := evictions st + n |}.

Definition hit (e : CacheEntry) : CacheEntry :=
  {| query := query e; answer := answer e; created_at := created_at e;
     hit_count := hit_count e + 1; metadata := metadata e |}.

Section with_lower.
(** [str.lower]: the interpreter's Unicode case mapping. *)
Variable lower : pystr -> pystr.

(** [" ".join(query.lower().strip().split())] *)
Definition normalize (query : pystr) : pystr :=
  join (utf8 " ") (split (strip (lower query))).

Definition _generate_key (session_id query : pystr) : outcome pystr :=
  let normalized := normalize query in
  match encode_utf8 normalized with
  | Raised e => Raised e
  | Returned bytes =>
      let result := MD5.hexdigest bytes in
      Returned (session_id ++ utf8 ":" ++ result)
  end.

(** [(time.time() - entry.created_at) > self.ttl], the clock reading being
    [now]. *)
Definition _is_expired (c : t) (entry : CacheEntry) (now : float) : bool :=
  PrimFloat.ltb (float_of_Z (ttl c)) (PrimFloat.sub now (created_at entry)).

Definition get (c : t) (session_id query : pystr) (now : float)
  : outcome (option pystr) * t :=
  match _generate_key session_id query with
  | Raised e => (Raised e, c)
  | Returned key =>
      match od_get key (_cache c) with
      | None => (Returned None, with_state c (_cache c) (add_miss (_stats c)))
      | Some entry =>
          if _is_expired c entry now then
            (Returned None,
             with_state c (od_del key (_cache c))
                        (add_evictions 1 (add_miss (_stats c))))
          else
            (Returned (Some (answer entry)),
             with_state c
               (od_set key (hit entry) (od_move_to_end key (_cache c)))
               (add_hit (_stats c)))
      end
  end.

(** The first part of [set]: drop a previous entry for the key, then store
    the new entry (at the end) and count the set. *)
Definition store_entry (c : t) (key query answer : pystr)
    (metadata : option (gmap pystr pyval)) (now : float) : t :=
  let d := if od_mem key (_cache c) then od_del key (_cache c) else _cache c in
  let entry := {| query := query; answer := answer; created_at := now;
                  hit_count := 0;
                  metadata := match metadata with
                              | Some m => m
                              | None => ∅
                              end |} in
  with_state c (od_set key entry d) (add_set (_stats c)).

(** [while len(self._cache) > self.max_size: self._cache.popitem(last=False)]
    with its eviction count; [popitem] on an empty dictionary raises. *)
Fixpoint evict (max_size : Z) (d : odict pystr CacheEntry) (st : Stats)
  : outcome unit * (odict pystr CacheEntry * Stats) :=
  match d with
  | [] =>
      if max_size <? Z.of_nat 0 then (Raised KeyError, ([], st))
      else (Returned tt, ([], st))
  | e :: d' =>
      if max_size <? Z.of_nat (length (e :: d')) then
        evict max_size d' (add_evictions 1 st)
      else (Returned tt, (e :: d', st))
  end.

Definition set (c : t) (session_id query answer : pystr)
    (metadata : option (gmap pystr pyval)) (now : float) : outcome pystr * t :=
  match _generate_key session_id query with
  | Raised e => (Raised e, c)
  | Returned key =>
      let c1 := store_entry c key query answer metadata now in
      match evict (max_size c1) (_cache c1) (_stats c1) with
      | (Raised e, (d, st)) => (Raised e, with_state c1 d st)
      | (Returned _, (d, st)) => (Returned key, with_state c1 d st)
      end
  end.

Definition invalidate (c : t) (session_id query : pystr) : outcome bool * t :=
  match _generate_key session_id query with
  | Raised e => (Raised e, c)
  | Returned key =>
      if od_mem key (_cache c) then
        (Returned true, with_state c (od_del key (_cache c)) (_stats c))
      else (Returned false, c)
  end.

Definition clear (c : t) : Z * t :=
  (Z.of_nat (length (_cache c)), with_state c [] (_stats c)).

Definition cleanup_expired (c : t) (now : float) : Z * t :=
  let expired_keys :=
    map fst (filter (fun kv => _is_expired c (snd kv) now = true) (_cache c)) in
  let d := fold_left (fun d key => od_del key d) expired_keys (_cache c) in
  let n := Z.of_nat (length expired_keys) in
  (n, with_state c d (if (0 <? n) then add_evictions n (_stats c)
                      else _stats c)).

End with_lower.

(** [get_hot_queries(limit)]; each returned dictionary
    [{"query": q, "hit_count": n}] is the pair [(q, n)]. *)
Definition get_hot_queries (c : t) (limit : Z) : list (pystr * Z) :=
  let entries :=
    slice_to limit (sorted_reverse hit_count Z.ltb (map snd (_cache c))) in
  map (fun e => (query e, hit_count e)) entries.

End CacheManager.

(* ===================================================================== *)
(** * session_manager.py                                                  *)
(* ===================================================================== *)

Module Message.
Record t : Type := {
  role : pystr;
  content : pystr;
  timestamp : float;
  metadata : gmap pystr pyval
}.
End Message.

Module Session.
Record t : Type := {
  session_id : pystr;
  user_id : pystr;
  messages : list Message.t;
  created_at : float;
  updated_at : float;
  metadata : gmap pystr pyval
}.

Definition message_count (s : t) : Z := Z.of_nat (length (messages s)).

Definition is_empty (s : t) : bool :=
  match messages s with [] => true | _ => false end.

(** The session object after its [messages] and [updated_at] were
    assigned. *)
Definition update (s : t) (msgs : list Message.t) (upd : float) : t :=
  {| session_id := session_id s; user_id := user_id s; messages := msgs;
     created_at := created_at s; updated_at := upd;
     metadata := metadata s |}.
End Session.

Module SessionManager.

Record t : Type := {
  max_sessions : Z;
  max_history : Z;
  session_ttl : Z;
  context_window : Z;
  _sessions : odict pystr Session.t
}.

Definition __init__ (max_sessions max_history session_ttl context_window : Z)
  : t :=
  {| max_sessions := max_sessions; max_history := max_history;
     session_ttl := session_ttl; context_window := context_window;
     _sessions := [] |}.

Definition with_sessions (m : t) (d : odict pystr Session.t) : t :=
  {| max_sessions := max_sessions m; max_history := max_history m;
     session_ttl := session_ttl m; context_window := context_window m;
     _sessions := d |}.

(** [while len(self._sessions) > self.max_sessions:
       oldest_id = next(iter(self._sessions)); del self._sessions[oldest_id]] *)
Fixpoint evict (max_sessions : Z) (d : odict pystr Session.t)
  : outcome unit * odict pystr Session.t :=
  match d with
  | [] =>
      if max_sessions <? Z.of_nat 0 then (Raised StopIteration, [])
      else (Returned tt, [])
  | e :: d' =>
      if max_sessions <? Z.of_nat (length (e :: d')) then evict max_sessions d'
      else (Returned tt, e :: d')
  end.

(** [create_session(user_id)]; [uuid] is the value of [str(uuid.uuid4())]
    and [now_c], [now_u] are the clock readings of the two field defaults. *)
Definition create_session (m : t) (uuid user_id : pystr) (now_c now_u : float)
  : outcome pystr * t :=
  let session := {| Session.session_id := uuid; Session.user_id := user_id;
                    Session.messages := []; Session.created_at := now_c;
                    Session.updated_at := now_u; Session.metadata := ∅ |} in
  match evict (max_sessions m) (od_set uuid session (_sessions m)) with
  | (Raised e, d) => (Raised e, with_sessions m d)
  | (Returned _, d) => (Returned uuid, with_sessions m d)
  end.

Definition get_session (m : t) (session_id : pystr) (now : float)
  : option Session.t * t :=
  match od_get session_id (_sessions m) with
  | None => (None, m)
  | Some session =>
      if PrimFloat.ltb (float_of_Z (session_ttl m))
                       (PrimFloat.sub now (Session.updated_at session))
      then (None, with_sessions m (od_del session_id (_sessions m)))
      else (Some session,
            with_sessions m (od_move_to_end session_id (_sessions m)))
  end.

(** [while len(session.messages) > self.max_history * 2:
       session.messages.pop(0); session.messages.pop(0)]
    [pop(0)] on an empty list raises; the list is returned as the loop
    left it. *)
Fixpoint trim (max_history : Z) (msgs : list Message.t)
  : outcome unit * list Message.t :=
  if max_history * 2 <? Z.of_nat (length msgs) then
    match msgs with
    | [] => (Raised IndexError, [])
    | [_] => (Raised IndexError, [])
    | _ :: _ :: rest => trim max_history rest
    end
  else (Returned tt, msgs).

(** [add_message]; [now] is read by [get_session], [now_m] stamps the
    message and [now_u] the session. *)
Definition add_message (m : t) (session_id role content : pystr)
    (metadata : option (gmap pystr pyval)) (now now_m now_u : float)
  : outcome bool * t :=
  match get_session m session_id now with
  | (None, m1) => (Returned false, m1)
  | (Some session, m1) =>
      let message := {| Message.role := role; Message.content := content;
                        Message.timestamp := now_m;
                        Message.metadata := match metadata with
                                            | Some md => md
                                            | None => ∅
                                            end |} in
      let appended := Session.messages session ++ [message] in
      match trim (max_history m1) appended with
      | (Raised e, msgs) =>
          (Raised e,
           with_sessions m1
             (od_set session_id (Session.update session msgs now_u)
                     (_sessions m1)))
      | (Returned _, msgs) =>
          (Returned true,
           with_sessions m1
             (od_set session_id (Session.update session msgs now_u)
                     (_sessions m1)))
      end
  end.

Definition role_name (msg : Message.t) : pystr :=
  if decide (Message.role msg = utf8 "user") then utf8 "用户" else utf8 "助手".

Definition newline : pystr := [10].

Definition get_context (m : t) (session_id : pystr) (include_current : bool)
    (now : float) : pystr * t :=
  match get_session m session_id now with
  | (None, m1) => ([], m1)
  | (Some session, m1) =>
      if Session.is_empty session then ([], m1)
      else
        let messages := Session.messages session in
        let messages :=
          if negb include_current
             && match last messages with
                | Some msg => bool_decide (Message.role msg = utf8 "user")
                | None => false
                end
          then slice_to (-1) messages else messages in
        let recent_messages :=
          slice_from (- (context_window m1 * 2)) messages in
        match recent_messages with
        | [] => ([], m1)
        | _ =>
            (join newline
               (map (fun msg => role_name msg ++ utf8 ": " ++ Message.content msg)
                    recent_messages),
             m1)
        end
  end.

(** [get_messages]; each returned dictionary [{"role": r, "content": c}] is
    the pair [(r, c)].  [limit] is [None] or an [int]. *)
Definition get_messages (m : t) (session_id : pystr) (limit : option Z)
    (now : float) : list (pystr * pystr) * t :=
  match get_session m session_id now with
  | (None, m1) => ([], m1)
  | (Some session, m1) =>
      let messages := Session.messages session in
      let messages :=
        match limit with
        | Some n => if n =? 0 then messages else slice_from (- n) messages
        | None => messages
        end in
      (map (fun msg => (Message.role msg, Message.content msg)) messages, m1)
  end.

Definition clear_session (m : t) (session_id : pystr) (now now_u : float)
  : bool * t :=
  match get_session m session_id now with
  | (None, m1) => (false, m1)
  | (Some session, m1) =>
      (true,
       with_sessions m1
         (od_set session_id (Session.update session [] now_u) (_sessions m1)))
  end.

Definition delete_session (m : t) (session_id : pystr) : bool * t :=
  if od_mem session_id (_sessions m) then
    (true, with_sessions m (od_del session_id (_sessions m)))
  else (false, m).


(** [get_or_create_session(session_id, user_id)]; [session_id] is [None]
    or a [str].  [now] is the clock reading of [get_session]; [uuid],
    [now_c] and [now_u] are those of [create_session], if it is called.  A
    [Session] object is always true. *)
Definition get_or_create_session (m : t) (session_id : option pystr)
    (user_id : pystr) (now : float) (uuid : pystr) (now_c now_u : float)
  : outcome pystr * t :=
  match session_id with
  | Some (c :: s) =>
      match get_session m (c :: s) now with
      | (Some session, m1) => (Returned (Session.session_id session), m1)
      | (None, m1) => create_session m1 uuid user_id now_c now_u
      end
  | _ => create_session m uuid user_id now_c now_u
  end.

(** The dictionary that [get_session_info] returns. *)
Record SessionInfo : Type := {
  info_session_id : pystr;
  info_user_id : pystr;
  info_created_at : float;
  info_updated_at : float;
  info_messages_count : Z
}.

Definition get_session_info (m : t) (session_id : pystr) (now : float)
  : option SessionInfo * t :=
  match get_session m session_id now with
  | (None, m1) => (None, m1)
  | (Some session, m1) =>
      (Some {| info_session_id := Session.session_id session;
               info_user_id := Session.user_id session;
               info_created_at := Session.created_at session;
               info_updated_at := Session.updated_at session;
               info_messages_count := Session.message_count session |},
       m1)
  end.

(** [now - session.updated_at > self.session_ttl] *)
Definition is_expired (m : t) (session : Session.t) (now : float) : bool :=
  PrimFloat.ltb (float_of_Z (session_ttl m))
                (PrimFloat.sub now (Session.updated_at session)).

(** [cleanup_expired()]; [now] is its one clock reading. *)
Definition cleanup_expired (m : t) (now : float) : Z * t :=
  let expired :=
    map fst (filter (fun kv => is_expired m (snd kv) now = true) (_sessions m)) in
  let m' :=
    fold_left (fun m session_id => snd (delete_session m session_id)) expired m in
  (Z.of_nat (length expired), m').

Definition active_session_count (m : t) : Z :=
  Z.of_nat (length (_sessions m)).

End SessionManager.

(* ===================================================================== *)
(** * langchain_core.documents.Document                                   *)
(* ===================================================================== *)

Module Document.
Record t : Type := {
  page_content : pystr;
  metadata : gmap pystr pyval
}.

(** [doc.metadata.get("parent_id")].  The loader stores the md5 hexdigest
    of the source path under this key, always as a [str]; a value of
    another type is read as absent. *)
Definition parent_id (doc : t) : option pystr :=
  match metadata doc !! utf8 "parent_id" with
  | Some (VStr s) => Some s
  | _ => None
  end.
End Document.

(* ===================================================================== *)
(** * data_preparation.py                                                 *)
(* ===================================================================== *)

Module DataPreparationModule.

(** The first loop body of [get_parent_documents]: count the chunk for its
    parent and, the first time a parent id is met, look the parent up in
    [documents]. *)
Definition collect (documents : list Document.t)
    (st : odict pystr Z * gmap pystr Document.t) (chunk : Document.t)
  : odict pystr Z * gmap pystr Document.t :=
  let '(parent_relevance, parent_doc_map) := st in
  match Document.parent_id chunk with
  | None => st
  | Some [] => st
  | Some parent_id =>
      let parent_relevance :=
        od_set parent_id
               (match od_get parent_id parent_relevance with
                | Some n => n
                | None => 0
                end + 1)
               parent_relevance in
      match parent_doc_map !! parent_id with
      | Some _ => (parent_relevance, parent_doc_map)
      | None =>
          match find (fun doc =>
                        bool_decide (Document.parent_id doc = Some parent_id))
                     documents with
          | Some doc => (parent_relevance, <[parent_id := doc]> parent_doc_map)
          | None => (parent_relevance, parent_doc_map)
          end
      end
  end.

(** [get_parent_documents(child_chunks)], [documents] being
    [self.documents]. *)
Definition get_parent_documents (documents child_chunks : list Document.t)
  : list Document.t :=
  let '(parent_relevance, parent_doc_map) :=
    fold_left (collect documents) child_chunks ([], ∅) in
  let sorted_parent_ids :=
    sorted_reverse
      (fun x => match od_get x parent_relevance with
                | Some n => n
                | None => 0
                end)
      Z.ltb (od_keys parent_relevance) in
  omap (fun parent_id => parent_doc_map !! parent_id) sorted_parent_ids.


Definition CATAGORY_MAPPING : odict pystr pystr :=
  [(utf8 "meat_dish", utf8 "荤菜");
   (utf8 "vegetable_dish", utf8 "素菜");
   (utf8 "soup", utf8 "汤品");
   (utf8 "dessert", utf8 "甜品");
   (utf8 "breakfast", utf8 "早餐");
   (utf8 "staple", utf8 "主食");
   (utf8 "aquatic", utf8 "水产");
   (utf8 "condiment", utf8 "调料");
   (utf8 "drink", utf8 "饮品")].

Definition DIFFICULTY_LABELS : list pystr :=
  [utf8 "非常简单"; utf8 "简单"; utf8 "中等"; utf8 "困难"; utf8 "非常困难"].

Definition get_difficulty_labels : list pystr := DIFFICULTY_LABELS.

(** The label that the star rating in [content] stands for. *)
Definition difficulty_of (content : pystr) : pystr :=
  if contains (utf8 "★★★★★") content then utf8 "非常困难"
  else if contains (utf8 "★★★★") content then utf8 "困难"
  else if contains (utf8 "★★★") content then utf8 "中等"
  else if contains (utf8 "★★") content then utf8 "简单"
  else if contains (utf8 "★") content then utf8 "非常简单"
  else utf8 "未知".

(** The category of a path with the components [file_parts]: that of the
    first component that is a key of [CATAGORY_MAPPING]. *)
Definition category_of (file_parts : list pystr) : pystr :=
  match find (fun part => od_mem part CATAGORY_MAPPING) file_parts with
  | Some part =>
      match od_get part CATAGORY_MAPPING with
      | Some category => category
      | None => utf8 "其他"
      end
  | None => utf8 "其他"
  end.

Section with_pathlib.
(** [Path(s).parts] and [Path(s).stem] of pathlib. *)
Variable parts : pystr -> list pystr.
Variable stem : pystr -> pystr.

(** [_enhance_metadata(doc)]: the object after the call.  [Path(x)] raises
    [TypeError] for an [x] that is not a [str]; nothing was written
    then. *)
Definition _enhance_metadata (doc : Document.t) : outcome Document.t :=
  match match Document.metadata doc !! utf8 "source" with
        | Some (VStr s) => Returned s
        | Some _ => Raised TypeError
        | None => Returned []
        end with
  | Raised e => Raised e
  | Returned source =>
      let file_parts := parts source in
      let md := Document.metadata doc in
      let md := <[utf8 "category" := VStr (category_of file_parts)]> md in
      let md := <[utf8 "dish_name" := VStr (stem source)]> md in
      let content := Document.page_content doc in
      let md := <[utf8 "difficulty" := VStr (difficulty_of content)]> md in
      Returned {| Document.page_content := content; Document.metadata := md |}
  end.

End with_pathlib.

End DataPreparationModule.

(* ===================================================================== *)
(** * retrieval_optimization.py                                           *)
(* ===================================================================== *)

Module RetrievalOptimizationModule.

(** Document objects are shared between the engines, the module and its
    callers: they live in a store and are named by reference. *)
Abbreviation loc := positive (only parsing).
Abbreviation store := (gmap positive Document.t) (only parsing).

(** The two retrieval engines, as far as [hybrid_search] uses them:
    [vectorstore.similarity_search(query, k)] and the public and private
    entry points of the BM25 retriever. *)
Record t : Type := {
  similarity_search : pystr -> Z -> outcome (list loc);
  get_relevant_documents : pystr -> outcome (list loc);
  _get_relevant_documents : pystr -> outcome (list loc);
  chunks : list loc
}.

(** [doc.page_content] of the object at [l]. *)
Definition page_content (h : store) (l : loc) : pystr :=
  match h !! l with
  | Some doc => Document.page_content doc
  | None => []
  end.

(** [doc.metadata[key] = v] on the object at [l], in place. *)
Definition set_metadata (l : loc) (key : pystr) (v : pyval) (h : store)
  : store :=
  alter (fun doc => {| Document.page_content := Document.page_content doc;
                       Document.metadata := <[key := v]> (Document.metadata doc) |})
        l h.

(** [1.0 / (k + rank + 1)] *)
Definition rrf_score (k rank : Z) : outcome float :=
  let n := k + rank + 1 in
  if n =? 0 then Raised ZeroDivisionError
  else Returned (PrimFloat.div 1%float (float_of_Z n)).

(** [doc_scores.get(doc_id, 0)] *)
Definition get_score (doc_id : Z) (doc_scores : odict Z float) : float :=
  match od_get doc_id doc_scores with
  | Some s => s
  | None => 0%float
  end.

Section with_hash.
(** The builtin [hash] on [str]. *)
Variable hash : pystr -> Z.

(** [for rank, doc in enumerate(docs): ...], from position [rank] on; the
    state is [(doc_scores, doc_obj)]. *)
Fixpoint score_loop (h : store) (k rank : Z) (docs : list loc)
    (st : odict Z float * gmap Z loc)
  : outcome (odict Z float * gmap Z loc) :=
  match docs with
  | [] => Returned st
  | doc :: rest =>
      let '(doc_scores, doc_obj) := st in
      let doc_id := hash (page_content h doc) in
      let doc_obj := <[doc_id := doc]> doc_obj in
      match rrf_score k rank with
      | Raised e => Raised e
      | Returned s =>
          let doc_scores :=
            od_set doc_id (PrimFloat.add (get_score doc_id doc_scores) s)
                   doc_scores in
          score_loop h k (rank + 1) rest (doc_scores, doc_obj)
      end
  end.

(** The last loop of [_rrf_rerank]: store each fused score on its document
    object and collect the objects. *)
Definition emit (doc_obj : gmap Z loc) (acc : list loc * store)
    (item : Z * float) : list loc * store :=
  let '(reranked_docs, h) := acc in
  let '(doc_id, final_score) := item in
  match doc_obj !! doc_id with
  | Some doc =>
      (reranked_docs ++ [doc],
       set_metadata doc (utf8 "rrf_score") (VFloat final_score) h)
  | None => acc
  end.

(** The two scoring loops of [_rrf_rerank], one after the other:
    [(doc_scores, doc_obj)] as the sort finds them. *)
Definition doc_tables (h : store) (vector_docs bm25_docs : list loc) (k : Z)
  : outcome (odict Z float * gmap Z loc) :=
  match score_loop h k 0 vector_docs ([], ∅) with
  | Raised e => Raised e
  | Returned st => score_loop h k 0 bm25_docs st
  end.

Definition _rrf_rerank (h : store) (vector_docs bm25_docs : list loc) (k : Z)
  : outcome (list loc) * store :=
  match doc_tables h vector_docs bm25_docs k with
  | Raised e => (Raised e, h)
  | Returned (doc_scores, doc_obj) =>
      let sorted_docs := sorted_reverse snd PrimFloat.ltb doc_scores in
      let '(reranked_docs, h') :=
        fold_left (emit doc_obj) sorted_docs ([], h) in
      (Returned reranked_docs, h')
  end.

Definition is_nil {A} (l : list A) : bool :=
  match l with [] => true | _ => false end.

(** The part of [hybrid_search] after both result lists were obtained. *)
Definition fuse (h : store) (vector_docs bm25_docs : list loc) (top_k : Z)
  : outcome (list loc) * store :=
  if is_nil vector_docs && is_nil bm25_docs then (Returned [], h)
  else
    match _rrf_rerank h vector_docs bm25_docs 60 with
    | (Raised e, h') => (Raised e, h')
    | (Returned reranked_docs, h') =>
        (Returned (slice_to top_k reranked_docs), h')
    end.

Definition hybrid_search (self : t) (h : store) (query : pystr) (top_k : Z)
  : outcome (list loc) * store :=
  match similarity_search self query 5 with
  | Raised e =>
      if is_Exception e then (Returned [], h) else (Raised e, h)
  | Returned vector_docs =>
      match get_relevant_documents self query with
      | Returned bm25_docs => fuse h vector_docs bm25_docs top_k
      | Raised AttributeError =>
          match _get_relevant_documents self query with
          | Returned bm25_docs => fuse h vector_docs bm25_docs top_k
          | Raised e => (Raised e, h)
          end
      | Raised TypeError => (Returned [], h)
      | Raised e => (Raised e, h)
      end
  end.

End with_hash.

(** A value of the [filters] dictionary of [metadata_filter].  The callers
    in main.py pass a [str]; a [list] is the other form that the function
    tells apart, taken here as a list of [str]. *)
Inductive filter_value : Type :=
  | FilterValue (v : pystr)
  | FilterList (vs : list pystr).

(** [doc.metadata] of the object at [l]. *)
Definition metadata_of (h : store) (l : loc) : gmap pystr pyval :=
  match h !! l with
  | Some doc => Document.metadata doc
  | None => ∅
  end.

(** [x == v] for a metadata value [x] and a [str] [v]. *)
Definition eq_str (x : pyval) (v : pystr) : bool :=
  match x with
  | VStr s => bool_decide (s = v)
  | _ => false
  end.

(** The inner loop of [metadata_filter]: the value of [match] after the
    filters [filters] were checked, in their order. *)
Fixpoint matches (md : gmap pystr pyval) (filters : odict pystr filter_value)
  : bool :=
  match filters with
  | [] => true
  | (key, value) :: rest =>
      match md !! key with
      | Some x =>
          match value with
          | FilterList vs =>
              if existsb (eq_str x) vs then matches md rest else false
          | FilterValue v => if eq_str x v then matches md rest else false
          end
      | None => false
      end
  end.

(** The outer loop of [metadata_filter], from the documents [docs] on. *)
Fixpoint filter_loop (h : store) (filters : odict pystr filter_value)
    (top_k : Z) (docs filtered_docs : list loc) : list loc :=
  match docs with
  | [] => filtered_docs
  | doc :: rest =>
      if matches (metadata_of h doc) filters then
        let filtered_docs := filtered_docs ++ [doc] in
        if top_k <=? Z.of_nat (length filtered_docs) then filtered_docs
        else filter_loop h filters top_k rest filtered_docs
      else filter_loop h filters top_k rest filtered_docs
  end.

Section with_hash_filter.
Variable hash : pystr -> Z.

Definition metadata_filter (self : t) (h : store) (query : pystr)
    (filters : odict pystr filter_value) (top_k : Z)
  : outcome (list loc) * store :=
  match hybrid_search hash self h query (top_k * 3) with
  | (Raised e, h') => (Raised e, h')
  | (Returned docs, h') =>
      (Returned (filter_loop h' filters top_k docs []), h')
  end.

End with_hash_filter.

End RetrievalOptimizationModule.

(* ===================================================================== *)
(** * Vocabulary of the specification                                     *)
(* ===================================================================== *)

(** [before a b l]: an occurrence of [a] stands before an occurrence of
    [b] in [l]. *)
Definition before {A} (a b : A) (l : list A) : Prop :=
  exists l1 l2 l3, l = l1 ++ a :: l2 ++ b :: l3.

(** [first_before a b l]: scanning [l] from the left, [a] is met before
    any [b]. *)
Definition first_before {A} (a b : A) (l : list A) : Prop :=
  exists l1 l2, l = l1 ++ a :: l2 /\ (a ∉ l1) /\ (b ∉ l1) /\ a <> b.

(** A float of the specification that is not negative: its sign bit is
    clear, or it is not a number. *)
Definition positive_or_nan (x : spec_float) : Prop :=
  match x with
  | S754_zero s | S754_infinity s | S754_finite s _ _ => s = false
  | S754_nan => True
  end.

(** The distinct elements of [ks] in the order in which a scan from the
    left first meets them, after those of [acc]. *)
Definition first_seen_from {K} `{EqDecision K} (acc ks : list K) : list K :=
  fold_left (fun acc k => if decide (k ∈ acc) then acc else acc ++ [k]) ks acc.

Definition first_seen {K} `{EqDecision K} (ks : list K) : list K :=
  first_seen_from [] ks.

Module CacheSpec.
Import CacheManager.

(** The calls a client makes on the response cache. *)
Inductive op : Type :=
  | OpGet (session_id query : pystr) (now : float)
  | OpSet (session_id query answer : pystr)
        (metadata : option (gmap pystr pyval)) (now : float).

Section with_lower.
Variable lower : pystr -> pystr.

Definition apply (c : t) (o : op) : t :=
  match o with
  | OpGet s q now => snd (get lower c s q now)
  | OpSet s q a md now => snd (set lower c s q a md now)
  end.

(** The key whose entry a call uses: the key a [set] stores, the key a
    [get] hits.  A [get] that misses or finds an expired entry uses
    none. *)
Definition used_key (c : t) (o : op) : option pystr :=
  match o with
  | OpGet s q now =>
      match _generate_key lower s q with
      | Returned key =>
          match od_get key (_cache c) with
          | Some entry => if _is_expired c entry now then None else Some key
          | None => None
          end
      | Raised _ => None
      end
  | OpSet s q _ _ _ =>
      match _generate_key lower s q with
      | Returned key => Some key
      | Raised _ => None
      end
  end.

(** A cache together with the history needed to speak of recency: the
    number of calls made so far and, for each key, the number of the last
    call that used it. *)
Record traced : Type := {
  cache : t;
  calls : nat;
  last_use : gmap pystr nat
}.

Definition start (max_size ttl : Z) (enable_semantic : bool) : traced :=
  {| cache := __init__ max_size ttl enable_semantic; calls := 0%nat;
     last_use := ∅ |}.

Definition step (s : traced) (o : op) : traced :=
  {| cache := apply (cache s) o;
     calls := S (calls s);
     last_use := match used_key (cache s) o with
                 | Some key => <[key := calls s]> (last_use s)
                 | None => last_use s
                 end |}.

Definition run (s : traced) (ops : list op) : traced := fold_left step ops s.

End with_lower.
End CacheSpec.

Module SessionSpec.
Import SessionManager.

(** The calls a client makes on the session store. *)
Inductive op : Type :=
  | Create (uuid user_id : pystr) (now_c now_u : float)
  | GetSession (session_id : pystr) (now : float)
  | AddMessage (session_id role content : pystr)
               (metadata : option (gmap pystr pyval)) (now now_m now_u : float)
  | GetContext (session_id : pystr) (include_current : bool) (now : float)
  | GetMessages (session_id : pystr) (limit : option Z) (now : float)
  | Clear (session_id : pystr) (now now_u : float)
  | Delete (session_id : pystr).

Definition apply (m : t) (o : op) : t :=
  match o with
  | Create uuid user now_c now_u => snd (create_session m uuid user now_c now_u)
  | GetSession sid now => snd (get_session m sid now)
  | AddMessage sid role content md now now_m now_u =>
      snd (add_message m sid role content md now now_m now_u)
  | GetContext sid incl now => snd (get_context m sid incl now)
  | GetMessages sid limit now => snd (get_messages m sid limit now)
  | Clear sid now now_u => snd (clear_session m sid now now_u)
  | Delete sid => snd (delete_session m sid)
  end.

Definition run (m : t) (ops : list op) : t := fold_left apply ops m.

End SessionSpec.

Module ParentSpec.

(** Relevance of the parent [p]: the number of input fragments whose
    [parent_id] is [p]. *)
Definition relevance (child_chunks : list Document.t) (p : pystr) : Z :=
  Z.of_nat (length (filter (fun c => Document.parent_id c = Some p) child_chunks)).

(** The first fragment of [p] stands before every fragment of [q]. *)
Definition appears_first (child_chunks : list Document.t) (p q : pystr)
  : Prop :=
  first_before (Some p) (Some q) (map Document.parent_id child_chunks).

End ParentSpec.

Module FusionSpec.
Import RetrievalOptimizationModule.

Section with_hash.
Variable hash : pystr -> Z.

(** The content hashes of a result list, in rank order. *)
Definition ids (h : store) (docs : list loc) : list Z :=
  map (fun l => hash (page_content h l)) docs.

(** The reciprocal-rank terms [1.0 / (k + rank + 1)] that the list [docs]
    contributes to [doc_id], for the (0-based) positions [rank], [rank+1],
    ... at which a fragment with that content hash stands. *)
Fixpoint rrf_terms (h : store) (k rank : Z) (docs : list loc) (doc_id : Z)
  : list float :=
  match docs with
  | [] => []
  | doc :: rest =>
      (if decide (hash (page_content h doc) = doc_id)
       then [PrimFloat.div 1%float (float_of_Z (k + rank + 1))] else [])
      ++ rrf_terms h k (rank + 1) rest doc_id
  end.

End with_hash.

(** Float sum from the left, starting from [0]. *)
Definition fsum (terms : list float) : float :=
  fold_left PrimFloat.add terms 0%float.

(** [1.0 / (k + r)], the term of the 1-based rank [r]. *)
Definition reciprocal (k r : Z) : float :=
  PrimFloat.div 1%float (float_of_Z (k + r)).

(** The fused score found on the object at [l]. *)
Definition rrf_score_of (h : store) (l : loc) : option pyval :=
  match h !! l with
  | Some doc => Document.metadata doc !! utf8 "rrf_score"
  | None => None
  end.

End FusionSpec.

(** Every value of the dictionary satisfies [Q]. *)
Definition od_all {K V} (Q : V -> Prop) (d : odict K V) : Prop :=
  Forall (fun kv => Q (snd kv)) d.

Module SessionInv.
Import SessionManager.

(** No session holds more than [2 * max_history] messages. *)
Definition history_bounded (m : t) : Prop :=
  od_all (fun s => Z.of_nat (length (Session.messages s)) <= max_history m * 2)
         (_sessions m).

End SessionInv.

Module SessionExamples.
Import SessionManager SessionSpec.

Definition t0 : float := 0%float.

(** The demonstration at the end of session_manager.py, with the letters
    of the specification as message texts. *)
Definition demo_ops : list op :=
  [Create (utf8 "s1") (utf8 "test_user") t0 t0;
   AddMessage (utf8 "s1") (utf8 "user") (utf8 "A") None t0 t0 t0;
   AddMessage (utf8 "s1") (utf8 "assistant") (utf8 "B") None t0 t0 t0;
   AddMessage (utf8 "s1") (utf8 "user") (utf8 "C") None t0 t0 t0].

Definition demo_manager : SessionManager.t :=
  run (__init__ 1000 10 3600 1) demo_ops.

(** The same calls on a store that keeps one turn per session, and on one
    that keeps none. *)
Definition short_manager : SessionManager.t :=
  run (__init__ 1000 1 3600 1) demo_ops.

Definition no_history_manager : SessionManager.t :=
  snd (create_session (__init__ 1000 0 3600 1) (utf8 "s1") (utf8 "test_user")
                      t0 t0).

End SessionExamples.

Module CacheInv.
Import CacheManager CacheSpec.

(** [a] was last used before [b]. *)
Definition older (lu : gmap pystr nat) (a b : pystr) : Prop :=
  exists ta tb : nat, lu !! a = Some ta /\ lu !! b = Some tb /\ (ta < tb)%nat.

(** [k] was used by one of the first [n] calls. *)
Definition used_before (lu : gmap pystr nat) (n : nat) (k : pystr) : Prop :=
  exists t : nat, lu !! k = Some t /\ (t < n)%nat.

(** The dictionary lists its keys from the least to the most recently
    used. *)
Definition lru_ordered (s : traced) : Prop :=
  StronglySorted (older (last_use s)) (od_keys (_cache (cache s)))
  /\ Forall (used_before (last_use s) (calls s)) (od_keys (_cache (cache s))).

End CacheInv.

Module CacheExamples.
Import CacheManager CacheSpec.

Definition t0 : float := 0%float.

(** The calls of the demonstration at the end of cache_manager.py
    ([max_size = 2], [ttl = 30]). *)
Definition demo_ops : list op :=
  [OpSet (utf8 "123") (utf8 "红烧肉怎么做？") (utf8 "红烧肉做法：1.选肉 2.焯水...")
         None t0;
   OpSet (utf8 "124") (utf8 "可乐鸡翅怎么做") (utf8 "可乐鸡翅做法：1.腌制 2.煎制...")
         None t0;
   OpGet (utf8 "123") (utf8 "红烧肉怎么做？") t0;
   OpSet (utf8 "125") (utf8 "番茄炒蛋怎么做") (utf8 "番茄炒蛋做法：...") None t0].

(** A cache that holds the answer to the first question of the
    demonstration. *)
Definition asked_once : CacheManager.t :=
  snd (set ascii_lower (__init__ 1000 3600 false)
           (utf8 "123") (utf8 "红烧肉怎么做？") (utf8 "红烧肉做法") None t0).

End CacheExamples.

Module ParentInv.

(** The parent id for which [get_parent_documents] counts a fragment: the
    [parent_id] of its metadata when it is a non-empty string. *)
Definition counted (chunk : Document.t) : option pystr :=
  match Document.parent_id chunk with
  | Some (c :: s) => Some (c :: s)
  | _ => None
  end.

Definition counted_ids (child_chunks : list Document.t) : list pystr :=
  omap counted child_chunks.

(** The first document of [documents] whose [parent_id] is [p]. *)
Definition loaded (documents : list Document.t) (p : pystr)
  : option Document.t :=
  find (fun doc => bool_decide (Document.parent_id doc = Some p)) documents.

End ParentInv.

Module ParentExamples.

Definition doc (text parent : string) : Document.t :=
  {| Document.page_content := utf8 text;
     Document.metadata := {[ utf8 "parent_id" := VStr (utf8 parent) ]} |}.

Definition P1 : Document.t := doc "# 红烧肉" "p1".
Definition P2 : Document.t := doc "# 可乐鸡翅" "p2".
Definition f1 : Document.t := doc "## 必备原料和工具" "p1".
Definition f2 : Document.t := doc "## 操作" "p2".
Definition f3 : Document.t := doc "## 计算" "p1".
(** A fragment whose parent was never loaded, and one without parent. *)
Definition orphan : Document.t := doc "## 附加内容" "p9".
Definition loose : Document.t :=
  {| Document.page_content := utf8 "text"; Document.metadata := ∅ |}.

End ParentExamples.

Module FusionInv.
Import RetrievalOptimizationModule.

(** Between [h] and [h'] no object was created or removed, and nothing
    changed on any object except possibly the metadata entry
    [rrf_score]. *)
Definition only_score_changed (h h' : store) : Prop :=
  forall l,
    match h !! l, h' !! l with
    | Some d, Some d' =>
        Document.page_content d' = Document.page_content d
        /\ forall key, key <> utf8 "rrf_score" ->
             Document.metadata d' !! key = Document.metadata d !! key
    | None, None => True
    | _, _ => False
    end.

(** The two result lists that [hybrid_search] fuses for [query]: the
    vector engine returned [vs], and the lexical engine returned [bs]
    through its public entry point or, that one lacking, through the
    private one. *)
Definition retrieved (self : t) (query : pystr) (vs bs : list loc) : Prop :=
  similarity_search self query 5 = Returned vs
  /\ (get_relevant_documents self query = Returned bs
      \/ (get_relevant_documents self query = Raised AttributeError
          /\ _get_relevant_documents self query = Returned bs)).

End FusionInv.

Module FusionExamples.
Import RetrievalOptimizationModule.

(** A stand-in for the builtin [hash]: any function of the text will do
    where only the equality of contents matters. *)
Definition text_hash (s : pystr) : Z :=
  fold_left (fun a c => (a * 1000003 + c) mod 0x1FFFFFFFFFFFFFFF) s 0.

Definition chunk (text : string) : Document.t :=
  {| Document.page_content := utf8 text;
     Document.metadata := {[ utf8 "parent_id" := VStr (utf8 "p1") ]} |}.

(** Three chunk objects; the closing section of two recipes has the same
    text. *)
Definition objects : store :=
  {[ 1%positive := chunk "## 操作"; 2%positive := chunk "## 附加内容";
     3%positive := chunk "## 附加内容" ]}.

Definition engines (vector lexical fallback : outcome (list loc)) : t :=
  {| similarity_search := fun _ _ => vector;
     get_relevant_documents := fun _ => lexical;
     _get_relevant_documents := fun _ => fallback;
     chunks := [1%positive; 2%positive; 3%positive] |}.

Definition query : pystr := utf8 "如何制作牛排".

(** [1.0 / (60 + r)] for the 1-based rank [r]. *)
Definition term (r : Z) : float := FusionSpec.reciprocal 60 r.

End FusionExamples.

(* ===================================================================== *)
(** * main.py                                                             *)
(* ===================================================================== *)

Module RecipeRAGSystem.
Import DataPreparationModule RetrievalOptimizationModule.

Section with_labels.
(** [DataPreparationModule.get_category_labels()]: the values of
    [CATAGORY_MAPPING] in the order in which [list(set(...))] happened to
    put them. *)
Variable CATAGORY_LABELS : list pystr.

Definition _extract_filters_from_query (query : pystr)
  : odict pystr filter_value :=
  let filters := [] in
  let filters :=
    match find (fun category => contains category query) CATAGORY_LABELS with
    | Some category => od_set (utf8 "category") (FilterValue category) filters
    | None => filters
    end in
  let filters :=
    match find (fun difficulty => contains difficulty query)
               get_difficulty_labels with
    | Some difficulty =>
        od_set (utf8 "difficulty") (FilterValue difficulty) filters
    | None => filters
    end in
  filters.

End with_labels.
End RecipeRAGSystem.

(* ===================================================================== *)
(** * Calls on the cache and on the session store                         *)
(* ===================================================================== *)

Module CacheCalls.
Import CacheManager.

(** The calls that change a cache. *)
Inductive call : Type :=
  | CallGet (session_id query : pystr) (now : float)
  | CallSet (session_id query answer : pystr)
            (metadata : option (gmap pystr pyval)) (now : float)
  | CallInvalidate (session_id query : pystr)
  | CallClear
  | CallCleanupExpired (now : float).

Section with_lower.
Variable lower : pystr -> pystr.

Definition apply (c : t) (o : call) : t :=
  match o with
  | CallGet s q now => snd (get lower c s q now)
  | CallSet s q a md now => snd (set lower c s q a md now)
  | CallInvalidate s q => snd (invalidate lower c s q)
  | CallClear => snd (clear c)
  | CallCleanupExpired now => snd (cleanup_expired c now)
  end.

Definition run (c : t) (calls : list call) : t := fold_left apply calls c.

(** The query has a key: its normal form can be encoded. *)
Definition has_key (session_id query : pystr) : bool :=
  match _generate_key lower session_id query with
  | Returned _ => true
  | Raised _ => false
  end.

(** A [get], or a [set], that got as far as its key. *)
Definition is_lookup (o : call) : bool :=
  match o with
  | CallGet s q _ => has_key s q
  | _ => false
  end.

Definition is_store (o : call) : bool :=
  match o with
  | CallSet s q _ _ _ => has_key s q
  | _ => false
  end.

Definition lookups (calls : list call) : Z :=
  Z.of_nat (length (filter (fun o => is_lookup o = true) calls)).

Definition stores (calls : list call) : Z :=
  Z.of_nat (length (filter (fun o => is_store o = true) calls)).

End with_lower.
End CacheCalls.

Module SessionCalls.
Import SessionManager.

(** The calls that change a session store. *)
Inductive call : Type :=
  | CallCreate (uuid user_id : pystr) (now_c now_u : float)
  | CallGetSession (session_id : pystr) (now : float)
  | CallGetOrCreate (session_id : option pystr) (user_id : pystr) (now : float)
                    (uuid : pystr) (now_c now_u : float)
  | CallAddMessage (session_id role content : pystr)
                   (metadata : option (gmap pystr pyval)) (now now_m now_u : float)
  | CallGetContext (session_id : pystr) (include_current : bool) (now : float)
  | CallGetMessages (session_id : pystr) (limit : option Z) (now : float)
  | CallClear (session_id : pystr) (now now_u : float)
  | CallDelete (session_id : pystr)
  | CallGetInfo (session_id : pystr) (now : float)
  | CallCleanupExpired (now : float).

Definition apply (m : t) (o : call) : t :=
  match o with
  | CallCreate uuid user now_c now_u =>
      snd (create_session m uuid user now_c now_u)
  | CallGetSession sid now => snd (get_session m sid now)
  | CallGetOrCreate sid user now uuid now_c now_u =>
      snd (get_or_create_session m sid user now uuid now_c now_u)
  | CallAddMessage sid role content md now now_m now_u =>
      snd (add_message m sid role content md now now_m now_u)
  | CallGetContext sid incl now => snd (get_context m sid incl now)
  | CallGetMessages sid limit now => snd (get_messages m sid limit now)
  | CallClear sid now now_u => snd (clear_session m sid now now_u)
  | CallDelete sid => snd (delete_session m sid)
  | CallGetInfo sid now => snd (get_session_info m sid now)
  | CallCleanupExpired now => snd (cleanup_expired m now)
  end.

Definition run (m : t) (calls : list call) : t := fold_left apply calls m.

(** Every session is stored under its own id, and no id twice. *)
Definition well_filed (m : t) : Prop :=
  NoDup (od_keys (_sessions m))
  /\ Forall (fun kv => Session.session_id (snd kv) = fst kv) (_sessions m).

(** The settings of a store. *)
Definition settings (m : t) : Z * Z * Z * Z :=
  (max_sessions m, max_history m, session_ttl m, context_window m).

End SessionCalls.

Module SessionCallExamples.
Import SessionManager SessionCalls.

Definition t0 : float := 0%float.

(** The calls of the demonstration at the end of session_manager.py. *)
Definition demo_calls : list call :=
  [CallCreate (utf8 "s1") (utf8 "test_user") t0 t0;
   CallAddMessage (utf8 "s1") (utf8 "user") (utf8 "红烧肉怎么做？") None t0 t0 t0;
   CallAddMessage (utf8 "s1") (utf8 "assistant")
                  (utf8 "红烧肉的做法分为选肉、焯水、炒糖色...") None t0 t0 t0;
   CallAddMessage (utf8 "s1") (utf8 "user") (utf8 "用什么调料？") None t0 t0 t0].

Definition demo_store : SessionManager.t :=
  run (__init__ 1000 5 3600 5) demo_calls.

(** A store with room for two sessions, on which three were created. *)
Definition crowded_calls : list call :=
  [CallCreate (utf8 "s1") (utf8 "u1") t0 t0;
   CallCreate (utf8 "s2") (utf8 "u2") t0 t0;
   CallCreate (utf8 "s3") (utf8 "u3") t0 t0].

End SessionCallExamples.

(* ===================================================================== *)
(** * Vocabulary for texts and ratings                                    *)
(* ===================================================================== *)

(** The length of the run of [c] with which [s] starts. *)
Fixpoint run_from (c : Z) (s : pystr) : nat :=
  match s with
  | x :: s' => if x =? c then S (run_from c s') else 0%nat
  | [] => 0%nat
  end.

(** The length of the longest run of [c] in [s]. *)
Fixpoint longest_run (c : Z) (s : pystr) : nat :=
  match s with
  | [] => 0%nat
  | _ :: s' => Nat.max (run_from c s) (longest_run c s')
  end.

(** The star of the difficulty ratings, U+2605. *)
Definition star : Z := 0x2605.

(** The difficulty label of a recipe rated with [n] stars. *)
Definition rating (n : nat) : pystr :=
  match n with
  | 0%nat => utf8 "未知"
  | 1%nat => utf8 "非常简单"
  | 2%nat => utf8 "简单"
  | 3%nat => utf8 "中等"
  | 4%nat => utf8 "困难"
  | _ => utf8 "非常困难"
  end.

Module RecipeExamples.

(** A recipe file of the collection, and pathlib's reading of its path. *)
Definition braised_pork : Document.t :=
  {| Document.page_content := utf8 "# 红烧肉的做法

预估烹饪难度：★★★★
";
     Document.metadata :=
       {[ utf8 "source" := VStr (utf8 "data/cook/dishes/meat_dish/红烧肉.md");
          utf8 "parent_id" := VStr (utf8 "p1");
          utf8 "doc_type" := VStr (utf8 "parent") ]} |}.

Definition parts (path : pystr) : list pystr :=
  [utf8 "data"; utf8 "cook"; utf8 "dishes"; utf8 "meat_dish"; utf8 "红烧肉.md"].

Definition stem (path : pystr) : pystr := utf8 "红烧肉".

(** A chunk of a recipe with the metadata that [_enhance_metadata] gave
    its parent. *)
Definition rated_chunk (text difficulty : string) : Document.t :=
  {| Document.page_content := utf8 text;
     Document.metadata :=
       {[ utf8 "parent_id" := VStr (utf8 text);
          utf8 "category" := VStr (utf8 "荤菜");
          utf8 "difficulty" := VStr (utf8 difficulty) ]} |}.

(** Two chunk objects: a recipe rated with four stars and one rated with
    five. *)
Definition rated_objects : gmap positive Document.t :=
  {[ 1%positive := rated_chunk "## 红烧肉" "困难";
     2%positive := rated_chunk "## 佛跳墙" "非常困难" ]}.

End RecipeExamples.

Module FusionMore.
Import RetrievalOptimizationModule.

Section with_hash.
Variable hash : pystr -> Z.

(** The object that stands for the content hash [id] among [docs]: the
    last one whose text has this hash. *)
Definition last_with_hash (h : store) (docs : list loc) (id : Z) : option loc :=
  last (filter (fun l => hash (page_content h l) = id) docs).

End with_hash.

(** What a filter asks of a metadata value. *)
Definition satisfies (x : pyval) (value : filter_value) : Prop :=
  match value with
  | FilterValue v => x = VStr v
  | FilterList vs => exists v, v ∈ vs /\ x = VStr v
  end.

End FusionMore.

(** A float of the specification that is a number and is not negative:
    zero, a positive finite number or positive infinity. *)
Definition positive_number (x : spec_float) : Prop :=
  match x with
  | S754_zero s | S754_infinity s | S754_finite s _ _ => s = false
  | S754_nan => False
  end.

(* ===================================================================== *)
(** * Insertion-ordered dictionaries                                      *)
(* ===================================================================== *)

Lemma filter_all {A} (P : A -> Prop) `{forall x, Decision (P x)} (l : list A) :
  (forall x, x ∈ l -> P x) -> filter P l = l.
Proof.
  induction l as [|a l IH]; intros Hall; [done|].
  rewrite filter_cons_True by (apply Hall; left).
  f_equal. apply IH. intros x Hx. apply Hall. by right.
Qed.

Section odict_facts.
Context {K V : Type} `{EqDecision K}.
Implicit Types (d : odict K V) (k : K) (v : V).

Lemma od_get_None d k : od_get k d = None <-> k ∉ od_keys d.
Proof.
  induction d as [|[k' v'] d IH]; simpl.
  - split; [intros _; apply not_elem_of_nil | done].
  - destruct (decide (k = k')) as [->|Hne].
    + split; [done | intros Hn; exfalso; apply Hn; left].
    + rewrite IH, not_elem_of_cons. tauto.
Qed.

Lemma od_get_Some_elem d k v : od_get k d = Some v -> (k, v) ∈ d.
Proof.
  induction d as [|[k' v'] d IH]; simpl; [done|].
  destruct (decide (k = k')) as [->|Hne].
  - intros [= ->]. left.
  - intros Hg. right. auto.
Qed.

Lemma od_get_is_Some d k : k ∈ od_keys d -> exists v, od_get k d = Some v.
Proof.
  intros Hin. destruct (od_get k d) as [v|] eqn:E; [eauto|].
  apply od_get_None in E. done.
Qed.

Lemma od_get_set_eq d k v : od_get k (od_set k v d) = Some v.
Proof.
  induction d as [|[k' v'] d IH]; simpl.
  - by rewrite decide_True.
  - destruct (decide (k = k')) as [->|Hne]; simpl.
    + by rewrite decide_True.
    + by rewrite decide_False.
Qed.

Lemma od_get_set_ne d k k' v : k <> k' -> od_get k' (od_set k v d) = od_get k' d.
Proof.
  intros Hne. induction d as [|[k0 v0] d IH]; simpl.
  - by rewrite decide_False.
  - destruct (decide (k = k0)) as [->|Hne0]; simpl.
    + by rewrite !decide_False.
    + destruct (decide (k' = k0)); [done | apply IH].
Qed.

Lemma od_keys_set d k v :
  od_keys (od_set k v d)
  = if decide (k ∈ od_keys d) then od_keys d else od_keys d ++ [k].
Proof.
  unfold od_keys. induction d as [|[k0 v0] d IH].
  - simpl. destruct (decide (k ∈ [])) as [Hin|]; [|done].
    by apply elem_of_nil in Hin.
  - simpl. destruct (decide (k = k0)) as [->|Hne]; simpl.
    + destruct (decide (k0 ∈ k0 :: map fst d)) as [|Hn]; [done|].
      exfalso; apply Hn; left.
    + rewrite IH.
      destruct (decide (k ∈ map fst d)) as [Hin|Hnin];
        destruct (decide (k ∈ k0 :: map fst d)) as [Hin'|Hnin']; try done.
      * exfalso; apply Hnin'; by right.
      * apply elem_of_cons in Hin' as [?|?]; done.
Qed.

Lemma od_keys_set_fresh d k v :
  k ∉ od_keys d -> od_keys (od_set k v d) = od_keys d ++ [k].
Proof. intros Hn. rewrite od_keys_set. by rewrite decide_False. Qed.

Lemma od_set_fresh d k v : k ∉ od_keys d -> od_set k v d = d ++ [(k, v)].
Proof.
  induction d as [|[k0 v0] d IH]; simpl; [done|].
  intros Hn. apply not_elem_of_cons in Hn as [Hne Hn].
  rewrite decide_False by done. f_equal. auto.
Qed.

Lemma od_del_absent d k : k ∉ od_keys d -> od_del k d = d.
Proof.
  induction d as [|[k0 v0] d IH]; simpl; [done|].
  intros Hn. apply not_elem_of_cons in Hn as [Hne Hn].
  rewrite decide_False by done. f_equal. auto.
Qed.

Lemma od_keys_del d k :
  NoDup (od_keys d) -> od_keys (od_del k d) = filter (fun x => x <> k) (od_keys d).
Proof.
  induction d as [|[k0 v0] d IH]; simpl; [done|].
  intros Hnd. apply NoDup_cons in Hnd as [Hn Hnd].
  destruct (decide (k = k0)) as [->|Hne]; simpl.
  - rewrite filter_cons_False by (intros Hx; by apply Hx).
    symmetry. apply filter_all. intros x Hx ->. done.
  - rewrite filter_cons_True by done. simpl. f_equal. auto.
Qed.

Lemma od_del_sublist d k : od_keys (od_del k d) `sublist_of` od_keys d.
Proof.
  induction d as [|[k0 v0] d IH]; simpl; [done|].
  destruct (decide (k = k0)); simpl.
  - by apply sublist_cons.
  - by apply sublist_skip.
Qed.

Lemma od_del_NoDup d k : NoDup (od_keys d) -> NoDup (od_keys (od_del k d)).
Proof. intros Hnd. eapply sublist_NoDup; eauto using od_del_sublist. Qed.

Lemma od_del_not_elem d k : NoDup (od_keys d) -> k ∉ od_keys (od_del k d).
Proof.
  intros Hnd. rewrite od_keys_del by done.
  rewrite list_elem_of_filter. intros [Hne _]. done.
Qed.

Lemma od_get_del_ne d k k' : k <> k' -> od_get k' (od_del k d) = od_get k' d.
Proof.
  intros Hne. induction d as [|[k0 v0] d IH]; simpl; [done|].
  destruct (decide (k = k0)) as [->|Hne0]; simpl.
  - by rewrite decide_False.
  - destruct (decide (k' = k0)); [done | apply IH].
Qed.

Lemma od_del_length d k :
  k ∈ od_keys d -> S (length (od_del k d)) = length d.
Proof.
  induction d as [|[k0 v0] d IH]; simpl.
  - intros Hin. by apply elem_of_nil in Hin.
  - intros Hin. destruct (decide (k = k0)) as [->|Hne]; simpl; [done|].
    apply elem_of_cons in Hin as [?|Hin]; [done|]. f_equal. auto.
Qed.

Lemma od_set_NoDup d k v : NoDup (od_keys d) -> NoDup (od_keys (od_set k v d)).
Proof.
  intros Hnd. rewrite od_keys_set. case_decide; [done|].
  apply NoDup_app. split_and!; [done | | apply NoDup_singleton].
  intros x Hx Hx'. apply list_elem_of_singleton in Hx' as ->. done.
Qed.

Lemma od_set_length_present d k v :
  k ∈ od_keys d -> length (od_set k v d) = length d.
Proof.
  intros Hin.
  assert (length (od_keys (od_set k v d)) = length (od_keys d)) as Hl.
  { rewrite od_keys_set. by rewrite decide_True. }
  unfold od_keys in Hl. by rewrite !length_map in Hl.
Qed.

Lemma od_keys_move_to_end d k :
  NoDup (od_keys d) -> k ∈ od_keys d ->
  od_keys (od_move_to_end k d) = filter (fun x => x <> k) (od_keys d) ++ [k].
Proof.
  intros Hnd Hin. unfold od_move_to_end.
  destruct (od_get_is_Some d k Hin) as [v ->].
  unfold od_keys at 1. rewrite map_app. simpl.
  f_equal. by apply od_keys_del.
Qed.

Lemma od_mem_true d k : od_mem k d = true <-> k ∈ od_keys d.
Proof.
  unfold od_mem. destruct (od_get k d) eqn:E.
  - split; [|done]. intros _.
    destruct (decide (k ∈ od_keys d)) as [|Hn]; [done|].
    apply od_get_None in Hn. congruence.
  - apply od_get_None in E. split; [done | intros; done].
Qed.

End odict_facts.

(* ===================================================================== *)
(** * Order of occurrence in a list                                       *)
(* ===================================================================== *)

Section before_facts.
Context {A : Type}.
Implicit Types (a b x : A) (l : list A).

Lemma before_sublist a b l : before a b l <-> [a; b] `sublist_of` l.
Proof.
  split.
  - intros (l1 & l2 & l3 & ->).
    apply sublist_inserts_l. apply sublist_skip.
    apply sublist_inserts_l. apply sublist_skip. apply sublist_nil_l.
  - induction l as [|x l IH]; intros Hs.
    + by apply sublist_nil_r in Hs.
    + apply sublist_cons_r in Hs as [Hs|(l' & Heq & Hs)].
      * destruct (IH Hs) as (l1 & l2 & l3 & ->).
        by exists (x :: l1), l2, l3.
      * injection Heq as -> <-.
        apply sublist_cons_l in Hs as (l2 & l3 & -> & _).
        by exists [], l2, l3.
Qed.

Lemma before_mono a b l l' : l `sublist_of` l' -> before a b l -> before a b l'.
Proof. rewrite !before_sublist. intros Hs Hb. by etrans. Qed.

Lemma before_elem_l a b l : before a b l -> a ∈ l.
Proof. intros (l1 & l2 & l3 & ->). set_solver. Qed.

Lemma before_elem_r a b l : before a b l -> b ∈ l.
Proof. intros (l1 & l2 & l3 & ->). set_solver. Qed.

Lemma before_cons_head a b l : b ∈ l -> before a b (a :: l).
Proof.
  intros (l2 & l3 & ->)%list_elem_of_split. by exists [], l2, l3.
Qed.

Lemma before_snoc a b l : a ∈ l -> before a b (l ++ [b]).
Proof.
  intros (l1 & l2 & ->)%list_elem_of_split. exists l1, l2, [].
  by rewrite <- app_assoc.
Qed.

Lemma before_NoDup_asym a b l : NoDup l -> before a b l -> ~ before b a l.
Proof.
  rewrite !before_sublist. induction 1 as [|x l Hx Hnd IH]; intros H1 H2.
  - by apply sublist_nil_r in H1.
  - apply sublist_cons_r in H1 as [H1|(l1 & Heq1 & H1)];
      apply sublist_cons_r in H2 as [H2|(l2 & Heq2 & H2)].
    + by apply IH.
    + injection Heq2 as -> <-. apply Hx.
      apply (sublist_subseteq _ _ H1). set_solver.
    + injection Heq1 as -> <-. apply Hx.
      apply (sublist_subseteq _ _ H2). set_solver.
    + injection Heq1 as -> <-. injection Heq2 as -> <-. apply Hx.
      apply (sublist_subseteq _ _ H1). set_solver.
Qed.

Lemma before_NoDup_ne a b l : NoDup l -> before a b l -> a <> b.
Proof.
  intros Hnd Hb ->. by apply (before_NoDup_asym b b l).
Qed.

Lemma before_total a b l : a ∈ l -> b ∈ l -> a <> b -> before a b l \/ before b a l.
Proof.
  intros Ha Hb Hne.
  apply list_elem_of_split in Ha as (l1 & l2 & ->).
  apply elem_of_app in Hb as [Hb|Hb].
  - right. apply list_elem_of_split in Hb as (m1 & m2 & ->).
    exists m1, m2, l2. by rewrite <- app_assoc.
  - left. apply elem_of_cons in Hb as [->|Hb]; [done|].
    apply list_elem_of_split in Hb as (m1 & m2 & ->). by exists l1, m1, m2.
Qed.

Lemma before_omap {B} (f : A -> option B) a b (fa fb : B) l :
  before a b l -> f a = Some fa -> f b = Some fb -> before fa fb (omap f l).
Proof.
  intros (l1 & l2 & l3 & ->) Ha Hb.
  exists (omap f l1), (omap f l2), (omap f l3).
  rewrite omap_app. simpl. rewrite Ha. rewrite omap_app. simpl. by rewrite Hb.
Qed.

Lemma before_map {B} (f : A -> B) a b l :
  before a b l -> before (f a) (f b) (map f l).
Proof.
  intros (l1 & l2 & l3 & ->). exists (map f l1), (map f l2), (map f l3).
  rewrite map_app. simpl. by rewrite map_app.
Qed.

End before_facts.

(** An element that stands before another in a duplicate-free list of
    keys does so in the dictionary. *)
Lemma before_od_keys {K V} `{EqDecision K} (d : odict K V) a b va vb :
  NoDup (od_keys d) -> before a b (od_keys d) ->
  od_get a d = Some va -> od_get b d = Some vb -> before (a, va) (b, vb) d.
Proof.
  intros Hnd (l1 & l2 & l3 & Hk) Ha Hb.
  unfold od_keys in Hk.
  apply map_eq_app in Hk as (d1 & d' & -> & Hl1 & Hk).
  destruct d' as [|[a0 va0] d']; [done|]. simpl in Hk. injection Hk as -> Hk.
  apply map_eq_app in Hk as (d2 & d'' & -> & Hl2 & Hk).
  destruct d'' as [|[b0 vb0] d3]; [done|]. simpl in Hk. injection Hk as -> Hk.
  apply od_get_Some_elem in Ha, Hb.
  assert (forall k v v' (d : odict K V),
             NoDup (od_keys d) -> (k, v) ∈ d -> (k, v') ∈ d -> v = v') as Hfun.
  { clear. intros k v v' d. induction d as [|[k0 v0] d IH]; intros Hnd H1 H2.
    - by apply elem_of_nil in H1.
    - simpl in Hnd. apply NoDup_cons in Hnd as [Hn Hnd].
      apply elem_of_cons in H1 as [H1|H1]; apply elem_of_cons in H2 as [H2|H2].
      + congruence.
      + injection H1 as -> ->. exfalso. apply Hn.
        apply list_elem_of_fmap. by exists (k0, v').
      + injection H2 as -> ->. exfalso. apply Hn.
        apply list_elem_of_fmap. by exists (k0, v).
      + auto. }
  assert (va0 = va) as ->.
  { eapply (Hfun a); [exact Hnd| |exact Ha].
    apply elem_of_app; right; left. }
  assert (vb0 = vb) as ->.
  { eapply (Hfun b); [exact Hnd| |exact Hb].
    apply elem_of_app; right; right. apply elem_of_app; right; left. }
  by exists d1, d2, d3.
Qed.

(* ===================================================================== *)
(** * The stable descending sort                                          *)
(* ===================================================================== *)

Section sorted_facts.
Context {A K : Type} (key : A -> K) (lt : K -> K -> bool).
Implicit Types (x a b : A) (l : list A).

Lemma insert_desc_split x l :
  exists l1 l2, l = l1 ++ l2 /\ insert_desc key lt x l = l1 ++ x :: l2
    /\ Forall (fun y => lt (key x) (key y) = true) l1
    /\ match l2 with [] => True | y :: _ => lt (key x) (key y) = false end.
Proof.
  induction l as [|y l IH]; simpl.
  - by exists [], [].
  - destruct (lt (key x) (key y)) eqn:E.
    + destruct IH as (l1 & l2 & -> & -> & Hall & Hhd).
      exists (y :: l1), l2. split_and!; try done. by constructor.
    + exists [], (y :: l). by split_and!.
Qed.

Lemma insert_desc_perm x l : insert_desc key lt x l ≡ₚ x :: l.
Proof.
  destruct (insert_desc_split x l) as (l1 & l2 & -> & -> & _).
  by rewrite Permutation_middle.
Qed.

Lemma sorted_reverse_perm l : sorted_reverse key lt l ≡ₚ l.
Proof.
  induction l as [|x l IH]; simpl; [done|].
  rewrite insert_desc_perm. by rewrite IH.
Qed.

Lemma insert_desc_sublist x l : l `sublist_of` insert_desc key lt x l.
Proof.
  destruct (insert_desc_split x l) as (l1 & l2 & -> & -> & _).
  apply sublist_app; [done|]. by apply sublist_cons.
Qed.

Lemma insert_desc_before x b l :
  b ∈ l -> lt (key x) (key b) = false -> before x b (insert_desc key lt x l).
Proof.
  intros Hb Hlt.
  destruct (insert_desc_split x l) as (l1 & l2 & -> & -> & Hall & _).
  apply elem_of_app in Hb as [Hb|Hb].
  - rewrite Forall_forall in Hall. specialize (Hall b Hb). congruence.
  - apply list_elem_of_split in Hb as (m1 & m2 & ->). by exists l1, m1, m2.
Qed.

(** Stability: an element that is not smaller than a later one stays
    before it. *)
Lemma sorted_reverse_stable a b l :
  before a b l -> lt (key a) (key b) = false ->
  before a b (sorted_reverse key lt l).
Proof.
  intros Hb Hlt. induction l as [|x l IH].
  - destruct Hb as (l1 & l2 & l3 & Heq). by destruct l1.
  - simpl. destruct Hb as ([|y l1] & l2 & l3 & Heq); simpl in Heq.
    + injection Heq as -> ->. apply insert_desc_before; [|done].
      rewrite sorted_reverse_perm. set_solver.
    + injection Heq as -> ->.
      eapply before_mono; [apply insert_desc_sublist|].
      apply IH. by exists l1, l2, l3.
Qed.

End sorted_facts.

(** With integer keys the result is in decreasing order of key. *)
Lemma insert_desc_sorted {A} (key : A -> Z) x (l : list A) :
  StronglySorted (fun a b => key b <= key a) l ->
  StronglySorted (fun a b => key b <= key a) (insert_desc key Z.ltb x l).
Proof.
  intros Hs.
  destruct (insert_desc_split key Z.ltb x l) as (l1 & l2 & -> & -> & Hall & Hhd).
  apply StronglySorted_app in Hs as (H12 & Hs1 & Hs2).
  apply StronglySorted_app_2; [|done|].
  - intros a b Ha Hb. apply elem_of_cons in Hb as [->|Hb]; [|by apply H12].
    rewrite Forall_forall in Hall. specialize (Hall a Ha).
    apply Z.ltb_lt in Hall. lia.
  - constructor; [done|].
    destruct l2 as [|y l2]; [done|].
    apply Z.ltb_ge in Hhd. apply StronglySorted_inv in Hs2 as [_ Hy].
    constructor; [done|].
    eapply Forall_impl; [exact Hy|]. simpl. intros z Hz. lia.
Qed.

Lemma sorted_reverse_sorted {A} (key : A -> Z) (l : list A) :
  StronglySorted (fun a b => key b <= key a) (sorted_reverse key Z.ltb l).
Proof.
  induction l as [|x l IH]; simpl; [constructor|].
  by apply insert_desc_sorted.
Qed.

(* ===================================================================== *)
(** * First-seen order                                                    *)
(* ===================================================================== *)

Section first_seen_facts.
Context {K : Type} `{EqDecision K}.
Implicit Types (a b k : K) (acc ks : list K).

Lemma first_seen_from_snoc acc ks k :
  first_seen_from acc (ks ++ [k])
  = if decide (k ∈ first_seen_from acc ks) then first_seen_from acc ks
    else first_seen_from acc ks ++ [k].
Proof. unfold first_seen_from. by rewrite fold_left_app. Qed.

Lemma first_seen_from_app acc ks1 ks2 :
  first_seen_from acc (ks1 ++ ks2) = first_seen_from (first_seen_from acc ks1) ks2.
Proof. unfold first_seen_from. by rewrite fold_left_app. Qed.

Lemma first_seen_from_elem acc ks k :
  k ∈ first_seen_from acc ks <-> k ∈ acc \/ k ∈ ks.
Proof.
  induction ks as [|x ks IH] using rev_ind.
  - simpl. rewrite elem_of_nil. tauto.
  - rewrite first_seen_from_snoc. case_decide as Hx.
    + rewrite elem_of_app, list_elem_of_singleton, IH.
      split; [tauto|]. intros [?|[?| ->]]; [tauto|tauto|]. by apply IH.
    + rewrite !elem_of_app, list_elem_of_singleton, IH. tauto.
Qed.

Lemma first_seen_from_NoDup acc ks : NoDup acc -> NoDup (first_seen_from acc ks).
Proof.
  intros Hacc. induction ks as [|x ks IH] using rev_ind; [done|].
  rewrite first_seen_from_snoc. case_decide as Hx; [done|].
  apply NoDup_app. split_and!; [done| |apply NoDup_singleton].
  intros y Hy ->%list_elem_of_singleton. done.
Qed.

Lemma first_seen_from_prefix acc ks : acc `sublist_of` first_seen_from acc ks.
Proof.
  induction ks as [|x ks IH] using rev_ind; [done|].
  rewrite first_seen_from_snoc. case_decide; [done|].
  by apply sublist_inserts_r.
Qed.

Lemma first_seen_from_mono acc ks1 ks2 :
  first_seen_from acc ks1 `sublist_of` first_seen_from acc (ks1 ++ ks2).
Proof. rewrite first_seen_from_app. apply first_seen_from_prefix. Qed.

(** Scanning [ks] after nothing: what is met first comes first. *)
Lemma first_seen_before a b ks :
  first_before a b ks -> b ∈ ks -> before a b (first_seen ks).
Proof.
  intros (l1 & l2 & -> & Ha & Hb & Hne) Hin. unfold first_seen.
  apply elem_of_app in Hin as [?|Hin]; [done|].
  apply elem_of_cons in Hin as [?|Hin]; [done|].
  replace (l1 ++ a :: l2) with ((l1 ++ [a]) ++ l2) by by rewrite <- app_assoc.
  rewrite first_seen_from_app.
  set (acc := first_seen_from [] (l1 ++ [a])).
  assert (a ∈ acc) as Hacc.
  { apply first_seen_from_elem. right. set_solver. }
  assert (b ∉ acc) as Hbacc.
  { intros [H0|H0]%first_seen_from_elem; [by apply elem_of_nil in H0|].
    apply elem_of_app in H0 as [?|H0]; [done|].
    apply list_elem_of_singleton in H0. done. }
  clearbody acc. clear Ha Hb l1.
  induction l2 as [|x l2 IH] using rev_ind.
  - by apply elem_of_nil in Hin.
  - rewrite first_seen_from_snoc.
    apply elem_of_app in Hin as [Hin|Hin].
    + specialize (IH Hin). case_decide; [done|].
      eapply before_mono; [|exact IH]. by apply sublist_inserts_r.
    + apply list_elem_of_singleton in Hin as <-.
      destruct (decide (b ∈ l2)) as [Hin|Hnin].
      * specialize (IH Hin). case_decide; [done|].
        eapply before_mono; [|exact IH]. by apply sublist_inserts_r.
      * rewrite decide_False.
        2:{ intros [?|?]%first_seen_from_elem; done. }
        apply before_snoc. apply first_seen_from_elem. by left.
Qed.

End first_seen_facts.

(* ===================================================================== *)
(** * Values of a dictionary                                              *)
(* ===================================================================== *)

Section odict_forall.
Context {K V : Type} `{EqDecision K} (Q : V -> Prop).
Implicit Types (d : odict K V) (k : K) (v : V).

Lemma od_all_get d k v : od_all Q d -> od_get k d = Some v -> Q v.
Proof.
  intros Hall Hg. apply od_get_Some_elem in Hg.
  unfold od_all in Hall. rewrite Forall_forall in Hall. exact (Hall _ Hg).
Qed.

Lemma od_all_set d k v : od_all Q d -> Q v -> od_all Q (od_set k v d).
Proof.
  intros Hall Hv. induction d as [|[k0 v0] d IH]; simpl.
  - unfold od_all. by repeat constructor.
  - apply Forall_cons in Hall as [H0 Hall].
    destruct (decide (k = k0)); constructor; simpl; [done|done|done|].
    by apply IH.
Qed.

Lemma od_all_del d k : od_all Q d -> od_all Q (od_del k d).
Proof.
  intros Hall. induction d as [|[k0 v0] d IH]; simpl; [done|].
  apply Forall_cons in Hall as [H0 Hall].
  destruct (decide (k = k0)); [done|]. constructor; [done|]. by apply IH.
Qed.

Lemma od_all_move_to_end d k : od_all Q d -> od_all Q (od_move_to_end k d).
Proof.
  intros Hall. unfold od_move_to_end.
  destruct (od_get k d) as [v|] eqn:E; [|done].
  apply Forall_app. split; [by apply od_all_del|].
  constructor; [|constructor]. simpl. by eapply od_all_get.
Qed.
End odict_forall.

(* ===================================================================== *)
(** * Session store                                                       *)
(* ===================================================================== *)

Section session_facts.
Import SessionManager SessionSpec SessionInv.

Lemma trim_unfold max_history (msgs : list Message.t) :
  trim max_history msgs
  = if max_history * 2 <? Z.of_nat (length msgs) then
      match msgs with
      | [] => (Raised IndexError, [])
      | [_] => (Raised IndexError, [])
      | _ :: _ :: rest => trim max_history rest
      end
    else (Returned tt, msgs).
Proof. by destruct msgs. Qed.

Lemma drop_two_more {A} (n : nat) (a b : A) (l : list A) :
  drop (2 * S n) (a :: b :: l) = drop (2 * n) l.
Proof. by replace (2 * S n)%nat with (S (S (2 * n))) by lia. Qed.

(** The trimming loop, for a list of any length: it stops after [n] rounds,
    each of which dropped the two oldest messages while the bound was still
    exceeded. *)
Lemma trim_spec max_history (msgs : list Message.t) :
  1 <= max_history ->
  exists n : nat,
    trim max_history msgs = (Returned tt, drop (2 * n) msgs)
    /\ Z.of_nat (length (drop (2 * n) msgs)) <= max_history * 2
    /\ forall j : nat, (j < n)%nat ->
         max_history * 2 < Z.of_nat (length (drop (2 * j) msgs)).
Proof.
  intros Hmh.
  remember (length msgs) as len eqn:Hlen. revert msgs Hlen.
  induction (lt_wf len) as [len _ IH]. intros msgs ->.
  rewrite trim_unfold.
  destruct (max_history * 2 <? Z.of_nat (length msgs)) eqn:E.
  - apply Z.ltb_lt in E.
    destruct msgs as [|a [|b rest]]; simpl in E; [lia|lia|].
    destruct (IH (length rest) ltac:(simpl; lia) rest eq_refl)
      as (n & Htrim & Hlen & Hmin).
    exists (S n). rewrite drop_two_more. split_and!; [done|done|].
    intros [|j] Hj.
    + simpl. simpl in E. lia.
    + rewrite drop_two_more. apply Hmin. lia.
  - apply Z.ltb_ge in E. exists 0%nat. simpl. split_and!; [done|done|].
    intros j Hj. lia.
Qed.

Lemma evict_sublist max_sessions (d : odict pystr Session.t) :
  snd (evict max_sessions d) `sublist_of` d.
Proof.
  induction d as [|e d IH]; simpl.
  - by destruct (_ <? _).
  - destruct (_ <? _); [|done]. by apply sublist_cons.
Qed.

Lemma get_session_config m sid now :
  max_history (snd (get_session m sid now)) = max_history m
  /\ context_window (snd (get_session m sid now)) = context_window m.
Proof.
  unfold get_session. destruct (od_get sid (_sessions m)); [|done].
  by destruct (PrimFloat.ltb _ _).
Qed.

Lemma get_session_bounded m sid now :
  history_bounded m -> history_bounded (snd (get_session m sid now)).
Proof.
  unfold history_bounded, get_session. intros Hb.
  destruct (od_get sid (_sessions m)); [|done].
  destruct (PrimFloat.ltb _ _); simpl.
  - by apply od_all_del.
  - by apply od_all_move_to_end.
Qed.

Lemma get_session_Some m sid now s m1 :
  get_session m sid now = (Some s, m1) ->
  od_get sid (_sessions m) = Some s.
Proof.
  unfold get_session. destruct (od_get sid (_sessions m)); [|done].
  destruct (PrimFloat.ltb _ _); [done|]. by intros [= -> _].
Qed.

Lemma apply_max_history m o : max_history (apply m o) = max_history m.
Proof.
  destruct o; simpl.
  - unfold create_session. by destruct (evict _ _) as [[] ?].
  - apply get_session_config.
  - unfold add_message.
    destruct (get_session m session_id now) as [[s|] m1] eqn:E.
    + pose proof (get_session_config m session_id now) as [Hc _].
      rewrite E in Hc. simpl in Hc.
      by destruct (trim _ _) as [[] ?].
    + pose proof (get_session_config m session_id now) as [Hc _].
      by rewrite E in Hc.
  - unfold get_context.
    pose proof (get_session_config m session_id now) as [Hc _].
    destruct (get_session m session_id now) as [[s|] m1]; [|done].
    destruct (Session.is_empty s); [done|].
    by destruct (slice_from _ _).
  - unfold get_messages.
    pose proof (get_session_config m session_id now) as [Hc _].
    by destruct (get_session m session_id now) as [[s|] m1].
  - unfold clear_session.
    pose proof (get_session_config m session_id now) as [Hc _].
    by destruct (get_session m session_id now) as [[s|] m1].
  - unfold delete_session. by destruct (od_mem _ _).
Qed.

(** What [add_message] does to a live session. *)
Lemma add_message_live m sid role content md now now_m now_u s m1 :
  1 <= max_history m ->
  get_session m sid now = (Some s, m1) ->
  let message := {| Message.role := role; Message.content := content;
                    Message.timestamp := now_m;
                    Message.metadata := match md with
                                        | Some x => x
                                        | None => ∅
                                        end |} in
  exists (n : nat) m2 s',
    add_message m sid role content md now now_m now_u = (Returned true, m2)
    /\ _sessions m2 = od_set sid s' (_sessions m1)
    /\ od_get sid (_sessions m2) = Some s'
    /\ Session.messages s' = drop (2 * n) (Session.messages s ++ [message])
    /\ Z.of_nat (length (Session.messages s')) <= max_history m * 2
    /\ forall j : nat, (j < n)%nat ->
         max_history m * 2
         < Z.of_nat (length (drop (2 * j) (Session.messages s ++ [message]))).
Proof.
  intros Hmh Hg message. unfold add_message. rewrite Hg.
  pose proof (get_session_config m sid now) as [Hc _].
  rewrite Hg in Hc. simpl in Hc. rewrite Hc.
  destruct (trim_spec (max_history m) (Session.messages s ++ [message]) Hmh)
    as (n & Htrim & Hlen & Hmin).
  fold message. rewrite Htrim.
  eexists n, _, _. split; [reflexivity|]. simpl.
  split_and!; [done|apply od_get_set_eq|done|done|done].
Qed.

Lemma apply_bounded m o :
  1 <= max_history m -> history_bounded m -> history_bounded (apply m o).
Proof.
  intros Hmh Hb. destruct o; simpl.
  - unfold create_session.
    set (d := od_set _ _ _).
    assert (od_all (fun s => Z.of_nat (length (Session.messages s))
                             <= max_history m * 2) d) as Hd.
    { apply od_all_set; [done|]. simpl. lia. }
    pose proof (evict_sublist (max_sessions m) d) as Hsub.
    destruct (evict (max_sessions m) d) as [[] d']; simpl in *;
      unfold history_bounded; simpl;
      (eapply Forall_forall; intros x Hx;
       eapply (proj1 (Forall_forall _ _) Hd), (sublist_subseteq _ _ Hsub); done).
  - by apply get_session_bounded.
  - unfold add_message.
    pose proof (get_session_bounded m session_id now Hb) as Hb1.
    pose proof (get_session_config m session_id now) as [Hc _].
    destruct (get_session m session_id now) as [[s|] m1]; [|done].
    simpl in Hb1, Hc. rewrite Hc.
    destruct (trim_spec (max_history m)
                (Session.messages s
                 ++ [{| Message.role := role; Message.content := content;
                        Message.timestamp := now_m;
                        Message.metadata := match metadata with
                                            | Some md => md
                                            | None => ∅
                                            end |}]) Hmh)
      as (n & -> & Hlen & _).
    simpl. unfold history_bounded in *. simpl.
    apply od_all_set; [done|]. simpl. rewrite Hc. exact Hlen.
  - unfold get_context.
    pose proof (get_session_bounded m session_id now Hb) as Hb1.
    destruct (get_session m session_id now) as [[s|] m1]; [|done].
    destruct (Session.is_empty s); [done|].
    by destruct (slice_from _ _).
  - unfold get_messages.
    pose proof (get_session_bounded m session_id now Hb) as Hb1.
    by destruct (get_session m session_id now) as [[s|] m1].
  - unfold clear_session.
    pose proof (get_session_bounded m session_id now Hb) as Hb1.
    pose proof (get_session_config m session_id now) as [Hc _].
    destruct (get_session m session_id now) as [[s|] m1]; [|done].
    simpl in *. unfold history_bounded in *. simpl.
    apply od_all_set; [done|]. simpl. lia.
  - unfold delete_session. destruct (od_mem _ _); [|done].
    simpl. by apply od_all_del.
Qed.
End session_facts.

Section session_theorems.
Import SessionManager SessionSpec SessionInv.

Lemma run_max_history m ops : max_history (run m ops) = max_history m.
Proof.
  revert m. induction ops as [|o ops IH]; intros m; [done|].
  change (run m (o :: ops)) with (run (apply m o) ops).
  rewrite IH. apply apply_max_history.
Qed.

Lemma run_bounded m ops :
  1 <= max_history m -> history_bounded m -> history_bounded (run m ops).
Proof.
  revert m. induction ops as [|o ops IH]; intros m Hmh Hb; [done|].
  change (run m (o :: ops)) with (run (apply m o) ops). apply IH.
  - by rewrite apply_max_history.
  - by apply apply_bounded.
Qed.

(** C4: after any sequence of calls on a session store created with
    [max_history = history >= 1], no session holds more than [2 * history]
    messages; and [add_message] on a live session appends the message and
    then removes the two oldest messages [n] times, each time because the
    bound was still exceeded, until it is met. *)
Theorem session_history_bounded_and_trimmed_in_pairs
    (capacity history ttl window : Z)
    (ops : list op) :
  1 <= history ->
  let m := run (__init__ capacity history ttl window)
               ops in
  (forall sid s,
      od_get sid (_sessions m) = Some s ->
      Z.of_nat (length (Session.messages s)) <= 2 * history)
  /\ (forall sid role content md now now_m now_u s m1,
        get_session m sid now = (Some s, m1) ->
        let message := {| Message.role := role; Message.content := content;
                          Message.timestamp := now_m;
                          Message.metadata := match md with
                                              | Some x => x
                                              | None => ∅
                                              end |} in
        exists (n : nat) m2 s',
          add_message m sid role content md now now_m now_u
            = (Returned true, m2)
          /\ od_get sid (_sessions m2) = Some s'
          /\ Session.messages s'
             = drop (2 * n) (Session.messages s ++ [message])
          /\ Z.of_nat (length (Session.messages s')) <= 2 * history
          /\ forall j : nat, (j < n)%nat ->
               2 * history
               < Z.of_nat (length (drop (2 * j)
                                        (Session.messages s ++ [message])))).
Proof.
  intros Hmh m.
  assert (max_history m = history) as Hc by apply run_max_history.
  assert (history_bounded m) as Hb.
  { apply run_bounded; [done|]. constructor. }
  split.
  - intros sid s Hg. unfold history_bounded in Hb.
    pose proof (od_all_get _ _ _ _ Hb Hg) as Hs. simpl in Hs. lia.
  - intros sid role content md now now_m now_u s m1 Hg message.
    destruct (add_message_live m sid role content md now now_m now_u s m1
                ltac:(lia) Hg)
      as (n & m2 & s' & Hadd & _ & Hget & Hmsgs & Hlen & Hmin).
    exists n, m2, s'. split_and!; [done|done|done|lia|].
    intros j Hj. specialize (Hmin j Hj). fold message in Hmin. lia.
Qed.

Lemma session_history_bounded_witness :
  1 <= 10
  /\ forall sid s,
       od_get sid (_sessions SessionExamples.demo_manager) = Some s ->
       Z.of_nat (length (Session.messages s)) <= 2 * 10.
Proof.
  split; [lia|].
  apply (session_history_bounded_and_trimmed_in_pairs
           1000 10 3600 1 SessionExamples.demo_ops). lia.
Defined.

(** C6: for a live session whose messages are [user:"A", assistant:"B",
    user:"C"] and [context_window = 1], [get_context] with
    [include_current = False] returns exactly "用户: A\n助手: B". *)
Theorem get_context_drops_unanswered_question m sid now s m1 :
  context_window m = 1 ->
  get_session m sid now = (Some s, m1) ->
  map (fun msg => (Message.role msg, Message.content msg)) (Session.messages s)
  = [(utf8 "user", utf8 "A"); (utf8 "assistant", utf8 "B");
     (utf8 "user", utf8 "C")] ->
  fst (get_context m sid false now)
  = utf8 "用户: A" ++ newline ++ utf8 "助手: B".
Proof.
  intros Hcw Hg Hmsgs. unfold get_context. rewrite Hg.
  pose proof (get_session_config m sid now) as [_ Hc].
  rewrite Hg in Hc. simpl in Hc. rewrite Hc, Hcw.
  destruct s as [sid' uid msgs tc tu md]. simpl in *.
  destruct msgs as [|[r1 c1 ts1 md1] [|[r2 c2 ts2 md2] [|[r3 c3 ts3 md3] [|]]]];
    try discriminate.
  simpl in Hmsgs. injection Hmsgs as -> -> -> -> -> ->.
  reflexivity.
Qed.

Lemma get_context_drops_unanswered_question_witness :
  fst (get_context SessionExamples.demo_manager (utf8 "s1") false
                   SessionExamples.t0)
  = utf8 "用户: A" ++ newline ++ utf8 "助手: B".
Proof.
  eapply (get_context_drops_unanswered_question
            SessionExamples.demo_manager (utf8 "s1") SessionExamples.t0).
  - reflexivity.
  - vm_compute. reflexivity.
  - vm_compute. reflexivity.
Defined.

(** C10: for a live session, [get_messages] with [limit = 0] returns the
    whole message list, as with [limit = None]. *)
Theorem get_messages_limit_zero_returns_all m sid now s m1 :
  get_session m sid now = (Some s, m1) ->
  get_messages m sid (Some 0) now
  = (map (fun msg => (Message.role msg, Message.content msg))
         (Session.messages s), m1)
  /\ get_messages m sid (Some 0) now = get_messages m sid None now.
Proof.
  intros Hg. unfold get_messages. rewrite Hg. simpl. done.
Qed.

Lemma get_messages_limit_zero_witness :
  get_messages SessionExamples.demo_manager (utf8 "s1") (Some 0)
               SessionExamples.t0
  = get_messages SessionExamples.demo_manager (utf8 "s1") None
                 SessionExamples.t0.
Proof.
  eapply proj2.
  eapply (get_messages_limit_zero_returns_all
            SessionExamples.demo_manager (utf8 "s1") SessionExamples.t0).
  vm_compute. reflexivity.
Defined.

End session_theorems.

(** With [max_history = 1] the third message pushes out the first pair. *)
Example add_message_trims_oldest_pair :
  map (fun msg => Message.content msg)
      (match od_get (utf8 "s1")
                    (SessionManager._sessions SessionExamples.short_manager) with
       | Some s => Session.messages s
       | None => []
       end)
  = [utf8 "C"].
Proof. vm_compute. reflexivity. Qed.

(** With [max_history = 0] the second [pop(0)] finds the list empty. *)
Example add_message_without_history_raises :
  fst (SessionManager.add_message SessionExamples.no_history_manager
         (utf8 "s1") (utf8 "user") (utf8 "A") None
         SessionExamples.t0 SessionExamples.t0 SessionExamples.t0)
  = Raised IndexError.
Proof. vm_compute. reflexivity. Qed.

(* ===================================================================== *)
(** * Response cache                                                      *)
(* ===================================================================== *)

Lemma StronglySorted_sublist {A} (R : A -> A -> Prop) (l l' : list A) :
  l' `sublist_of` l -> StronglySorted R l -> StronglySorted R l'.
Proof.
  intros Hsub Hs. revert l' Hsub.
  induction Hs as [|a l Hs IH Ha]; intros l' Hsub.
  - apply sublist_nil_r in Hsub as ->. constructor.
  - apply sublist_cons_r in Hsub as [Hsub|(l0 & -> & Hsub)]; [by apply IH|].
    constructor; [by apply IH|].
    rewrite Forall_forall in Ha |- *. intros x Hx. apply Ha.
    by apply (sublist_subseteq _ _ Hsub).
Qed.

Lemma Forall_sublist {A} (P : A -> Prop) (l l' : list A) :
  l' `sublist_of` l -> Forall P l -> Forall P l'.
Proof.
  intros Hsub. rewrite !Forall_forall. intros Hall x Hx.
  apply Hall. by apply (sublist_subseteq _ _ Hsub).
Qed.

Lemma od_get_app_last {K V} `{EqDecision K} (d : odict K V) k v :
  k ∉ od_keys d -> od_get k (d ++ [(k, v)]) = Some v.
Proof.
  intros Hn. rewrite <- (od_set_fresh d k v Hn). apply od_get_set_eq.
Qed.

Lemma od_move_to_end_length {K V} `{EqDecision K} (d : odict K V) k :
  length (od_move_to_end k d) = length d.
Proof.
  unfold od_move_to_end. destruct (od_get k d) as [v|] eqn:E; [|done].
  rewrite length_app. simpl.
  assert (k ∈ od_keys d) as Hin.
  { destruct (decide (k ∈ od_keys d)) as [|Hn]; [done|].
    apply od_get_None in Hn. congruence. }
  pose proof (od_del_length d k Hin). lia.
Qed.

Section cache_facts.
Import CacheManager CacheSpec CacheInv.
Variable lower : pystr -> pystr.

(** The eviction loop under a capacity that is not negative: it returns,
    having removed a prefix, and leaves as many entries as fit. *)
Lemma evict_spec max_size (d : odict pystr CacheEntry) st :
  0 <= max_size ->
  exists pre kept st',
    evict max_size d st = (Returned tt, (kept, st'))
    /\ d = pre ++ kept
    /\ Z.of_nat (length kept) = Z.min (Z.of_nat (length d)) max_size.
Proof.
  intros Hm. revert st. induction d as [|e d IH]; intros st.
  - exists [], [], st. cbn [evict].
    destruct (max_size <? Z.of_nat 0) eqn:E.
    + apply Z.ltb_lt in E. simpl in E. lia.
    + split_and!; [done|done|]. simpl. lia.
  - cbn [evict]. destruct (max_size <? Z.of_nat (length (e :: d))) eqn:E.
    + apply Z.ltb_lt in E.
      destruct (IH (add_evictions 1 st)) as (pre & kept & st' & -> & -> & Hlen).
      exists (e :: pre), kept, st'. split_and!; [done|done|].
      rewrite Hlen. simpl length in *. rewrite length_app in *. lia.
    + apply Z.ltb_ge in E. exists [], (e :: d), st.
      split_and!; [done|done|]. lia.
Qed.

Lemma with_state_cache c d st : _cache (with_state c d st) = d.
Proof. done. Qed.

(** Configuration is never changed. *)
Lemma apply_config c o :
  max_size (apply lower c o) = max_size c /\ ttl (apply lower c o) = ttl c.
Proof.
  destruct o as [sid q now|sid q a md now]; simpl.
  - unfold get. destruct (_generate_key lower sid q) as [key|]; [|done].
    destruct (od_get key (_cache c)) as [entry|]; [|done].
    by destruct (_is_expired c entry now).
  - unfold set. destruct (_generate_key lower sid q) as [key|]; [|done].
    by destruct (evict _ _ _) as [[] []].
Qed.

Lemma older_insert_ne lu key n a b :
  a <> key -> b <> key -> older lu a b -> older (<[key := n]> lu) a b.
Proof.
  intros Ha Hb (ta & tb & H1 & H2 & Hlt). exists ta, tb.
  by rewrite !lookup_insert_ne.
Qed.

Lemma older_NoDup lu l : StronglySorted (older lu) l -> NoDup l.
Proof.
  induction 1 as [|a l Hs IH Ha]; constructor; [|done].
  intros Hin. rewrite Forall_forall in Ha.
  destruct (Ha a Hin) as (ta & tb & H1 & H2 & Hlt). rewrite H1 in H2.
  injection H2 as ->. lia.
Qed.

(** Moving the used key to the end and stamping it with the number of the
    call keeps the order. *)
Lemma lru_touch lu n keys key :
  StronglySorted (older lu) keys ->
  Forall (used_before lu n) keys ->
  StronglySorted (older (<[key := n]> lu))
                 (filter (fun x => x <> key) keys ++ [key])
  /\ Forall (used_before (<[key := n]> lu) (S n))
            (filter (fun x => x <> key) keys ++ [key]).
Proof.
  intros Hs Hu. split.
  - apply StronglySorted_app_2.
    + intros a b Ha Hb. apply list_elem_of_singleton in Hb as ->.
      apply list_elem_of_filter in Ha as [Hne Ha].
      rewrite Forall_forall in Hu. destruct (Hu a Ha) as (t & Ht & Hlt).
      exists t, n. rewrite lookup_insert_ne by done.
      by rewrite lookup_insert_eq.
    + assert (StronglySorted (older lu) (filter (fun x => x <> key) keys)) as Hf.
      { eapply StronglySorted_sublist; [apply sublist_filter|done]. }
      assert (Forall (fun x => x <> key) (filter (fun x => x <> key) keys)) as Hne.
      { apply Forall_forall. by intros x [? _]%list_elem_of_filter. }
      induction Hf as [|a l Hf IH Ha]; [constructor|].
      apply Forall_cons in Hne as [Hane Hne].
      constructor; [by apply IH|].
      rewrite Forall_forall in Ha, Hne |- *. intros x Hx.
      apply older_insert_ne; auto.
    + repeat constructor.
  - apply Forall_app. split.
    + apply Forall_forall. intros a [Hne Ha]%list_elem_of_filter.
      rewrite Forall_forall in Hu. destruct (Hu a Ha) as (t & Ht & Hlt).
      exists t. rewrite lookup_insert_ne by done. split; [done|lia].
    + constructor; [|constructor]. exists n.
      rewrite lookup_insert_eq. split; [done|lia].
Qed.

Lemma used_before_S lu n keys :
  Forall (used_before lu n) keys -> Forall (used_before lu (S n)) keys.
Proof.
  intros Hall. eapply Forall_impl; [exact Hall|].
  intros k (t & Ht & Hlt). exists t. split; [done|lia].
Qed.

(** The keys after the first part of [set]. *)
Lemma store_entry_keys c key q a md now :
  NoDup (od_keys (_cache c)) ->
  od_keys (_cache (store_entry c key q a md now))
  = filter (fun x => x <> key) (od_keys (_cache c)) ++ [key]
  /\ exists e, answer e = a /\ created_at e = now
       /\ exists d1, _cache (store_entry c key q a md now) = d1 ++ [(key, e)]
            /\ (key ∉ od_keys d1).
Proof.
  intros Hnd. unfold store_entry. rewrite with_state_cache.
  set (e := {| query := q; answer := a; created_at := now; hit_count := 0;
               metadata := match md with Some m => m | None => ∅ end |}).
  set (d1 := if od_mem key (_cache c) then od_del key (_cache c) else _cache c).
  assert ((key ∉ od_keys d1)
          /\ od_keys d1 = filter (fun x => x <> key) (od_keys (_cache c)))
    as [Hfresh Hkeys].
  { subst d1. destruct (od_mem key (_cache c)) eqn:E.
    - split; [by apply od_del_not_elem | by apply od_keys_del].
    - assert (key ∉ od_keys (_cache c)) as Hn.
      { intros Hin. apply od_mem_true in Hin. congruence. }
      split; [done|]. symmetry. apply filter_all. intros x Hx ->. done. }
  split.
  - rewrite od_keys_set_fresh by done. by rewrite Hkeys.
  - exists e. split_and!; [done|done|]. exists d1.
    split; [by apply od_set_fresh | done].
Qed.

(** One call keeps the recency order and the size bound. *)
Lemma step_invariant (s : traced) (o : op) :
  0 <= max_size (cache s) ->
  lru_ordered s ->
  Z.of_nat (length (_cache (cache s))) <= max_size (cache s) ->
  lru_ordered (step lower s o)
  /\ Z.of_nat (length (_cache (cache (step lower s o)))) <= max_size (cache s).
Proof.
  intros Hcap [Hs Hu] Hlen.
  pose proof (older_NoDup _ _ Hs) as Hnd.
  unfold lru_ordered, step. cbn [cache calls last_use].
  destruct o as [sid q now|sid q a md now]; cbn [apply used_key].
  - (* get *)
    unfold get. destruct (_generate_key lower sid q) as [key|e].
    2:{ cbn [snd]. split_and!; [done|by apply used_before_S|done]. }
    destruct (od_get key (_cache (cache s))) as [entry|] eqn:Hget.
    2:{ cbn [snd]. rewrite with_state_cache.
        split_and!; [done|by apply used_before_S|done]. }
    destruct (_is_expired (cache s) entry now); cbn [snd];
      rewrite with_state_cache.
    + split_and!.
      * eapply StronglySorted_sublist; [apply od_del_sublist|done].
      * eapply Forall_sublist; [apply od_del_sublist|by apply used_before_S].
      * assert (key ∈ od_keys (_cache (cache s))) as Hin.
        { destruct (decide (key ∈ od_keys (_cache (cache s)))) as [|Hn]; [done|].
          apply od_get_None in Hn. congruence. }
        pose proof (od_del_length _ _ Hin). lia.
    + assert (key ∈ od_keys (_cache (cache s))) as Hin.
      { destruct (decide (key ∈ od_keys (_cache (cache s)))) as [|Hn]; [done|].
        apply od_get_None in Hn. congruence. }
      assert (od_keys (od_move_to_end key (_cache (cache s)))
              = filter (fun x => x <> key) (od_keys (_cache (cache s))) ++ [key])
        as Hmv by by apply od_keys_move_to_end.
      assert (key ∈ od_keys (od_move_to_end key (_cache (cache s)))) as Hin'.
      { rewrite Hmv. apply elem_of_app. right. left. }
      rewrite od_keys_set, decide_True, Hmv by done.
      destruct (lru_touch _ _ _ key Hs Hu) as [Hs' Hu'].
      split_and!; [done|done|].
      rewrite od_set_length_present by done.
      rewrite od_move_to_end_length. done.
  - (* set *)
    unfold set. destruct (_generate_key lower sid q) as [key|e].
    2:{ cbn [snd]. split_and!; [done|by apply used_before_S|done]. }
    destruct (store_entry_keys (cache s) key q a md now Hnd) as [Hkeys _].
    destruct (lru_touch _ _ _ key Hs Hu) as [Hs' Hu'].
    rewrite <- Hkeys in Hs', Hu'.
    destruct (evict_spec (max_size (store_entry (cache s) key q a md now))
                (_cache (store_entry (cache s) key q a md now))
                (_stats (store_entry (cache s) key q a md now)) Hcap)
      as (pre & kept & st' & -> & Hsplit & Hk).
    cbn [snd]. rewrite with_state_cache.
    assert (od_keys kept
            `sublist_of` od_keys (_cache (store_entry (cache s) key q a md now)))
      as Hsub.
    { rewrite Hsplit. unfold od_keys. rewrite map_app.
      apply sublist_inserts_l. done. }
    split_and!.
    + eapply StronglySorted_sublist; done.
    + eapply Forall_sublist; done.
    + change (max_size (store_entry (cache s) key q a md now))
        with (max_size (cache s)) in Hk. lia.
Qed.

Lemma run_invariant (s : traced) (ops : list op) :
  0 <= max_size (cache s) ->
  lru_ordered s ->
  Z.of_nat (length (_cache (cache s))) <= max_size (cache s) ->
  lru_ordered (run lower s ops)
  /\ Z.of_nat (length (_cache (cache (run lower s ops)))) <= max_size (cache s)
  /\ max_size (cache (run lower s ops)) = max_size (cache s)
  /\ ttl (cache (run lower s ops)) = ttl (cache s).
Proof.
  revert s. induction ops as [|o ops IH]; intros s Hcap Hord Hlen; [done|].
  change (run lower s (o :: ops)) with (run lower (step lower s o) ops).
  destruct (step_invariant s o Hcap Hord Hlen) as [Hord' Hlen'].
  destruct (apply_config (cache s) o) as [Hm Ht].
  change (apply lower (cache s) o) with (cache (step lower s o)) in Hm, Ht.
  destruct (IH (step lower s o)) as (H1 & H2 & H3 & H4);
    [by rewrite Hm|done|by rewrite Hm|].
  rewrite Hm in H2, H3. rewrite Ht in H4. done.
Qed.

Lemma start_invariant capacity ttl0 sem :
  lru_ordered (start capacity ttl0 sem).
Proof. split; constructor. Qed.

End cache_facts.

Section cache_theorems.
Import CacheManager CacheSpec CacheInv.
Variable lower : pystr -> pystr.

(** C3: after any sequence of [get] and [set] calls on a cache whose
    [max_size] is not negative, the cache holds at most [max_size] entries;
    and an entry that a [set] evicts was last used (stored by [set] or hit
    by [get]) before every entry that the [set] leaves in the cache. *)
Theorem cache_bounded_and_evicts_least_recently_used
    (capacity ttl0 : Z) (sem : bool) (ops : list op) :
  0 <= capacity ->
  let s := run lower (start capacity ttl0 sem) ops in
  Z.of_nat (length (_cache (cache s))) <= capacity
  /\ forall sid q a md now key,
       _generate_key lower sid q = Returned key ->
       let after := step lower s (OpSet sid q a md now) in
       fst (set lower (cache s) sid q a md now) = Returned key
       /\ forall victim kept,
            victim ∈ od_keys (_cache (store_entry (cache s) key q a md now)) ->
            victim ∉ od_keys (_cache (cache after)) ->
            kept ∈ od_keys (_cache (cache after)) ->
            exists tv tk : nat,
              last_use after !! victim = Some tv
              /\ last_use after !! kept = Some tk
              /\ (tv < tk)%nat.
Proof.
  intros Hcap s.
  destruct (run_invariant lower (start capacity ttl0 sem) ops Hcap
              (start_invariant capacity ttl0 sem) ltac:(simpl; lia))
    as ([Hs Hu] & Hlen & Hm & _).
  fold s in Hs, Hu, Hlen, Hm. simpl in Hlen, Hm.
  split; [done|].
  intros sid q a md now key Hkey after.
  pose proof (older_NoDup _ _ Hs) as Hnd.
  destruct (store_entry_keys (cache s) key q a md now Hnd) as [Hkeys _].
  destruct (lru_touch _ _ _ key Hs Hu) as [Hs' _].
  rewrite <- Hkeys in Hs'.
  destruct (evict_spec (max_size (store_entry (cache s) key q a md now))
              (_cache (store_entry (cache s) key q a md now))
              (_stats (store_entry (cache s) key q a md now))
              ltac:(simpl; lia))
    as (pre & kept & st' & Hev & Hsplit & _).
  subst after. unfold step. cbn [cache last_use apply used_key].
  unfold set. rewrite Hkey, Hev. cbn [fst snd]. rewrite with_state_cache.
  split; [done|].
  intros victim k Hv Hnv Hk.
  rewrite Hsplit in Hv, Hs'. unfold od_keys in Hv, Hs'.
  rewrite map_app in Hv, Hs'.
  apply elem_of_app in Hv as [Hv|Hv]; [|done].
  exact (StronglySorted_app_1_elem_of _ _ _ _ _ Hs' Hv Hk).
Qed.

End cache_theorems.

Lemma cache_bounded_witness :
  0 <= 2
  /\ Z.of_nat (length (CacheManager._cache
                         (CacheSpec.cache
                            (CacheSpec.run ascii_lower
                               (CacheSpec.start 2 30 false)
                               CacheExamples.demo_ops)))) <= 2.
Proof.
  split; [lia|].
  apply (cache_bounded_and_evicts_least_recently_used ascii_lower 2 30 false
           CacheExamples.demo_ops). lia.
Defined.

(** The demonstration of cache_manager.py: the third [set] evicts the
    entry of session 124, which was stored second but not read since. *)
Example demo_evicts_unread_entry :
  map (fun kv => CacheManager.query (snd kv))
      (CacheManager._cache
         (CacheSpec.cache (CacheSpec.run ascii_lower (CacheSpec.start 2 30 false)
                                         CacheExamples.demo_ops)))
  = [utf8 "红烧肉怎么做？"; utf8 "番茄炒蛋怎么做"].
Proof. vm_compute. reflexivity. Qed.

(** With a negative [max_size], [set] empties the cache and [popitem]
    raises. *)
Example set_with_negative_capacity_raises :
  fst (CacheManager.set ascii_lower (CacheManager.__init__ (-1) 30 false)
         (utf8 "123") (utf8 "q") (utf8 "a") None CacheExamples.t0)
  = Raised KeyError.
Proof. vm_compute. reflexivity. Qed.

Section cache_key_theorems.
Import CacheManager CacheSpec CacheInv.
Variable lower : pystr -> pystr.

(** C9, as amended: two questions with the same normal form (they differ
    only in letter case, in surrounding white space or in the length of
    inner runs of white space) have the same key in a session, so that once
    [set] has stored an answer for one of them in a cache with
    [max_size >= 1], a [get] for the other within the time to live is a hit
    that returns this answer. *)
Theorem same_normal_form_same_key_and_hit
    (capacity ttl0 : Z) (sem : bool) (ops : list op)
    (sid q q' a : pystr) (md : option (gmap pystr pyval)) (now now' : float) :
  1 <= capacity ->
  normalize lower q' = normalize lower q ->
  let c := cache (run lower (start capacity ttl0 sem) ops) in
  _generate_key lower sid q' = _generate_key lower sid q
  /\ forall key c1,
       set lower c sid q a md now = (Returned key, c1) ->
       PrimFloat.ltb (float_of_Z ttl0) (PrimFloat.sub now' now) = false ->
       fst (get lower c1 sid q' now') = Returned (Some a).
Proof.
  intros Hcap Hnorm c.
  assert (_generate_key lower sid q' = _generate_key lower sid q) as Hkey.
  { unfold _generate_key. by rewrite Hnorm. }
  split; [done|].
  intros key c1 Hset Hfresh.
  destruct (run_invariant lower (start capacity ttl0 sem) ops
              ltac:(simpl; lia) (start_invariant capacity ttl0 sem)
              ltac:(simpl; lia))
    as ([Hs _] & _ & Hm & Ht).
  fold c in Hs, Hm, Ht. simpl in Hm, Ht.
  pose proof (older_NoDup _ _ Hs) as Hnd.
  unfold set in Hset.
  destruct (_generate_key lower sid q) as [key0|] eqn:Hk; [|done].
  destruct (store_entry_keys c key0 q a md now Hnd)
    as (_ & e & Hans & Hcreated & d1 & Hd2 & Hfresh1).
  destruct (evict_spec (max_size (store_entry c key0 q a md now))
              (_cache (store_entry c key0 q a md now))
              (_stats (store_entry c key0 q a md now))
              ltac:(simpl; lia))
    as (pre & kept & st' & Hev & Hsplit & Hlen).
  rewrite Hev in Hset. injection Hset as -> <-.
  (* the stored entry is the last of the entries that are kept *)
  assert (exists kept0, kept = kept0 ++ [(key, e)] /\ d1 = pre ++ kept0)
    as (kept0 & -> & ->).
  { rewrite Hd2 in Hsplit, Hlen.
    destruct kept as [|x kept] using rev_ind.
    - rewrite length_app in Hlen. simpl in Hlen, Hm. lia.
    - rewrite app_assoc in Hsplit. apply app_inj_tail in Hsplit as [-> ->].
      by exists kept. }
  assert (key ∉ od_keys kept0) as Hfresh0.
  { intros Hin. apply Hfresh1. unfold od_keys in *. rewrite map_app.
    apply elem_of_app. by right. }
  unfold get. rewrite Hkey. cbn [_cache with_state].
  rewrite od_get_app_last by done.
  unfold _is_expired. cbn [CacheManager.ttl with_state store_entry].
  rewrite Ht, Hcreated, Hfresh. cbn [fst]. by rewrite Hans.
Qed.

End cache_key_theorems.

Lemma same_normal_form_witness :
  1 <= 1000
  /\ CacheManager.normalize ascii_lower (utf8 "how to cook")
     = CacheManager.normalize ascii_lower (utf8 "  How   TO cook ")
  /\ CacheManager._generate_key ascii_lower (utf8 "123") (utf8 "how to cook")
     = CacheManager._generate_key ascii_lower (utf8 "123")
                                  (utf8 "  How   TO cook ").
Proof.
  assert (1 <= 1000) as H1 by lia.
  assert (CacheManager.normalize ascii_lower (utf8 "how to cook")
          = CacheManager.normalize ascii_lower (utf8 "  How   TO cook "))
    as H2 by (vm_compute; reflexivity).
  split; [exact H1|]. split; [exact H2|].
  exact (proj1 (same_normal_form_same_key_and_hit ascii_lower 1000 3600 false []
                  (utf8 "123") (utf8 "  How   TO cook ") (utf8 "how to cook")
                  (utf8 "answer") None CacheExamples.t0 CacheExamples.t0
                  H1 H2)).
Defined.

(** Counterexample to the claim that trailing punctuation does not matter
    (C9 as first stated): the question of the demonstration with and
    without its closing question mark has two different keys, and the
    answer stored for the one is not found for the other. *)
Lemma trailing_punctuation_misses :
  CacheManager._generate_key ascii_lower (utf8 "123") (utf8 "红烧肉怎么做")
  <> CacheManager._generate_key ascii_lower (utf8 "123") (utf8 "红烧肉怎么做？")
  /\ fst (CacheManager.get ascii_lower CacheExamples.asked_once
            (utf8 "123") (utf8 "红烧肉怎么做？") CacheExamples.t0)
     = Returned (Some (utf8 "红烧肉做法"))
  /\ fst (CacheManager.get ascii_lower CacheExamples.asked_once
            (utf8 "123") (utf8 "红烧肉怎么做") CacheExamples.t0)
     = Returned None
  /\ CacheManager._generate_key ascii_lower (utf8 "s") (utf8 "how to cook")
     <> CacheManager._generate_key ascii_lower (utf8 "s") (utf8 "how to cook?").
Proof.
  split_and!.
  - vm_compute. discriminate.
  - vm_compute. reflexivity.
  - vm_compute. reflexivity.
  - vm_compute. discriminate.
Qed.

(** The digests of RFC 1321 and of the demonstration's question. *)
Example md5_test_vectors :
  MD5.hexdigest [] = utf8 "d41d8cd98f00b204e9800998ecf8427e"
  /\ MD5.hexdigest (bytes_of_string "a") = utf8 "0cc175b9c0f1b6a831c399e269772661"
  /\ MD5.hexdigest (bytes_of_string "abc")
     = utf8 "900150983cd24fb0d6963f7d28e17f72"
  /\ MD5.hexdigest (bytes_of_string "message digest")
     = utf8 "f96b697d7cb7938d525a2f31aaf161d0"
  /\ MD5.hexdigest (bytes_of_string
       "12345678901234567890123456789012345678901234567890123456789012345678901234567890")
     = utf8 "57edf4a22be3c955ac49da2e2107b67a"
  /\ CacheManager._generate_key ascii_lower (utf8 "123") (utf8 "红烧肉怎么做？")
     = Returned (utf8 "123:eeb0a24b926afa235f6d77eea777ba3c").
Proof. vm_compute. repeat split. Qed.

(* ===================================================================== *)
(** * More on the order of occurrence                                     *)
(* ===================================================================== *)

Section first_before_facts.
Context {A : Type} `{EqDecision A}.
Implicit Types (a b x : A) (l : list A).

Lemma first_before_nil a b : ~ first_before a b [].
Proof. intros (l1 & l2 & Heq & _). by destruct l1. Qed.

Lemma first_before_cons a b x l :
  first_before a b (x :: l)
  <-> (x = a /\ a <> b) \/ (x <> a /\ x <> b /\ first_before a b l).
Proof.
  split.
  - intros ([|y l1] & l2 & Heq & Ha & Hb & Hne); simpl in Heq.
    + injection Heq as -> _. by left.
    + injection Heq as -> ->. right.
      apply not_elem_of_cons in Ha as [Ha1 Ha], Hb as [Hb1 Hb].
      split_and!; [done|done|]. by exists l1, l2.
  - intros [[-> Hne]|(Ha & Hb & l1 & l2 & -> & Ha' & Hb' & Hne)].
    + exists [], l. split_and!; [done|apply not_elem_of_nil..|done].
    + exists (x :: l1), l2.
      split_and!; [done| | |done]; apply not_elem_of_cons; by split.
Qed.

Lemma first_before_total a b l :
  a ∈ l -> b ∈ l -> a <> b -> first_before a b l \/ first_before b a l.
Proof.
  intros Ha Hb Hne. induction l as [|x l IH].
  - by apply elem_of_nil in Ha.
  - rewrite !first_before_cons.
    destruct (decide (x = a)) as [->|Hxa]; [left; by left|].
    destruct (decide (x = b)) as [->|Hxb]; [right; by left|].
    apply elem_of_cons in Ha as [?|Ha]; [done|].
    apply elem_of_cons in Hb as [?|Hb]; [done|].
    destruct (IH Ha Hb); [left|right]; right; by split_and!.
Qed.

Lemma before_nil a b : ~ before a b [].
Proof. intros (l1 & l2 & l3 & Heq). by destruct l1. Qed.

Lemma before_cons a b x l :
  before a b (x :: l) <-> (x = a /\ b ∈ l) \/ before a b l.
Proof.
  split.
  - intros ([|y l1] & l2 & l3 & Heq); simpl in Heq.
    + injection Heq as -> ->. left. split; [done|].
      apply elem_of_app. right. left.
    + injection Heq as -> ->. right. by exists l1, l2, l3.
  - intros [[-> Hb]|Hb].
    + by apply before_cons_head.
    + eapply before_mono; [|exact Hb]. by apply sublist_cons.
Qed.

Lemma before_omap_inv {B} (f : A -> option B) (x y : B) l :
  before x y (omap f l) ->
  exists a b, before a b l /\ f a = Some x /\ f b = Some y.
Proof.
  induction l as [|a l IH]; intros Hb.
  - destruct Hb as (l1 & l2 & l3 & Heq). by destruct l1.
  - change (omap f (a :: l))
      with (match f a with Some z => z :: omap f l | None => omap f l end)
      in Hb.
    assert (forall a' b', before a' b' l -> before a' b' (a :: l)) as Hmono.
    { intros a' b' H0. eapply before_mono; [|exact H0]. by apply sublist_cons. }
    destruct (f a) as [z|] eqn:E.
    + assert ((z = x /\ y ∈ omap f l) \/ before x y (omap f l))
        as [[-> Hy]|Hb'].
      { destruct Hb as ([|w l1] & l2 & l3 & Heq); cbn [app] in Heq.
        - injection Heq as -> Heq. left. split; [done|]. rewrite Heq.
          apply elem_of_app. right. left.
        - injection Heq as -> Heq. right. by exists l1, l2, l3. }
      * apply list_elem_of_omap in Hy as (b & Hb' & Hfb).
        exists a, b. split_and!; [|done|done]. by apply before_cons_head.
      * destruct (IH Hb') as (a' & b' & Hb'' & Ha & Hb3).
        exists a', b'. split_and!; [by apply Hmono|done|done].
    + destruct (IH Hb) as (a' & b' & Hb' & Ha & Hb'').
      exists a', b'. split_and!; [by apply Hmono|done|done].
Qed.

End first_before_facts.

Lemma filter_none {A} (P : A -> Prop) `{forall x, Decision (P x)} (l : list A) :
  (forall x, x ∈ l -> ~ P x) -> filter P l = [].
Proof.
  induction l as [|a l IH]; intros Hall; [done|].
  rewrite filter_cons_False by (apply Hall; left).
  apply IH. intros x Hx. apply Hall. by right.
Qed.

Lemma filter_some {A} (P : A -> Prop) `{forall x, Decision (P x)} (l : list A) x :
  x ∈ l -> P x -> (1 <= length (filter P l))%nat.
Proof.
  intros Hx HP.
  assert (x ∈ filter P l) as Hin by by apply list_elem_of_filter.
  destruct (filter P l); [by apply elem_of_nil in Hin|]. simpl. lia.
Qed.

(* ===================================================================== *)
(** * Parent resolution                                                   *)
(* ===================================================================== *)

Section parent_facts.
Import DataPreparationModule ParentSpec ParentInv.

Lemma counted_Some chunk p :
  counted chunk = Some p <-> p <> [] /\ Document.parent_id chunk = Some p.
Proof.
  unfold counted. destruct (Document.parent_id chunk) as [[|c s]|].
  - split; [done|]. intros [Hne [= <-]]. done.
  - split; [by intros [= <-]|]. by intros [_ [= <-]].
  - split; [done|]. by intros [_ ?].
Qed.

Lemma counted_ids_elem chunks p :
  p ∈ counted_ids chunks
  <-> p <> [] /\ Some p ∈ map Document.parent_id chunks.
Proof.
  unfold counted_ids. rewrite list_elem_of_omap. split.
  - intros (c & Hc & [Hne Hp]%counted_Some). split; [done|].
    apply list_elem_of_fmap. by exists c.
  - intros [Hne (c & Hp & Hc)%list_elem_of_fmap].
    exists c. split; [done|]. by apply counted_Some.
Qed.

Lemma relevance_snoc chunks c p :
  relevance (chunks ++ [c]) p
  = relevance chunks p + (if decide (Document.parent_id c = Some p) then 1 else 0).
Proof.
  unfold relevance. rewrite filter_app, length_app.
  rewrite filter_cons, filter_nil. case_decide; simpl; lia.
Qed.

Lemma relevance_unseen chunks p :
  p <> [] -> p ∉ counted_ids chunks -> relevance chunks p = 0.
Proof.
  intros Hne Hn. unfold relevance.
  rewrite (filter_none (fun c => Document.parent_id c = Some p)); [done|].
  intros c Hc Hp. apply Hn. apply counted_ids_elem. split; [done|].
  apply list_elem_of_fmap. by exists c.
Qed.

Lemma relevance_seen chunks p :
  p ∈ counted_ids chunks -> 1 <= relevance chunks p.
Proof.
  intros [Hne (c & Hp & Hc)%list_elem_of_fmap]%counted_ids_elem.
  unfold relevance.
  pose proof (filter_some (fun c => Document.parent_id c = Some p) chunks c Hc
                (eq_sym Hp)).
  lia.
Qed.

Lemma collect_counted documents rel dm c pid :
  counted c = Some pid ->
  collect documents (rel, dm) c
  = (od_set pid (match od_get pid rel with Some n => n | None => 0 end + 1) rel,
     match dm !! pid with
     | Some _ => dm
     | None => match loaded documents pid with
               | Some doc => <[pid := doc]> dm
               | None => dm
               end
     end).
Proof.
  intros [Hne Hp]%counted_Some. unfold collect, loaded. rewrite Hp.
  destruct pid as [|x pid]; [done|].
  destruct (dm !! (x :: pid)); [done|]. by destruct (find _ documents).
Qed.

Lemma collect_not_counted documents rel dm c :
  counted c = None -> collect documents (rel, dm) c = (rel, dm).
Proof.
  unfold counted, collect. by destruct (Document.parent_id c) as [[|]|].
Qed.

Lemma omap_counted_snoc chunks c :
  counted_ids (chunks ++ [c])
  = counted_ids chunks ++ match counted c with Some p => [p] | None => [] end.
Proof. unfold counted_ids. by rewrite omap_app. Qed.

(** The two tables after the first loop. *)
Lemma collect_tables documents chunks :
  let st := fold_left (collect documents) chunks ([], ∅) in
  od_keys (fst st) = first_seen (counted_ids chunks)
  /\ (forall p, p ∈ od_keys (fst st) ->
        od_get p (fst st) = Some (relevance chunks p))
  /\ (forall p, snd st !! p
                = if decide (p ∈ od_keys (fst st)) then loaded documents p
                  else None).
Proof.
  induction chunks as [|c chunks IH] using rev_ind.
  - cbn [fold_left fst snd]. split_and!; [done| |].
    + intros p Hp. by apply elem_of_nil in Hp.
    + intros p. rewrite lookup_empty.
      destruct (decide _) as [Hin|]; [by apply elem_of_nil in Hin|done].
  - rewrite fold_left_app. cbn [fold_left].
    destruct (fold_left (collect documents) chunks ([], ∅)) as [rel dm].
    cbn [fst snd] in IH. destruct IH as (Hkeys & Hcount & Hmap).
    rewrite omap_counted_snoc. unfold first_seen in *.
    assert (forall p, p ∈ od_keys rel -> p <> []) as Hne.
    { intros p Hp. rewrite Hkeys in Hp.
      apply first_seen_from_elem in Hp as [Hp|Hp]; [by apply elem_of_nil in Hp|].
      by apply (counted_ids_elem chunks p). }
    destruct (counted c) as [pid|] eqn:Hc.
    + (* the chunk is counted for [pid] *)
      rewrite (collect_counted _ _ _ _ _ Hc). cbn [fst snd].
      apply counted_Some in Hc as [Hpid Hp].
      set (n := match od_get pid rel with Some n => n | None => 0 end + 1).
      assert (forall p, p <> pid ->
                (p ∈ od_keys (od_set pid n rel)) <-> p ∈ od_keys rel)
        as Hother.
      { intros p Hpp. rewrite od_keys_set. case_decide; [done|].
        rewrite elem_of_app, list_elem_of_singleton. tauto. }
      assert (pid ∈ od_keys (od_set pid n rel)) as Hin.
      { rewrite od_keys_set. case_decide; [done|].
        apply elem_of_app. right. left. }
      split_and!.
      * rewrite od_keys_set, first_seen_from_snoc. by rewrite Hkeys.
      * intros p Hin'. rewrite relevance_snoc, Hp.
        destruct (decide (pid = p)) as [<-|Hpp].
        -- rewrite od_get_set_eq, decide_True by done. f_equal. subst n.
           destruct (decide (pid ∈ od_keys rel)) as [Hk|Hk].
           ++ by rewrite (Hcount _ Hk).
           ++ rewrite (proj2 (od_get_None rel pid) Hk).
              rewrite relevance_unseen; [done|done|].
              intros Hin''. apply Hk. rewrite Hkeys.
              apply first_seen_from_elem. by right.
        -- rewrite od_get_set_ne by done.
           rewrite decide_False by (intros [= ?]; done).
           rewrite Hcount; [f_equal; lia|]. apply Hother; done.
      * intros p. destruct (decide (p = pid)) as [->|Hpp].
        -- rewrite decide_True by done.
           destruct (dm !! pid) as [d0|] eqn:Hdm.
           ++ rewrite Hdm. rewrite Hmap in Hdm. by case_decide.
           ++ destruct (loaded documents pid) as [doc|] eqn:Hl.
              ** by rewrite lookup_insert_eq.
              ** done.
        -- assert (match dm !! pid with
                   | Some _ => dm
                   | None => match loaded documents pid with
                             | Some doc => <[pid:=doc]> dm
                             | None => dm
                             end
                   end !! p = dm !! p) as ->.
           { destruct (dm !! pid); [done|].
             destruct (loaded documents pid); [|done].
             by rewrite lookup_insert_ne. }
           rewrite Hmap.
           destruct (decide (p ∈ od_keys rel)) as [Hk|Hk].
           ++ rewrite decide_True; [done|]. by apply Hother.
           ++ rewrite decide_False; [done|]. by rewrite Hother.
    + (* the chunk is not counted *)
      rewrite (collect_not_counted _ _ _ _ Hc), app_nil_r. cbn [fst snd].
      split_and!; [done| |done].
      intros p Hin. rewrite relevance_snoc, decide_False.
      * rewrite Hcount by done. f_equal. lia.
      * intros Hp. assert (counted c = Some p) as Hc'.
        { apply counted_Some. split; [by apply Hne|done]. }
        congruence.
Qed.

End parent_facts.

Section parent_theorems.
Import DataPreparationModule ParentSpec ParentInv.

Lemma loaded_Some documents p d :
  loaded documents p = Some d ->
  Document.parent_id d = Some p /\ d ∈ documents.
Proof.
  unfold loaded. intros Hf. apply find_some in Hf as [Hin Hp].
  apply bool_decide_eq_true in Hp. split; [done|]. by apply list_elem_of_In.
Qed.

Lemma loaded_is_Some documents p doc :
  doc ∈ documents -> Document.parent_id doc = Some p ->
  exists d, loaded documents p = Some d.
Proof.
  intros Hin Hp. unfold loaded.
  destruct (find _ documents) as [d|] eqn:E; [by exists d|].
  apply list_elem_of_In in Hin.
  pose proof (find_none _ _ E doc Hin) as Hf.
  apply bool_decide_eq_false in Hf. done.
Qed.

(** First appearance among the counted ids is first appearance among the
    fragments. *)
Lemma appears_first_counted chunks p q :
  p <> [] -> q <> [] ->
  first_before p q (counted_ids chunks) -> appears_first chunks p q.
Proof.
  intros Hp Hq. unfold appears_first, counted_ids.
  induction chunks as [|c chunks IH]; intros Hfb.
  - by apply first_before_nil in Hfb.
  - change (omap counted (c :: chunks))
      with (match counted c with
            | Some z => z :: omap counted chunks
            | None => omap counted chunks
            end) in Hfb.
    cbn [map]. apply first_before_cons.
    destruct (counted c) as [z|] eqn:Hc.
    + apply counted_Some in Hc as [Hz Hc]. rewrite Hc.
      apply first_before_cons in Hfb as [[-> Hne]|(Hzp & Hzq & Hfb)].
      * left. split; [done|]. by intros [= ?].
      * right. split_and!; [by intros [= ?]|by intros [= ?]|by apply IH].
    + right.
      assert (forall r, r <> [] -> Document.parent_id c <> Some r) as Hno.
      { intros r Hr Hpr.
        assert (counted c = Some r) by by apply counted_Some.
        congruence. }
      split_and!; [by apply Hno|by apply Hno|by apply IH].
Qed.

(** C5: [get_parent_documents] returns, without duplicates, the loaded
    parents of the input fragments, ordered by decreasing relevance (the
    number of input fragments of the parent) and, among parents of equal
    relevance, by first appearance among the inputs; fragments whose
    [parent_id] matches no loaded document contribute nothing and do not
    make the function fail.  For [f1(parent=P1), f2(parent=P2),
    f3(parent=P1)] the result is [P1, P2]. *)
Theorem get_parent_documents_ranked (documents child_chunks : list Document.t) :
  let result := get_parent_documents documents child_chunks in
  (forall d, d ∈ result ->
     exists p, p <> [] /\ Document.parent_id d = Some p
               /\ 1 <= relevance child_chunks p
               /\ loaded documents p = Some d)
  /\ (forall p doc,
        p <> [] -> 1 <= relevance child_chunks p ->
        doc ∈ documents -> Document.parent_id doc = Some p ->
        exists d, d ∈ result /\ Document.parent_id d = Some p)
  /\ NoDup (map Document.parent_id result)
  /\ (forall d1 d2 p1 p2,
        before d1 d2 result ->
        Document.parent_id d1 = Some p1 -> Document.parent_id d2 = Some p2 ->
        relevance child_chunks p2 <= relevance child_chunks p1
        /\ (relevance child_chunks p1 = relevance child_chunks p2 ->
            appears_first child_chunks p1 p2))
  /\ get_parent_documents
       [ParentExamples.P1; ParentExamples.P2]
       [ParentExamples.f1; ParentExamples.f2; ParentExamples.f3]
     = [ParentExamples.P1; ParentExamples.P2].
Proof.
  intros result. subst result. unfold get_parent_documents.
  pose proof (collect_tables documents child_chunks) as Htab.
  destruct (fold_left (collect documents) child_chunks ([], ∅)) as [rel dm].
  cbn [fst snd] in Htab. destruct Htab as (Hkeys & Hcount & Hmap).
  set (key := fun x : pystr => match od_get x rel with Some n => n | None => 0 end).
  set (sorted := sorted_reverse key Z.ltb (od_keys rel)).
  assert (sorted ≡ₚ od_keys rel) as Hperm by apply sorted_reverse_perm.
  assert (NoDup (od_keys rel)) as Hnd.
  { rewrite Hkeys. apply first_seen_from_NoDup. constructor. }
  assert (NoDup sorted) as Hnds by by rewrite Hperm.
  assert (forall p, p ∈ sorted <-> p ∈ counted_ids child_chunks) as Hmem.
  { intros p. rewrite Hperm, Hkeys. unfold first_seen.
    rewrite first_seen_from_elem, elem_of_nil. tauto. }
  assert (forall p, p ∈ sorted -> key p = relevance child_chunks p) as Hkey.
  { intros p Hp. unfold key. rewrite Hcount; [done|]. by rewrite <- Hperm. }
  assert (forall p d, p ∈ sorted -> dm !! p = Some d -> loaded documents p = Some d)
    as Hdm.
  { intros p d Hp Hd. rewrite Hmap in Hd.
    rewrite decide_True in Hd; [done|]. by rewrite <- Hperm. }
  assert (forall p1 p2 d1 d2,
             before p1 p2 sorted -> dm !! p1 = Some d1 -> dm !! p2 = Some d2 ->
             relevance child_chunks p2 <= relevance child_chunks p1
             /\ (relevance child_chunks p1 = relevance child_chunks p2 ->
                 appears_first child_chunks p1 p2)) as Horder.
  { intros p1 p2 d1 d2 Hb Hd1 Hd2.
    pose proof (before_elem_l _ _ _ Hb) as Hin1.
    pose proof (before_elem_r _ _ _ Hb) as Hin2.
    pose proof (sorted_reverse_sorted key (od_keys rel)) as Hss.
    fold sorted in Hss.
    destruct Hb as (l1 & l2 & l3 & Heq).
    assert (key p2 <= key p1) as Hle.
    { rewrite Heq in Hss. apply StronglySorted_app_1_r in Hss.
      apply StronglySorted_inv in Hss as [_ Hall].
      rewrite Forall_forall in Hall. apply Hall.
      apply elem_of_app. right. left. }
    rewrite !Hkey in Hle by done. split; [done|].
    intros Htie.
    assert (p1 <> p2) as Hne.
    { eapply before_NoDup_ne; [exact Hnds|]. by exists l1, l2, l3. }
    pose proof (proj1 (Hmem p1) Hin1) as Hc1.
    pose proof (proj1 (Hmem p2) Hin2) as Hc2.
    pose proof (proj1 (counted_ids_elem _ _) Hc1) as [Hp1 _].
    pose proof (proj1 (counted_ids_elem _ _) Hc2) as [Hp2 _].
    destruct (first_before_total p1 p2 _ Hc1 Hc2 Hne) as [Hfb|Hfb].
    - by apply appears_first_counted.
    - exfalso.
      apply first_seen_before in Hfb; [|done].
      rewrite <- Hkeys in Hfb.
      apply (sorted_reverse_stable key Z.ltb) in Hfb.
      + eapply before_NoDup_asym; [exact Hnds| |exact Hfb].
        by exists l1, l2, l3.
      + apply Z.ltb_ge. cbn beta. rewrite !Hkey by done. lia. }
  split_and!.
  - intros d (p & Hp & Hd)%list_elem_of_omap.
    pose proof (Hdm p d Hp Hd) as Hl.
    destruct (loaded_Some _ _ _ Hl) as [Hpid _].
    apply Hmem in Hp as Hc. pose proof (relevance_seen _ _ Hc).
    apply counted_ids_elem in Hc as [Hne _].
    by exists p.
  - intros p doc Hne Hrel Hin Hp.
    destruct (loaded_is_Some _ _ _ Hin Hp) as [d Hl].
    assert (p ∈ counted_ids child_chunks) as Hc.
    { destruct (decide (p ∈ counted_ids child_chunks)) as [|Hn]; [done|].
      rewrite relevance_unseen in Hrel by done. lia. }
    apply Hmem in Hc.
    exists d. split; [|by apply (loaded_Some _ _ _ Hl)].
    apply list_elem_of_omap. exists p. split; [done|].
    rewrite Hmap. rewrite decide_True; [done|]. by rewrite <- Hperm.
  - assert (map Document.parent_id (omap (fun p => dm !! p) sorted)
            = map Some (filter (fun p => is_Some (dm !! p)) sorted)) as ->.
    { assert (forall p, p ∈ sorted -> p ∈ sorted) as Hsub by done.
      revert Hsub. generalize sorted at 1 3 4 as l.
      induction l as [|p l IH]; intros Hsub; [done|].
      change (omap (fun p => dm !! p) (p :: l))
        with (match dm !! p with
              | Some d => d :: omap (fun p => dm !! p) l
              | None => omap (fun p => dm !! p) l
              end).
      rewrite filter_cons.
      assert (forall q, q ∈ l -> q ∈ sorted) as Hsub'.
      { intros q Hq. apply Hsub. by right. }
      destruct (dm !! p) as [d|] eqn:Hd.
      - rewrite decide_True by done. cbn [map]. f_equal; [|by apply IH].
        apply (loaded_Some documents). apply Hdm; [|done]. apply Hsub. left.
      - rewrite decide_False by (by intros [? ?]). by apply IH. }
    apply NoDup_fmap_2; [intros ?? [= ?]; done|]. by apply NoDup_filter.
  - intros d1 d2 p1 p2 Hb Hp1 Hp2.
    apply before_omap_inv in Hb as (q1 & q2 & Hb & Hd1 & Hd2).
    pose proof (Hdm q1 d1 (before_elem_l _ _ _ Hb) Hd1) as Hl1.
    pose proof (Hdm q2 d2 (before_elem_r _ _ _ Hb) Hd2) as Hl2.
    apply loaded_Some in Hl1 as [Hq1 _], Hl2 as [Hq2 _].
    assert (q1 = p1) as -> by congruence.
    assert (q2 = p2) as -> by congruence.
    by eapply Horder.
  - vm_compute. reflexivity.
Qed.

(** Fragments of a parent that was not loaded, or without parent, are
    left out. *)
Example orphans_are_skipped :
  get_parent_documents
    [ParentExamples.P1; ParentExamples.P2]
    [ParentExamples.orphan; ParentExamples.f2; ParentExamples.loose;
     ParentExamples.orphan; ParentExamples.f3]
  = [ParentExamples.P2; ParentExamples.P1].
Proof. vm_compute. reflexivity. Qed.

End parent_theorems.

(* ===================================================================== *)
(** * Hybrid retrieval                                                    *)
(* ===================================================================== *)

(** [<] on floats is irreflexive. *)
Lemma float_ltb_irrefl (x : float) : PrimFloat.ltb x x = false.
Proof.
  rewrite FloatAxioms.ltb_spec. unfold SFltb, SFcompare.
  destruct (Prim2SF x) as [s|s| |s m e]; try (by destruct s); try done.
  destruct s; rewrite Z.compare_refl, Pos.compare_refl; done.
Qed.

(** The sign of a rounded result is the sign that was asked for. *)
Lemma binary_round_aux_positive mx ex lx :
  positive_or_nan (binary_round_aux prec emax false mx ex lx).
Proof.
  unfold binary_round_aux.
  destruct (shr_fexp prec emax mx ex lx) as [mrs' e'].
  destruct (shr_fexp prec emax _ e' loc_Exact) as [mrs'' e''].
  destruct (shr_m mrs''); [done| |done].
  by destruct (_ <=? _).
Qed.

Lemma of_uint63_positive (n : int) : positive_or_nan (Prim2SF (of_uint63 n)).
Proof.
  rewrite FloatAxioms.of_uint63_spec. unfold binary_normalize.
  pose proof (Uint63.to_Z_bounded n) as Hn.
  destruct (Uint63.to_Z n) as [|m|m]; [done| |lia].
  unfold binary_round. destruct (shl_align _ _ _) as [mz ez].
  apply binary_round_aux_positive.
Qed.

Lemma recip_positive (x : float) :
  positive_or_nan (Prim2SF x) -> positive_or_nan (Prim2SF (1 / x)).
Proof.
  intros Hx. rewrite FloatAxioms.div_spec.
  change (Prim2SF 1) with (S754_finite false 4503599627370496 (-52)).
  unfold SF64div, SFdiv.
  destruct (Prim2SF x) as [s|s| |s m e]; simpl in Hx; subst; try done.
  destruct (SFdiv_core_binary _ _ _ _ _ _) as [[mz ez] lz].
  apply binary_round_aux_positive.
Qed.

Lemma zero_add_positive (x : float) :
  positive_or_nan (Prim2SF x) -> (0 + x)%float = x.
Proof.
  intros Hx. apply Prim2SF_inj. rewrite FloatAxioms.add_spec.
  change (Prim2SF 0) with (S754_zero false).
  unfold SF64add, SFadd.
  destruct (Prim2SF x) as [s|s| |s m e]; simpl in Hx; subst; done.
Qed.

(** Adding a reciprocal to the default score [0] gives the reciprocal. *)
Lemma zero_add_recip (z : Z) :
  0 <= z -> (0 + 1 / float_of_Z z)%float = (1 / float_of_Z z)%float.
Proof.
  intros Hz. apply zero_add_positive, recip_positive.
  unfold float_of_Z. destruct (z <? 0) eqn:E; [apply Z.ltb_lt in E; lia|].
  apply of_uint63_positive.
Qed.

Section fusion_facts.
Import RetrievalOptimizationModule FusionSpec FusionInv.
Variable hash : pystr -> Z.

Lemma rrf_score_defined k rank :
  0 <= k -> 0 <= rank ->
  rrf_score k rank = Returned (PrimFloat.div 1%float (float_of_Z (k + rank + 1))).
Proof.
  intros Hk Hr. unfold rrf_score.
  destruct (k + rank + 1 =? 0) eqn:E; [|done]. apply Z.eqb_eq in E. lia.
Qed.

Lemma rrf_terms_app h k rank l1 l2 id :
  rrf_terms hash h k rank (l1 ++ l2) id
  = rrf_terms hash h k rank l1 id
    ++ rrf_terms hash h k (rank + Z.of_nat (length l1)) l2 id.
Proof.
  revert rank. induction l1 as [|d l1 IH]; intros rank.
  - simpl. by rewrite Z.add_0_r.
  - cbn [app rrf_terms length]. rewrite IH, <- app_assoc.
    do 3 f_equal. lia.
Qed.

Lemma rrf_terms_absent h k rank docs id :
  id ∉ ids hash h docs -> rrf_terms hash h k rank docs id = [].
Proof.
  revert rank. induction docs as [|d docs IH]; intros rank Hn; [done|].
  cbn [ids map] in Hn. apply not_elem_of_cons in Hn as [Hne Hn].
  cbn [rrf_terms]. rewrite decide_False by done. by apply IH.
Qed.

Lemma rrf_terms_present h k rank docs id :
  id ∈ ids hash h docs -> rrf_terms hash h k rank docs id <> [].
Proof.
  revert rank. induction docs as [|d docs IH]; intros rank Hin.
  - by apply elem_of_nil in Hin.
  - cbn [rrf_terms]. destruct (decide (hash (page_content h d) = id)); [done|].
    cbn [ids map] in Hin. apply elem_of_cons in Hin as [?|Hin]; [done|].
    simpl. by apply IH.
Qed.

(** A fragment that stands once in the list, at the 1-based rank
    [length l1 + 1], contributes one term. *)
Lemma rrf_terms_once h k l1 d l2 id :
  hash (page_content h d) = id ->
  id ∉ ids hash h l1 -> id ∉ ids hash h l2 ->
  rrf_terms hash h k 0 (l1 ++ d :: l2) id
  = [PrimFloat.div 1%float (float_of_Z (k + (Z.of_nat (length l1) + 1)))].
Proof.
  intros Hd H1 H2. rewrite rrf_terms_app.
  rewrite rrf_terms_absent by done. cbn [app rrf_terms].
  rewrite decide_True by done. rewrite rrf_terms_absent by done.
  simpl. do 3 f_equal. lia.
Qed.

Lemma get_score_set id s sc id' :
  get_score id' (od_set id s sc) = if decide (id = id') then s else get_score id' sc.
Proof.
  unfold get_score. case_decide as E.
  - subst. by rewrite od_get_set_eq.
  - by rewrite od_get_set_ne.
Qed.

(** One scoring loop: it returns, and what the tables hold after it. *)
Lemma score_loop_spec h k rank docs sc ob :
  0 <= k -> 0 <= rank ->
  exists sc' ob',
    score_loop hash h k rank docs (sc, ob) = Returned (sc', ob')
    /\ od_keys sc' = first_seen_from (od_keys sc) (ids hash h docs)
    /\ (forall id, get_score id sc'
                   = fold_left PrimFloat.add (rrf_terms hash h k rank docs id)
                               (get_score id sc))
    /\ (forall id l, ob' !! id = Some l ->
          ob !! id = Some l \/ (l ∈ docs /\ hash (page_content h l) = id))
    /\ (forall id, is_Some (ob !! id) \/ id ∈ ids hash h docs ->
          is_Some (ob' !! id)).
Proof.
  intros Hk. revert rank sc ob.
  induction docs as [|d docs IH]; intros rank sc ob Hr.
  - exists sc, ob. split_and!; try done.
    + intros id l Hl. by left.
    + intros id [?|Hin]; [done|]. by apply elem_of_nil in Hin.
  - cbn [score_loop]. rewrite rrf_score_defined by done.
    set (id0 := hash (page_content h d)).
    set (s := PrimFloat.div 1 (float_of_Z (k + rank + 1))).
    destruct (IH (rank + 1)
                 (od_set id0 (PrimFloat.add (get_score id0 sc) s) sc)
                 (<[id0 := d]> ob) ltac:(lia))
      as (sc' & ob' & Hloop & Hkeys & Hscore & Hobj & Hdom).
    exists sc', ob'. split_and!.
    + done.
    + rewrite Hkeys, od_keys_set. done.
    + intros id. rewrite Hscore, get_score_set. cbn [rrf_terms]. fold id0.
      destruct (decide (id0 = id)) as [->|Hne]; [|done].
      by rewrite fold_left_app.
    + intros id l Hl. apply Hobj in Hl as [Hl|[Hin Hh]].
      * destruct (decide (id0 = id)) as [<-|Hne].
        -- rewrite lookup_insert_eq in Hl. injection Hl as <-.
           right. split; [left|done].
        -- rewrite lookup_insert_ne in Hl by done. by left.
      * right. split; [by right|done].
    + intros id Hid. apply Hdom.
      destruct (decide (id0 = id)) as [<-|Hne].
      * left. rewrite lookup_insert_eq. by eexists.
      * rewrite lookup_insert_ne by done.
        destruct Hid as [?|Hin]; [by left|]. right.
        cbn [ids map] in Hin. apply elem_of_cons in Hin as [?|?]; [|done].
        by subst.
Qed.

(** Both loops, with [k = 60] as [hybrid_search] calls them. *)
Lemma doc_tables_spec h vs bs :
  exists sc ob,
    doc_tables hash h vs bs 60 = Returned (sc, ob)
    /\ od_keys sc = first_seen (ids hash h vs ++ ids hash h bs)
    /\ (forall id, get_score id sc
                   = fsum (rrf_terms hash h 60 0 vs id
                           ++ rrf_terms hash h 60 0 bs id))
    /\ (forall id l, ob !! id = Some l ->
          l ∈ vs ++ bs /\ hash (page_content h l) = id)
    /\ (forall id, id ∈ od_keys sc -> is_Some (ob !! id)).
Proof.
  unfold doc_tables.
  destruct (score_loop_spec h 60 0 vs [] ∅ ltac:(lia) ltac:(lia))
    as (sc1 & ob1 & -> & Hk1 & Hs1 & Ho1 & Hd1).
  destruct (score_loop_spec h 60 0 bs sc1 ob1 ltac:(lia) ltac:(lia))
    as (sc & ob & -> & Hk & Hs & Ho & Hd).
  exists sc, ob. split_and!.
  - done.
  - rewrite Hk, Hk1. unfold first_seen. by rewrite first_seen_from_app.
  - intros id. rewrite Hs, Hs1. unfold fsum. by rewrite fold_left_app.
  - intros id l Hl. apply Ho in Hl as [Hl|[Hin Hh]].
    + apply Ho1 in Hl as [Hl|[Hin Hh]]; [by rewrite lookup_empty in Hl|].
      split; [|done]. apply elem_of_app. by left.
    + split; [|done]. apply elem_of_app. by right.
  - intros id Hin. apply Hd. rewrite Hk in Hin.
    apply first_seen_from_elem in Hin as [Hin|Hin]; [|by right].
    left. apply Hd1. rewrite Hk1 in Hin.
    apply first_seen_from_elem in Hin as [Hin|Hin]; [|by right].
    by apply elem_of_nil in Hin.
Qed.

Lemma doc_tables_keys_NoDup h vs bs sc ob :
  doc_tables hash h vs bs 60 = Returned (sc, ob) -> NoDup (od_keys sc).
Proof.
  intros Ht. destruct (doc_tables_spec h vs bs) as (sc' & ob' & Ht' & Hk & _).
  rewrite Ht in Ht'. injection Ht' as <- <-. rewrite Hk.
  apply first_seen_from_NoDup. constructor.
Qed.

(** The tables depend on the store through the texts only. *)
Lemma score_loop_ext h h' k rank docs st :
  (forall l, page_content h' l = page_content h l) ->
  score_loop hash h' k rank docs st = score_loop hash h k rank docs st.
Proof.
  intros Hpc. revert rank st. induction docs as [|d docs IH]; intros rank [sc ob].
  - done.
  - cbn [score_loop]. rewrite Hpc. destruct (rrf_score k rank); [|done].
    apply IH.
Qed.

Lemma doc_tables_ext h h' vs bs k :
  (forall l, page_content h' l = page_content h l) ->
  doc_tables hash h' vs bs k = doc_tables hash h vs bs k.
Proof.
  intros Hpc. unfold doc_tables. rewrite (score_loop_ext h h') by done.
  destruct (score_loop hash h k 0 vs ([], ∅)); [|done].
  by apply score_loop_ext.
Qed.

End fusion_facts.

Section store_facts.
Import RetrievalOptimizationModule FusionSpec FusionInv.

Lemma only_score_changed_refl h : only_score_changed h h.
Proof. intros l. by destruct (h !! l). Qed.

Lemma only_score_changed_trans h1 h2 h3 :
  only_score_changed h1 h2 -> only_score_changed h2 h3 ->
  only_score_changed h1 h3.
Proof.
  intros H12 H23 l. specialize (H12 l). specialize (H23 l).
  destruct (h1 !! l), (h2 !! l), (h3 !! l); try done.
  destruct H12 as [Hc1 Hm1], H23 as [Hc2 Hm2]. split; [congruence|].
  intros key Hkey. rewrite Hm2, Hm1; done.
Qed.

Lemma set_metadata_only_score l v h :
  only_score_changed h (set_metadata l (utf8 "rrf_score") v h).
Proof.
  intros l'. unfold set_metadata.
  destruct (decide (l = l')) as [<-|Hne].
  - rewrite lookup_alter_eq. destruct (h !! l) as [d|]; simpl; [|done].
    split; [done|]. intros key Hkey. by rewrite lookup_insert_ne.
  - rewrite lookup_alter_ne by done. by destruct (h !! l').
Qed.

Lemma only_score_changed_content h h' l :
  only_score_changed h h' -> page_content h' l = page_content h l.
Proof.
  intros Hc. specialize (Hc l). unfold page_content.
  destruct (h !! l), (h' !! l); try done. by destruct Hc.
Qed.

Lemma only_score_changed_live h h' l :
  only_score_changed h h' -> is_Some (h !! l) -> is_Some (h' !! l).
Proof.
  intros Hc [d Hd]. specialize (Hc l). rewrite Hd in Hc.
  destruct (h' !! l); [by eexists|done].
Qed.

Lemma rrf_score_of_set l v h :
  is_Some (h !! l) ->
  rrf_score_of (set_metadata l (utf8 "rrf_score") v h) l = Some v.
Proof.
  intros [d Hd]. unfold rrf_score_of, set_metadata.
  rewrite lookup_alter_eq, Hd. simpl. by rewrite lookup_insert_eq.
Qed.

Lemma rrf_score_of_set_ne l l' v h :
  l <> l' ->
  rrf_score_of (set_metadata l (utf8 "rrf_score") v h) l' = rrf_score_of h l'.
Proof.
  intros Hne. unfold rrf_score_of, set_metadata. by rewrite lookup_alter_ne.
Qed.

Lemma emit_Some ob acc h id s l :
  ob !! id = Some l ->
  emit ob (acc, h) (id, s)
  = (acc ++ [l], set_metadata l (utf8 "rrf_score") (VFloat s) h).
Proof. intros Hl. unfold emit. by rewrite Hl. Qed.

Lemma emit_None ob acc h id s :
  ob !! id = None -> emit ob (acc, h) (id, s) = (acc, h).
Proof. intros Hl. unfold emit. by rewrite Hl. Qed.

(** The last loop of [_rrf_rerank]. *)
Lemma emit_fold ob items acc h :
  let r := fold_left (emit ob) items (acc, h) in
  fst r = acc ++ omap (fun it => ob !! fst it) items
  /\ only_score_changed h (snd r)
  /\ (forall l, is_Some (h !! l) ->
        (forall id s id' s', (id, s) ∈ items -> (id', s') ∈ items ->
                             ob !! id = Some l -> ob !! id' = Some l ->
                             s = s') ->
        forall id s, (id, s) ∈ items -> ob !! id = Some l ->
                     rrf_score_of (snd r) l = Some (VFloat s)).
Proof.
  revert acc h. induction items as [|[id0 s0] items IH]; intros acc h.
  - cbn [fold_left fst snd omap]. split_and!.
    + by rewrite app_nil_r.
    + apply only_score_changed_refl.
    + intros l _ _ id s Hin. by apply elem_of_nil in Hin.
  - cbn [fold_left].
    change (omap (fun it => ob !! fst it) ((id0, s0) :: items))
      with (match ob !! id0 with
            | Some l => l :: omap (fun it => ob !! fst it) items
            | None => omap (fun it : Z * float => ob !! fst it) items
            end).
    destruct (ob !! id0) as [l0|] eqn:Hob.
    + rewrite (emit_Some _ _ _ _ _ _ Hob).
      destruct (IH (acc ++ [l0])
                   (set_metadata l0 (utf8 "rrf_score") (VFloat s0) h))
        as (Hfst & Hfr & Hsc).
      split_and!.
      * rewrite Hfst. by rewrite <- app_assoc.
      * eapply only_score_changed_trans; [apply set_metadata_only_score|done].
      * intros l Hlive Huniq id s Hin Hl.
        assert (is_Some (set_metadata l0 (utf8 "rrf_score") (VFloat s0) h !! l))
          as Hlive'.
        { eapply only_score_changed_live; [apply set_metadata_only_score|done]. }
        apply elem_of_cons in Hin as [[= -> ->]|Hin'].
        2:{ apply (Hsc l Hlive') with (id := id); [|done|done].
            intros i1 t1 i2 t2 H1 H2. apply Huniq; by right. }
        -- assert (l0 = l) as -> by congruence.
           (* no later item writes to [l] *)
           assert (forall items' h0,
                     (forall i t, (i, t) ∈ items' -> ob !! i = Some l -> t = s0) ->
                     rrf_score_of h0 l = Some (VFloat s0) ->
                     rrf_score_of (snd (fold_left (emit ob) items' (acc ++ [l], h0)))
                                  l = Some (VFloat s0)) as Hkeep.
          { clear. intros items'. generalize (acc ++ [l]) as acc'.
            induction items' as [|[i t] items' IH']; intros acc' h0 Hall H0;
              [done|].
            cbn [fold_left].
            destruct (ob !! i) as [li|] eqn:Hi.
            - rewrite (emit_Some _ _ _ _ _ _ Hi). apply IH'.
              + intros i' t' Hin. apply Hall. by right.
              + destruct (decide (li = l)) as [->|Hne].
                * rewrite (Hall i t); [|left|done].
                  apply rrf_score_of_set. unfold rrf_score_of in H0.
                  destruct (h0 !! l); [by eexists|done].
                * by rewrite rrf_score_of_set_ne.
            - rewrite (emit_None _ _ _ _ _ Hi).
              apply IH'; [|done]. intros i' t' Hin. apply Hall. by right. }
           apply Hkeep.
           ++ intros i t Hit Hi. symmetry.
              apply (Huniq id0 s0 i t); [left|by right|done|done].
           ++ by apply rrf_score_of_set.
    + rewrite (emit_None _ _ _ _ _ Hob).
      destruct (IH acc h) as (Hfst & Hfr & Hsc).
      split_and!; [done|done|].
      intros l Hlive Huniq id s Hin Hl.
      apply elem_of_cons in Hin as [[= -> ->]|Hin]; [congruence|].
      apply (Hsc l Hlive) with (id := id); [|done|done].
      intros i1 t1 i2 t2 H1 H2. apply Huniq; by right.
Qed.

End store_facts.

Lemma od_elem_functional {K V} `{EqDecision K} (d : odict K V) k v v' :
  NoDup (od_keys d) -> (k, v) ∈ d -> (k, v') ∈ d -> v = v'.
Proof.
  induction d as [|[k0 v0] d IH]; intros Hnd H1 H2.
  - by apply elem_of_nil in H1.
  - simpl in Hnd. apply NoDup_cons in Hnd as [Hn Hnd].
    apply elem_of_cons in H1 as [H1|H1]; apply elem_of_cons in H2 as [H2|H2].
    + congruence.
    + injection H1 as -> ->. exfalso. apply Hn.
      apply list_elem_of_fmap. by exists (k0, v').
    + injection H2 as -> ->. exfalso. apply Hn.
      apply list_elem_of_fmap. by exists (k0, v).
    + auto.
Qed.

Lemma od_elem_get {K V} `{EqDecision K} (d : odict K V) k v :
  NoDup (od_keys d) -> (k, v) ∈ d -> od_get k d = Some v.
Proof.
  intros Hnd Hin.
  assert (k ∈ od_keys d) as Hk.
  { apply list_elem_of_fmap. by exists (k, v). }
  destruct (od_get_is_Some d k Hk) as [v' Hg].
  rewrite Hg. f_equal.
  apply (od_elem_functional d k v' v Hnd); [|done].
  by apply od_get_Some_elem.
Qed.

Section fusion_theorems.
Import RetrievalOptimizationModule FusionSpec FusionInv.
Variable hash : pystr -> Z.

(** What [_rrf_rerank] returns and leaves in the store. *)
Lemma rrf_rerank_spec h vs bs :
  exists sc ob out h',
    doc_tables hash h vs bs 60 = Returned (sc, ob)
    /\ _rrf_rerank hash h vs bs 60 = (Returned out, h')
    /\ out = omap (fun it => ob !! fst it) (sorted_reverse snd PrimFloat.ltb sc)
    /\ only_score_changed h h'
    /\ (forall id s l, od_get id sc = Some s -> ob !! id = Some l ->
          is_Some (h !! l) -> rrf_score_of h' l = Some (VFloat s))
    /\ (forall l, l ∈ out -> l ∈ vs ++ bs).
Proof.
  destruct (doc_tables_spec hash h vs bs) as (sc & ob & Ht & Hk & Hs & Ho & Hd).
  pose proof (doc_tables_keys_NoDup hash h vs bs sc ob Ht) as Hnd.
  pose proof (emit_fold ob (sorted_reverse snd PrimFloat.ltb sc) [] h) as Hem.
  unfold _rrf_rerank. rewrite Ht.
  destruct (fold_left (emit ob) (sorted_reverse snd PrimFloat.ltb sc) ([], h))
    as [out h'].
  cbn [fst snd] in Hem. destruct Hem as (Hout & Hfr & Hsc).
  cbn [app] in Hout.
  exists sc, ob, out, h'.
  split_and!; [reflexivity|reflexivity|exact Hout|exact Hfr| |].
  - intros id s l Hg Hl Hlive.
    apply (Hsc l Hlive) with (id := id); [| |done].
    + intros i1 t1 i2 t2 H1 H2 Hl1 Hl2.
      rewrite sorted_reverse_perm in H1, H2.
      apply Ho in Hl1 as [_ Hh1], Hl2 as [_ Hh2].
      assert (i1 = i2) as <- by congruence.
      exact (od_elem_functional sc i1 t1 t2 Hnd H1 H2).
    + rewrite sorted_reverse_perm. by apply od_get_Some_elem.
  - intros l Hl. rewrite Hout in Hl.
    apply list_elem_of_omap in Hl as ([id s] & _ & Hl).
    by apply Ho in Hl as [Hl _].
Qed.

Lemma fuse_spec h vs bs top_k :
  (vs = [] /\ bs = [] /\ fuse hash h vs bs top_k = (Returned [], h))
  \/ exists out h',
       _rrf_rerank hash h vs bs 60 = (Returned out, h')
       /\ fuse hash h vs bs top_k = (Returned (slice_to top_k out), h').
Proof.
  unfold fuse.
  destruct (is_nil vs && is_nil bs) eqn:E.
  - left. apply andb_true_iff in E as [E1 E2].
    by destruct vs, bs.
  - right. destruct (rrf_rerank_spec h vs bs)
      as (sc & ob & out & h' & _ & -> & _). by exists out, h'.
Qed.

Lemma slice_to_sublist {A} (n : Z) (l : list A) : slice_to n l `sublist_of` l.
Proof. unfold slice_to. destruct (n <? 0); apply sublist_take. Qed.

(** The cases in which [hybrid_search] returns. *)
Lemma hybrid_search_returns self h q top_k out h' :
  hybrid_search hash self h q top_k = (Returned out, h') ->
  (out = [] /\ h' = h)
  \/ exists vs bs, retrieved self q vs bs
                   /\ fuse hash h vs bs top_k = (Returned out, h').
Proof.
  unfold hybrid_search, retrieved.
  destruct (similarity_search self q 5) as [vs|e] eqn:Ev.
  2:{ destruct (is_Exception e); [|done]. intros [= <- <-]. by left. }
  destruct (get_relevant_documents self q) as [bs|e] eqn:Eb.
  { intros Hf. right. exists vs, bs. split; [|done]. split; [done|by left]. }
  destruct e; try done.
  - destruct (_get_relevant_documents self q) as [bs|e] eqn:Ep; [|done].
    intros Hf. right. exists vs, bs. split; [|done].
    split; [done|]. right. by split.
  - intros [= <- <-]. by left.
Qed.

(** C2, as amended: the fused score of a content hash is the float sum,
    accumulated from 0 over the vector list and then over the lexical
    list, of [1.0 / (60 + r)] for every 1-based rank [r] at which a
    fragment with that content hash stands; it is the score stored on the
    returned object.  Hence a hash that stands once in each list, at the
    ranks [r1] and [r2], scores [1/(60 + r1) + 1/(60 + r2)], and a hash
    that stands once in one list only scores that list's term. *)
Theorem fused_score_sums_reciprocal_ranks h vs bs :
  exists sc ob out h',
    doc_tables hash h vs bs 60 = Returned (sc, ob)
    /\ _rrf_rerank hash h vs bs 60 = (Returned out, h')
    /\ (forall id, id ∈ od_keys sc <-> id ∈ ids hash h vs \/ id ∈ ids hash h bs)
    /\ (forall id s,
          od_get id sc = Some s ->
          s = fsum (rrf_terms hash h 60 0 vs id ++ rrf_terms hash h 60 0 bs id))
    /\ (forall id s l,
          od_get id sc = Some s -> ob !! id = Some l -> is_Some (h !! l) ->
          rrf_score_of h' l = Some (VFloat s))
    /\ (forall v1 d1 v2 b1 d2 b2 id r1 r2,
          vs = v1 ++ d1 :: v2 -> bs = b1 ++ d2 :: b2 ->
          r1 = Z.of_nat (length v1) + 1 -> r2 = Z.of_nat (length b1) + 1 ->
          hash (page_content h d1) = id -> hash (page_content h d2) = id ->
          id ∉ ids hash h v1 -> id ∉ ids hash h v2 ->
          id ∉ ids hash h b1 -> id ∉ ids hash h b2 ->
          od_get id sc
          = Some (PrimFloat.add (reciprocal 60 r1) (reciprocal 60 r2)))
    /\ (forall v1 d1 v2 id r1,
          vs = v1 ++ d1 :: v2 -> r1 = Z.of_nat (length v1) + 1 ->
          hash (page_content h d1) = id ->
          id ∉ ids hash h v1 -> id ∉ ids hash h v2 -> id ∉ ids hash h bs ->
          od_get id sc = Some (reciprocal 60 r1))
    /\ (forall b1 d2 b2 id r2,
          bs = b1 ++ d2 :: b2 -> r2 = Z.of_nat (length b1) + 1 ->
          hash (page_content h d2) = id ->
          id ∉ ids hash h vs -> id ∉ ids hash h b1 -> id ∉ ids hash h b2 ->
          od_get id sc = Some (reciprocal 60 r2)).
Proof.
  destruct (rrf_rerank_spec h vs bs)
    as (sc & ob & out & h' & Ht & Hr & _ & _ & Hstored & _).
  destruct (doc_tables_spec hash h vs bs) as (sc0 & ob0 & Ht0 & Hk & Hs & _).
  rewrite Ht in Ht0. injection Ht0 as <- <-.
  assert (forall id, id ∈ od_keys sc <-> id ∈ ids hash h vs \/ id ∈ ids hash h bs)
    as Hmem.
  { intros id. rewrite Hk. unfold first_seen.
    rewrite first_seen_from_elem, elem_of_nil, elem_of_app. tauto. }
  assert (forall id s, od_get id sc = Some s ->
            s = fsum (rrf_terms hash h 60 0 vs id ++ rrf_terms hash h 60 0 bs id))
    as Hsum.
  { intros id s Hg. rewrite <- Hs. unfold get_score. by rewrite Hg. }
  assert (forall id, id ∈ ids hash h vs \/ id ∈ ids hash h bs ->
            od_get id sc
            = Some (fsum (rrf_terms hash h 60 0 vs id
                          ++ rrf_terms hash h 60 0 bs id))) as Hget.
  { intros id Hin. apply Hmem in Hin.
    destruct (od_get_is_Some sc id Hin) as [s Hg]. rewrite Hg.
    f_equal. by apply Hsum. }
  assert (forall r : nat,
            (0 + reciprocal 60 (Z.of_nat r + 1))%float
            = reciprocal 60 (Z.of_nat r + 1)) as Hzero.
  { intros r. apply zero_add_recip. lia. }
  exists sc, ob, out, h'. split_and!; [done|done|done|done|done| | |].
  - intros v1 d1 v2 b1 d2 b2 id r1 r2 -> -> -> -> Hd1 Hd2 Hv1 Hv2 Hb1 Hb2.
    rewrite Hget.
    2:{ left. unfold ids. rewrite map_app. apply elem_of_app. right.
        cbn [map]. rewrite Hd1. left. }
    rewrite !rrf_terms_once by done. unfold fsum. cbn [app fold_left].
    fold (reciprocal 60 (Z.of_nat (length v1) + 1)).
    fold (reciprocal 60 (Z.of_nat (length b1) + 1)).
    by rewrite Hzero.
  - intros v1 d1 v2 id r1 -> -> Hd1 Hv1 Hv2 Hb.
    rewrite Hget.
    2:{ left. unfold ids. rewrite map_app. apply elem_of_app. right.
        cbn [map]. rewrite Hd1. left. }
    rewrite rrf_terms_once by done. rewrite rrf_terms_absent by done.
    unfold fsum. cbn [app fold_left].
    fold (reciprocal 60 (Z.of_nat (length v1) + 1)). by rewrite Hzero.
  - intros b1 d2 b2 id r2 -> -> Hd2 Hv Hb1 Hb2.
    rewrite Hget.
    2:{ right. unfold ids. rewrite map_app. apply elem_of_app. right.
        cbn [map]. rewrite Hd2. left. }
    rewrite (rrf_terms_absent hash h 60 0 vs) by done.
    rewrite rrf_terms_once by done.
    unfold fsum. cbn [app fold_left].
    fold (reciprocal 60 (Z.of_nat (length b1) + 1)). by rewrite Hzero.
Qed.

(** C7, as amended: when [hybrid_search] returns, the documents it
    returns are references to objects that the engines returned for this
    query (no copy is made); in the store no object was created or
    removed and nothing changed except the metadata entry [rrf_score],
    which is set on every returned object. *)
Theorem hybrid_search_scores_engine_objects_in_place self h q top_k out h' :
  hybrid_search hash self h q top_k = (Returned out, h') ->
  only_score_changed h h'
  /\ (forall l, l ∈ out ->
        (exists vs bs, retrieved self q vs bs /\ l ∈ vs ++ bs)
        /\ (is_Some (h !! l) ->
            exists s, rrf_score_of h' l = Some (VFloat s))).
Proof.
  intros [[-> ->]|(vs & bs & Hret & Hf)]%hybrid_search_returns.
  - split; [apply only_score_changed_refl|].
    intros l Hl. by apply elem_of_nil in Hl.
  - destruct (fuse_spec h vs bs top_k)
      as [(-> & -> & Hf')|(out0 & h0 & Hr & Hf')];
      rewrite Hf' in Hf; injection Hf as <- <-.
    + split; [apply only_score_changed_refl|].
      intros l Hl. by apply elem_of_nil in Hl.
    + destruct (rrf_rerank_spec h vs bs)
        as (sc & ob & out1 & h1 & Ht & Hr1 & Hout & Hfr & Hstored & Hin).
      rewrite Hr in Hr1. injection Hr1 as <- <-.
      split; [done|]. intros l Hl.
      apply (sublist_subseteq _ _ (slice_to_sublist top_k out0)) in Hl.
      split; [exists vs, bs; by split; [|apply Hin]|].
      intros Hlive. rewrite Hout in Hl.
      apply list_elem_of_omap in Hl as ([id s] & Hit & Hl). cbn [fst] in Hl.
      exists s. apply (Hstored id s l); [|done|done].
      rewrite sorted_reverse_perm in Hit.
      apply od_elem_get; [|done].
      by eapply doc_tables_keys_NoDup.
Qed.

(** A call that raises leaves the store as it was. *)
Lemma hybrid_search_raises self h q top_k e h' :
  hybrid_search hash self h q top_k = (Raised e, h') ->
  h' = h
  /\ ((similarity_search self q 5 = Raised e /\ is_Exception e = false)
      \/ (exists vs, similarity_search self q 5 = Returned vs
            /\ ((get_relevant_documents self q = Raised e
                 /\ e <> AttributeError /\ e <> TypeError)
                \/ (get_relevant_documents self q = Raised AttributeError
                    /\ _get_relevant_documents self q = Raised e)))).
Proof.
  unfold hybrid_search.
  destruct (similarity_search self q 5) as [vs|e0] eqn:Ev.
  2:{ destruct (is_Exception e0) eqn:Ex; [done|]. intros [= <- <-].
      split; [done|]. by left. }
  assert (forall bs, fuse hash h vs bs top_k <> (Raised e, h')) as Hfuse.
  { intros bs Hf.
    destruct (fuse_spec h vs bs top_k) as [(_ & _ & Hf')|(o & h0 & _ & Hf')];
      rewrite Hf' in Hf; done. }
  destruct (get_relevant_documents self q) as [bs|e0] eqn:Eb.
  { intros Hf. by apply Hfuse in Hf. }
  destruct e0; try (intros [= <- <-]; split; [done|]; right; exists vs;
                    split; [done|]; left; by split_and!); try done.
  destruct (_get_relevant_documents self q) as [bs|e0] eqn:Ep.
  { intros Hf. by apply Hfuse in Hf. }
  intros [= <- <-]. split; [done|]. right. exists vs. split; [done|].
  right. by split.
Qed.

End fusion_theorems.

(** Cutting a duplicate-free list short keeps the order of the elements
    that remain. *)
Lemma before_take {A} (a b : A) (l : list A) (n : nat) :
  NoDup l -> before a b l -> b ∈ take n l -> before a b (take n l).
Proof.
  intros Hnd (l1 & l2 & l3 & ->) Hin.
  assert (l1 ++ a :: l2 ++ b :: l3 = (l1 ++ a :: l2) ++ b :: l3) as Heq
    by (by rewrite <- app_assoc).
  rewrite Heq in Hnd, Hin |- *. clear Heq.
  remember (l1 ++ a :: l2) as p eqn:Hp.
  apply NoDup_app in Hnd as (_ & Hdis & Hnd3).
  assert (b ∉ p) as Hb.
  { intros Hbp. apply (Hdis b Hbp). left. }
  destruct (decide (n <= length p)%nat) as [Hle|Hgt].
  - rewrite take_app_le in Hin by done.
    exfalso. apply Hb. by apply (sublist_subseteq _ _ (sublist_take p n)).
  - rewrite take_app_ge by lia.
    destruct (n - length p)%nat as [|m] eqn:E; [lia|]. cbn [take].
    subst p. exists l1, l2, (take m l3). by rewrite <- app_assoc.
Qed.

Lemma NoDup_omap_inj {A B} (f : A -> option B) (l : list A) :
  NoDup l ->
  (forall x y z, x ∈ l -> y ∈ l -> f x = Some z -> f y = Some z -> x = y) ->
  NoDup (omap f l).
Proof.
  induction 1 as [|x l Hx Hnd IH]; intros Hinj; [constructor|].
  change (omap f (x :: l))
    with (match f x with Some z => z :: omap f l | None => omap f l end).
  assert (NoDup (omap f l)) as Hrec.
  { apply IH. intros x' y z Hx' Hy. apply Hinj; by right. }
  destruct (f x) as [z|] eqn:E; [|done].
  constructor; [|done].
  intros (y & Hy & Hfy)%list_elem_of_omap.
  assert (x = y) as -> by (apply (Hinj x y z); [left|by right|done|done]).
  done.
Qed.

Lemma slice_to_take {A} (n : Z) (l : list A) : exists m, slice_to n l = take m l.
Proof. unfold slice_to. destruct (n <? 0); by eexists. Qed.

Section fusion_order_theorems.
Import RetrievalOptimizationModule FusionSpec FusionInv.
Variable hash : pystr -> Z.

(** The list that [fuse] returns depends on the store through the texts
    only. *)
Lemma fuse_result_ext h h' vs bs top_k :
  (forall l, page_content h' l = page_content h l) ->
  fst (fuse hash h' vs bs top_k) = fst (fuse hash h vs bs top_k).
Proof.
  intros Hpc.
  destruct (fuse_spec hash h vs bs top_k)
    as [(-> & -> & Hf)|(out & h1 & Hr & Hf)].
  - rewrite Hf. by cbn.
  - destruct (fuse_spec hash h' vs bs top_k)
      as [(-> & -> & Hf')|(out' & h1' & Hr' & Hf')].
    + rewrite Hf'. by cbn.
    + rewrite Hf, Hf'. cbn [fst]. do 2 f_equal.
      destruct (rrf_rerank_spec hash h vs bs)
        as (sc & ob & o & h2 & Ht & Hr2 & -> & _).
      destruct (rrf_rerank_spec hash h' vs bs)
        as (sc' & ob' & o' & h2' & Ht' & Hr2' & -> & _).
      rewrite (doc_tables_ext hash h h') in Ht' by done.
      rewrite Ht in Ht'. injection Ht' as <- <-.
      rewrite Hr in Hr2. rewrite Hr' in Hr2'.
      injection Hr2 as -> _. injection Hr2' as -> _. done.
Qed.

Lemma fuse_only_score_changed h vs bs top_k :
  only_score_changed h (snd (fuse hash h vs bs top_k)).
Proof.
  destruct (fuse_spec hash h vs bs top_k)
    as [(-> & -> & Hf)|(out & h1 & Hr & Hf)]; rewrite Hf; cbn [snd].
  - apply only_score_changed_refl.
  - destruct (rrf_rerank_spec hash h vs bs)
      as (sc & ob & o & h2 & _ & Hr2 & _ & Hfr & _).
    rewrite Hr in Hr2. by injection Hr2 as _ ->.
Qed.

(** No object is returned twice. *)
Lemma rrf_rerank_NoDup h vs bs out h' :
  _rrf_rerank hash h vs bs 60 = (Returned out, h') -> NoDup out.
Proof.
  intros Hr.
  destruct (rrf_rerank_spec hash h vs bs)
    as (sc & ob & out0 & h0 & Ht & Hr0 & Hout & _).
  rewrite Hr in Hr0. injection Hr0 as <- <-. rewrite Hout.
  destruct (doc_tables_spec hash h vs bs) as (sc1 & ob1 & Ht1 & _ & _ & Ho & _).
  rewrite Ht in Ht1. injection Ht1 as <- <-.
  pose proof (doc_tables_keys_NoDup hash h vs bs sc ob Ht) as Hnd.
  apply NoDup_omap_inj.
  - rewrite sorted_reverse_perm. by apply NoDup_fmap_1 in Hnd.
  - intros [a sa] [b sb] l Ha Hb Hla Hlb. cbn [fst] in Hla, Hlb.
    rewrite sorted_reverse_perm in Ha, Hb.
    apply Ho in Hla as [_ Hha], Hlb as [_ Hhb].
    assert (a = b) as <- by congruence.
    f_equal. exact (od_elem_functional sc a sa sb Hnd Ha Hb).
Qed.

Lemma hybrid_search_retrieved self h q top_k vs bs :
  retrieved self q vs bs ->
  hybrid_search hash self h q top_k = fuse hash h vs bs top_k.
Proof.
  intros [Hv [Hb|[Hb Hp]]]; unfold hybrid_search; rewrite Hv, Hb; [done|].
  by rewrite Hp.
Qed.

(** Of two content hashes with equal scores, the document of the one met
    first stands first in the fused list. *)
Lemma rrf_rerank_tie_order h vs bs sc ob out h' a b sa sb la lb :
  doc_tables hash h vs bs 60 = Returned (sc, ob) ->
  _rrf_rerank hash h vs bs 60 = (Returned out, h') ->
  od_get a sc = Some sa -> od_get b sc = Some sb -> sa = sb ->
  first_before a b (ids hash h vs ++ ids hash h bs) ->
  ob !! a = Some la -> ob !! b = Some lb ->
  before la lb out.
Proof.
  intros Ht Hr Ha Hb Heq Hfb Hla Hlb.
  destruct (rrf_rerank_spec hash h vs bs)
    as (sc0 & ob0 & out0 & h0 & Ht0 & Hr0 & Hout & _).
  rewrite Ht in Ht0. injection Ht0 as <- <-.
  rewrite Hr in Hr0. injection Hr0 as <- <-.
  destruct (doc_tables_spec hash h vs bs) as (sc1 & ob1 & Ht1 & Hk & _).
  rewrite Ht in Ht1. injection Ht1 as <- <-.
  pose proof (doc_tables_keys_NoDup hash h vs bs sc ob Ht) as Hnd.
  assert (b ∈ od_keys sc) as Hbk.
  { apply od_get_Some_elem in Hb. apply list_elem_of_fmap. by exists (b, sb). }
  assert (before a b (od_keys sc)) as Hbefore.
  { rewrite Hk. apply first_seen_before; [done|].
    rewrite Hk in Hbk. unfold first_seen in Hbk.
    apply first_seen_from_elem in Hbk as [Hbk|Hbk]; [|done].
    by apply elem_of_nil in Hbk. }
  pose proof (before_od_keys sc a b sa sb Hnd Hbefore Ha Hb) as Hitems.
  apply (sorted_reverse_stable snd PrimFloat.ltb) in Hitems.
  2:{ cbn [snd]. rewrite Heq. apply float_ltb_irrefl. }
  rewrite Hout.
  by apply (before_omap (fun it : Z * float => ob !! fst it)
                        (a, sa) (b, sb) la lb).
Qed.

(** C8: a second run of [hybrid_search] on the same query, on the store
    as the first run left it, returns the same list in the same order;
    of two content hashes with equal fused scores the one that is met
    first, scanning the vector list and then the lexical list, has its
    document first in the list that [_rrf_rerank] returns; and so it is in
    the list that [hybrid_search] returns, the first [top_k] items of the
    former, whenever the document of the second is among them. *)
Theorem fusion_order_is_deterministic_and_stable :
  (forall self h q top_k,
     fst (hybrid_search hash self
            (snd (hybrid_search hash self h q top_k)) q top_k)
     = fst (hybrid_search hash self h q top_k))
  /\ (forall h vs bs sc ob out h' a b sa sb la lb,
        doc_tables hash h vs bs 60 = Returned (sc, ob) ->
        _rrf_rerank hash h vs bs 60 = (Returned out, h') ->
        od_get a sc = Some sa -> od_get b sc = Some sb -> sa = sb ->
        first_before a b (ids hash h vs ++ ids hash h bs) ->
        ob !! a = Some la -> ob !! b = Some lb ->
        before la lb out)
  /\ (forall self h q top_k vs bs sc ob res h' a b sa sb la lb,
        retrieved self q vs bs ->
        doc_tables hash h vs bs 60 = Returned (sc, ob) ->
        hybrid_search hash self h q top_k = (Returned res, h') ->
        od_get a sc = Some sa -> od_get b sc = Some sb -> sa = sb ->
        first_before a b (ids hash h vs ++ ids hash h bs) ->
        ob !! a = Some la -> ob !! b = Some lb ->
        lb ∈ res ->
        before la lb res).
Proof.
  split_and!.
  - intros self h q top_k. unfold hybrid_search.
    destruct (similarity_search self q 5) as [vs|e].
    2:{ by destruct (is_Exception e). }
    assert (forall bs,
              fst (fuse hash (snd (fuse hash h vs bs top_k)) vs bs top_k)
              = fst (fuse hash h vs bs top_k)) as Hfuse.
    { intros bs. apply fuse_result_ext. intros l.
      apply only_score_changed_content, fuse_only_score_changed. }
    destruct (get_relevant_documents self q) as [bs|e]; [by apply Hfuse|].
    destruct e; try done.
    destruct (_get_relevant_documents self q) as [bs|e]; [by apply Hfuse|done].
  - intros h vs bs sc ob out h'. apply rrf_rerank_tie_order.
  - intros self h q top_k vs bs sc ob res h' a b sa sb la lb
      Hret Ht Hs Ha Hb Heq Hfb Hla Hlb Hin.
    rewrite (hybrid_search_retrieved self h q top_k vs bs Hret) in Hs.
    destruct (fuse_spec hash h vs bs top_k)
      as [(_ & _ & Hf)|(out & h1 & Hr & Hf)]; rewrite Hf in Hs.
    + injection Hs as <- _. by apply elem_of_nil in Hin.
    + injection Hs as <- _.
      destruct (slice_to_take top_k out) as [m Hm]. rewrite Hm in Hin |- *.
      apply before_take; [by eapply rrf_rerank_NoDup| |done].
      exact (rrf_rerank_tie_order h vs bs sc ob out h1 a b sa sb la lb
               Ht Hr Ha Hb Heq Hfb Hla Hlb).
Qed.

(** C1, as amended: if the vector engine raises an exception,
    [hybrid_search] returns the empty list, whatever the lexical engine
    would return; if the vector engine returns and the public entry point
    of the lexical engine raises [TypeError], it returns the empty list as
    well, and if that entry point raises [AttributeError], the list of the
    private entry point is fused instead.  The fusion itself does not
    fail, and [hybrid_search] raises no error of its own: an error that
    reaches the caller was raised by one of the engines, and the store is
    then unchanged. *)
Theorem hybrid_search_engine_failures self h q top_k :
  (forall e,
     similarity_search self q 5 = Raised e -> is_Exception e = true ->
     hybrid_search hash self h q top_k = (Returned [], h))
  /\ (forall vs,
        similarity_search self q 5 = Returned vs ->
        get_relevant_documents self q = Raised TypeError ->
        hybrid_search hash self h q top_k = (Returned [], h))
  /\ (forall vs bs,
        similarity_search self q 5 = Returned vs ->
        get_relevant_documents self q = Raised AttributeError ->
        _get_relevant_documents self q = Returned bs ->
        hybrid_search hash self h q top_k = fuse hash h vs bs top_k)
  /\ (forall vs bs,
        similarity_search self q 5 = Returned vs ->
        get_relevant_documents self q = Returned bs ->
        hybrid_search hash self h q top_k = fuse hash h vs bs top_k)
  /\ (forall vs bs, exists out h',
        fuse hash h vs bs top_k = (Returned out, h'))
  /\ (forall e h',
        hybrid_search hash self h q top_k = (Raised e, h') ->
        h' = h
        /\ (similarity_search self q 5 = Raised e
            \/ get_relevant_documents self q = Raised e
            \/ _get_relevant_documents self q = Raised e)).
Proof.
  split_and!.
  - intros e Hv He. unfold hybrid_search. by rewrite Hv, He.
  - intros vs Hv Hb. unfold hybrid_search. by rewrite Hv, Hb.
  - intros vs bs Hv Hb Hp. unfold hybrid_search. by rewrite Hv, Hb, Hp.
  - intros vs bs Hv Hb. unfold hybrid_search. by rewrite Hv, Hb.
  - intros vs bs.
    destruct (fuse_spec hash h vs bs top_k)
      as [(_ & _ & Hf)|(out & h' & _ & Hf)]; rewrite Hf; by eexists _, _.
  - intros e h' Hr.
    apply hybrid_search_raises in Hr
      as [-> [[Hv _]|(vs & Hv & [(Hb & _)|(_ & Hp)])]];
      (split; [done|]); tauto.
Qed.

End fusion_order_theorems.

Section fusion_examples.
Import RetrievalOptimizationModule FusionSpec FusionInv FusionExamples.

(** Counterexample to the claim that a failing engine leaves the result
    of the other (C1 as first stated): the vector engine fails and the
    lexical engine returns the object 2; the fused list of that result
    alone would be [2], but [hybrid_search] returns the empty list.  When
    both engines fail it returns the empty list too, and raises
    nothing. *)
Lemma vector_failure_empties_the_result :
  hybrid_search text_hash
    (engines (Raised OtherException) (Returned [2%positive]) (Returned []))
    objects query 5
  = (Returned [], objects)
  /\ fst (fuse text_hash objects [] [2%positive] 5) = Returned [2%positive]
  /\ hybrid_search text_hash
       (engines (Raised OtherException) (Raised TypeError) (Returned []))
       objects query 5
     = (Returned [], objects).
Proof. split_and!; vm_compute; reflexivity. Qed.

(** Counterexample to the score law for every pair of lists (C2 as first
    stated): the objects 2 and 3 have the same text; the vector engine
    returns [2, 3] and the lexical engine [2].  The text of object 2
    stands at rank 1 of both lists, but its fused score is
    (1/61 + 1/62) + 1/61, not 1/61 + 1/61. *)
Lemma repeated_text_adds_a_term :
  page_content objects 3%positive = page_content objects 2%positive
  /\ rrf_score_of
       (snd (hybrid_search text_hash
               (engines (Returned [2%positive; 3%positive])
                        (Returned [2%positive]) (Returned []))
               objects query 5))
       2%positive
     = Some (VFloat (PrimFloat.add (PrimFloat.add (term 1) (term 2)) (term 1)))
  /\ PrimFloat.eqb
       (PrimFloat.add (PrimFloat.add (term 1) (term 2)) (term 1))
       (PrimFloat.add (term 1) (term 1))
     = false.
Proof. split_and!; vm_compute; reflexivity. Qed.

(** Counterexample to the claim that the store's objects are left
    unchanged (C7 as first stated): object 1 has no [rrf_score] before the
    call; the call returns the reference 1 that the engines handed out,
    and the object in the store then carries the score. *)
Lemma hybrid_search_writes_to_the_store :
  rrf_score_of objects 1%positive = None
  /\ fst (hybrid_search text_hash
            (engines (Returned [1%positive]) (Returned []) (Returned []))
            objects query 5)
     = Returned [1%positive]
  /\ rrf_score_of
       (snd (hybrid_search text_hash
               (engines (Returned [1%positive]) (Returned []) (Returned []))
               objects query 5))
       1%positive
     = Some (VFloat (term 1)).
Proof. split_and!; vm_compute; reflexivity. Qed.

Lemma hybrid_search_scores_in_place_witness :
  only_score_changed objects
    (snd (hybrid_search text_hash
            (engines (Returned [1%positive]) (Returned []) (Returned []))
            objects query 5)).
Proof.
  eapply proj1.
  eapply (hybrid_search_scores_engine_objects_in_place text_hash
            (engines (Returned [1%positive]) (Returned []) (Returned []))
            objects query 5).
  vm_compute. reflexivity.
Defined.

(** The two objects have the same fused score; object 1 is first in the
    vector list and comes first in the result. *)
Lemma fusion_tie_witness :
  before 1%positive 2%positive [1%positive; 2%positive].
Proof.
  eapply (proj2 (proj2 (fusion_order_is_deterministic_and_stable text_hash))
            (engines (Returned [1%positive; 2%positive])
                     (Returned [2%positive; 1%positive]) (Returned []))
            objects query 5 [1%positive; 2%positive] [2%positive; 1%positive]
            _ _ _ _ (text_hash (utf8 "## 操作")) (text_hash (utf8 "## 附加内容"))).
  - split; [reflexivity|left; reflexivity].
  - vm_compute. reflexivity.
  - vm_compute. reflexivity.
  - vm_compute. reflexivity.
  - vm_compute. reflexivity.
  - reflexivity.
  - exists [], (ids text_hash objects [2%positive]
                ++ ids text_hash objects [2%positive; 1%positive]).
    split_and!.
    + vm_compute. reflexivity.
    + apply not_elem_of_nil.
    + apply not_elem_of_nil.
    + vm_compute. discriminate.
  - vm_compute. reflexivity.
  - vm_compute. reflexivity.
  - apply elem_of_cons. right. apply elem_of_cons. by left.
Defined.

End fusion_examples.

(* ===================================================================== *)
(** * More on insertion-ordered dictionaries                              *)
(* ===================================================================== *)

Section odict_more.
Context {K V : Type} `{EqDecision K}.
Implicit Types (d : odict K V) (k : K) (v : V).

Lemma od_get_elem d k v : NoDup (od_keys d) -> (k, v) ∈ d -> od_get k d = Some v.
Proof.
  induction d as [|[k0 v0] d IH]; intros Hnd Hin.
  - by apply elem_of_nil in Hin.
  - simpl in Hnd. apply NoDup_cons in Hnd as [Hn Hnd]. simpl.
    apply elem_of_cons in Hin as [[= -> ->]|Hin].
    + by rewrite decide_True.
    + rewrite decide_False; [by apply IH|].
      intros ->. apply Hn. apply list_elem_of_fmap. by exists (k0, v).
Qed.

Lemma od_get_del_eq d k : NoDup (od_keys d) -> od_get k (od_del k d) = None.
Proof. intros Hnd. apply od_get_None. by apply od_del_not_elem. Qed.

Lemma od_del_filter d k :
  NoDup (od_keys d) -> od_del k d = filter (fun kv => fst kv <> k) d.
Proof.
  induction d as [|[k0 v0] d IH]; simpl; [done|].
  intros Hnd. apply NoDup_cons in Hnd as [Hn Hnd].
  destruct (decide (k = k0)) as [->|Hne].
  - rewrite filter_cons_False by (simpl; intros Hx; by apply Hx).
    symmetry. apply filter_all. intros [k1 v1] Hx. simpl. intros ->.
    apply Hn. apply list_elem_of_fmap. by exists (k0, v1).
  - rewrite filter_cons_True by (simpl; congruence). f_equal. auto.
Qed.

Lemma od_get_move_to_end d k k' :
  NoDup (od_keys d) -> od_get k' (od_move_to_end k d) = od_get k' d.
Proof.
  intros Hnd. unfold od_move_to_end.
  destruct (od_get k d) as [v|] eqn:E; [|done].
  destruct (decide (k' = k)) as [->|Hne].
  - rewrite od_get_app_last by (by apply od_del_not_elem). done.
  - rewrite <- (od_set_fresh (od_del k d) k v) by (by apply od_del_not_elem).
    rewrite od_get_set_ne by done. by apply od_get_del_ne.
Qed.

Lemma od_move_to_end_NoDup d k :
  NoDup (od_keys d) -> NoDup (od_keys (od_move_to_end k d)).
Proof.
  intros Hnd. unfold od_move_to_end.
  destruct (od_get k d) as [v|] eqn:E; [|done].
  rewrite <- (od_set_fresh (od_del k d) k v) by (by apply od_del_not_elem).
  by apply od_set_NoDup, od_del_NoDup.
Qed.

(** Deleting a list of keys one by one leaves the entries of the other
    keys, in their order. *)
Lemma od_del_all d (ks : list K) :
  NoDup (od_keys d) ->
  fold_left (fun d k => od_del k d) ks d = filter (fun kv => fst kv ∉ ks) d.
Proof.
  revert d. induction ks as [|k ks IH]; intros d Hnd; simpl.
  - symmetry. apply filter_all. intros x _. apply not_elem_of_nil.
  - rewrite IH by (by apply od_del_NoDup). rewrite od_del_filter by done.
    rewrite list_filter_filter. apply list_filter_iff.
    intros [k1 v1]. simpl. rewrite not_elem_of_cons. tauto.
Qed.

Lemma filter_keys_sublist (P : K * V -> Prop) `{forall x, Decision (P x)} d :
  od_keys (filter P d) `sublist_of` od_keys d.
Proof. unfold od_keys. apply (fmap_sublist fst), sublist_filter. Qed.

Lemma od_get_filter (P : K * V -> Prop) `{forall x, Decision (P x)} d k v :
  NoDup (od_keys d) ->
  od_get k (filter P d) = Some v <-> od_get k d = Some v /\ P (k, v).
Proof.
  intros Hnd. split.
  - intros Hg. apply od_get_Some_elem in Hg.
    apply list_elem_of_filter in Hg as [HP Hin]. split; [|done].
    by apply od_get_elem.
  - intros [Hg HP]. apply od_get_elem.
    + exact (sublist_NoDup _ _ Hnd (filter_keys_sublist P d)).
    + apply list_elem_of_filter. split; [done|]. by apply od_get_Some_elem.
Qed.

End odict_more.

(* ===================================================================== *)
(** * Response cache: every call                                          *)
(* ===================================================================== *)

Lemma filter_length_split {A} (P : A -> Prop) `{forall x, Decision (P x)}
    (l : list A) :
  (length (filter P l) + length (filter (fun x => ~ P x) l) = length l)%nat.
Proof.
  induction l as [|x l IH]; [done|].
  destruct (decide (P x)).
  - rewrite filter_cons_True by done.
    rewrite (filter_cons_False (fun x => ~ P x)) by tauto. simpl. lia.
  - rewrite filter_cons_False by done.
    rewrite (filter_cons_True (fun x => ~ P x)) by done. simpl. lia.
Qed.

Lemma filter_ext_elem {A} (P Q : A -> Prop) `{forall x, Decision (P x)}
    `{forall x, Decision (Q x)} (l : list A) :
  (forall x, x ∈ l -> P x <-> Q x) -> filter P l = filter Q l.
Proof.
  induction l as [|a l IH]; intros Hext; [done|].
  assert (filter P l = filter Q l) as Hrec.
  { apply IH. intros x Hx. apply Hext. by right. }
  destruct (decide (P a)) as [HP|HP].
  - rewrite !filter_cons_True; [by rewrite Hrec| |done].
    apply Hext; [left|done].
  - rewrite !filter_cons_False; [done| |done].
    intros HQ. apply HP. apply Hext; [left|done].
Qed.

Lemma od_set_last {K V} `{EqDecision K} (d : odict K V) k v v' :
  k ∉ od_keys d -> od_set k v' (d ++ [(k, v)]) = d ++ [(k, v')].
Proof.
  induction d as [|[k0 v0] d IH]; simpl; intros Hn.
  - by rewrite decide_True.
  - apply not_elem_of_cons in Hn as [Hne Hn].
    rewrite decide_False by done. f_equal. auto.
Qed.

Lemma od_del_last {K V} `{EqDecision K} (d : odict K V) k v :
  k ∉ od_keys d -> od_del k (d ++ [(k, v)]) = d.
Proof.
  induction d as [|[k0 v0] d IH]; simpl; intros Hn.
  - by rewrite decide_True.
  - apply not_elem_of_cons in Hn as [Hne Hn].
    rewrite decide_False by done. f_equal. auto.
Qed.

Section cache_calls_facts.
Import CacheManager CacheCalls.
Variable lower : pystr -> pystr.

(** The eviction loop, whatever the capacity: it removes entries from the
    front and counts each one. *)
Lemma evict_counts max_size (d : odict pystr CacheEntry) st r d' st' :
  evict max_size d st = (r, (d', st')) ->
  (exists pre, d = pre ++ d')
  /\ hits st' = hits st /\ misses st' = misses st /\ sets st' = sets st
  /\ evictions st'
     = evictions st + (Z.of_nat (length d) - Z.of_nat (length d')).
Proof.
  revert st. induction d as [|e d IH]; intros st; cbn [evict].
  - destruct (max_size <? Z.of_nat 0); intros [= <- <- <-];
      (split; [by exists []|]); simpl; split_and!; try done; lia.
  - destruct (max_size <? Z.of_nat (length (e :: d))).
    + intros Hev. destruct (IH _ Hev) as ([pre ->] & H1 & H2 & H3 & H4).
      split; [by exists (e :: pre)|].
      rewrite H1, H2, H3, H4. simpl evictions. simpl hits. simpl misses.
      simpl sets. split_and!; try done.
      rewrite !length_cons, !length_app. lia.
    + intros [= <- <- <-]. split; [by exists []|].
      split_and!; try done. lia.
Qed.

(** The dictionary after the first part of [set]: the new entry stands
    last, after the entries of the other keys. *)
Lemma store_entry_cache c key q a md now :
  _cache (store_entry c key q a md now)
  = od_set key {| query := q; answer := a; created_at := now; hit_count := 0;
                  metadata := match md with Some m => m | None => ∅ end |}
           (od_del key (_cache c)).
Proof.
  unfold store_entry. rewrite with_state_cache.
  destruct (od_mem key (_cache c)) eqn:E; [done|].
  rewrite od_del_absent; [done|].
  intros Hin. apply od_mem_true in Hin. congruence.
Qed.

Lemma cleanup_expired_cache c now :
  NoDup (od_keys (_cache c)) ->
  _cache (snd (cleanup_expired c now))
  = filter (fun kv => _is_expired c (snd kv) now <> true) (_cache c).
Proof.
  intros Hnd. unfold cleanup_expired. cbn [snd]. rewrite with_state_cache.
  rewrite od_del_all by done. apply filter_ext_elem. intros [k e] Hin. simpl.
  split.
  - intros Hn He. apply Hn. apply list_elem_of_fmap. exists (k, e).
    split; [done|]. by apply list_elem_of_filter.
  - intros He ([k' e'] & Hk & [Hx Hin']%list_elem_of_filter)%list_elem_of_fmap.
    simpl in Hk, Hx. subst k'.
    by rewrite (od_elem_functional (_cache c) k e e' Hnd Hin Hin') in He.
Qed.

Lemma cleanup_expired_count c now :
  fst (cleanup_expired c now)
  = Z.of_nat (length (_cache c))
    - Z.of_nat (length (filter (fun kv => _is_expired c (snd kv) now <> true)
                               (_cache c))).
Proof.
  unfold cleanup_expired. cbn [fst]. rewrite length_map.
  pose proof (filter_length_split
                (fun kv : pystr * CacheEntry => _is_expired c (snd kv) now = true)
                (_cache c)) as Hsplit.
  lia.
Qed.

(** No call leaves two entries under one key. *)
Lemma apply_NoDup c o :
  NoDup (od_keys (_cache c)) -> NoDup (od_keys (_cache (apply lower c o))).
Proof.
  intros Hnd. destruct o as [sid q now|sid q a md now|sid q| |now]; cbn [apply].
  - unfold get. destruct (_generate_key lower sid q) as [key|]; [|done].
    destruct (od_get key (_cache c)) as [entry|]; [|done].
    destruct (_is_expired c entry now); cbn [snd]; rewrite with_state_cache.
    + by apply od_del_NoDup.
    + by apply od_set_NoDup, od_move_to_end_NoDup.
  - unfold set. destruct (_generate_key lower sid q) as [key|]; [|done].
    destruct (evict _ _ _) as [r [d st]] eqn:Hev.
    apply evict_counts in Hev as ([pre Hpre] & _).
    assert (NoDup (od_keys d)) as Hd.
    { rewrite store_entry_cache in Hpre.
      assert (NoDup (od_keys (pre ++ d))) as Hall.
      { rewrite <- Hpre. by apply od_set_NoDup, od_del_NoDup. }
      unfold od_keys in Hall. rewrite map_app in Hall.
      by apply NoDup_app in Hall as (_ & _ & ?). }
    by destruct r.
  - unfold invalidate. destruct (_generate_key lower sid q) as [key|]; [|done].
    destruct (od_mem key (_cache c)); [|done]. cbn [snd].
    rewrite with_state_cache. by apply od_del_NoDup.
  - simpl. constructor.
  - rewrite cleanup_expired_cache by done.
    exact (sublist_NoDup _ _ Hnd (filter_keys_sublist _ _)).
Qed.

Lemma apply_settings c o :
  max_size (apply lower c o) = max_size c /\ ttl (apply lower c o) = ttl c.
Proof.
  destruct o as [sid q now|sid q a md now|sid q| |now]; cbn [apply].
  - unfold get. destruct (_generate_key lower sid q) as [key|]; [|done].
    destruct (od_get key (_cache c)) as [entry|]; [|done].
    by destruct (_is_expired c entry now).
  - unfold set. destruct (_generate_key lower sid q) as [key|]; [|done].
    by destruct (evict _ _ _) as [[] []].
  - unfold invalidate. destruct (_generate_key lower sid q) as [key|]; [|done].
    by destruct (od_mem key (_cache c)).
  - done.
  - done.
Qed.

Lemma run_snoc c calls o :
  run lower c (calls ++ [o]) = apply lower (run lower c calls) o.
Proof. unfold run. by rewrite fold_left_app. Qed.

(** What holds of every cache that calls have made of a new one. *)
Lemma run_well_formed capacity ttl0 sem calls :
  let c := run lower (__init__ capacity ttl0 sem) calls in
  NoDup (od_keys (_cache c)) /\ max_size c = capacity /\ ttl c = ttl0.
Proof.
  induction calls as [|o calls IH] using rev_ind.
  - simpl. split_and!; [constructor|done|done].
  - rewrite run_snoc. destruct IH as (Hnd & Hm & Ht).
    destruct (apply_settings (run lower (__init__ capacity ttl0 sem) calls) o)
      as [Hm' Ht'].
    simpl. split_and!; [by apply apply_NoDup|congruence|congruence].
Qed.

Lemma od_del_length_le {K V} `{EqDecision K} (d : odict K V) k :
  (length (od_del k d) <= length d)%nat.
Proof.
  destruct (decide (k ∈ od_keys d)) as [Hin|Hn].
  - pose proof (od_del_length d k Hin). lia.
  - by rewrite od_del_absent.
Qed.

Lemma od_get_Some_key {K V} `{EqDecision K} (d : odict K V) k v :
  od_get k d = Some v -> k ∈ od_keys d.
Proof.
  intros Hg. destruct (decide (k ∈ od_keys d)) as [|Hn]; [done|].
  apply od_get_None in Hn. congruence.
Qed.

(** What one call adds to the counters. *)
Lemma apply_stats c o :
  NoDup (od_keys (_cache c)) ->
  let c' := apply lower c o in
  hits (_stats c') + misses (_stats c')
  = hits (_stats c) + misses (_stats c) + (if is_lookup lower o then 1 else 0)
  /\ sets (_stats c') = sets (_stats c) + (if is_store lower o then 1 else 0)
  /\ hits (_stats c) <= hits (_stats c')
  /\ misses (_stats c) <= misses (_stats c')
  /\ evictions (_stats c) <= evictions (_stats c')
  /\ Z.of_nat (length (_cache c')) + evictions (_stats c')
     <= Z.of_nat (length (_cache c)) + evictions (_stats c)
        + (if is_store lower o then 1 else 0).
Proof.
  intros Hnd.
  destruct o as [sid q now|sid q a md now|sid q| |now];
    cbn [apply is_lookup is_store]; unfold has_key.
  - unfold get. destruct (_generate_key lower sid q) as [key|]; cbn zeta.
    2:{ cbn [snd]. lia. }
    destruct (od_get key (_cache c)) as [entry|] eqn:Hg.
    2:{ cbn [snd]. simpl. lia. }
    apply od_get_Some_key in Hg.
    destruct (_is_expired c entry now); cbn [snd]; simpl.
    + pose proof (od_del_length _ _ Hg). lia.
    + rewrite od_set_length_present.
      * rewrite od_move_to_end_length. lia.
      * rewrite od_keys_move_to_end by done. apply elem_of_app. right. left.
  - unfold set. destruct (_generate_key lower sid q) as [key|]; cbn zeta.
    2:{ cbn [snd]. lia. }
    assert (Z.of_nat (length (_cache (store_entry c key q a md now)))
            <= Z.of_nat (length (_cache c)) + 1) as Hlen.
    { rewrite store_entry_cache.
      rewrite od_set_fresh by (by apply od_del_not_elem).
      rewrite length_app. simpl.
      pose proof (od_del_length_le (_cache c) key). lia. }
    assert (_stats (store_entry c key q a md now) = add_set (_stats c)) as Hst
      by done.
    assert (max_size (store_entry c key q a md now) = max_size c) as Hms by done.
    remember (store_entry c key q a md now) as c1 eqn:Hc1. clear Hc1.
    destruct (evict _ _ _) as [r [d st]] eqn:Hev.
    apply evict_counts in Hev as ([pre Hpre] & H1 & H2 & H3 & H4).
    rewrite Hst in H1, H2, H3, H4. simpl in H1, H2, H3, H4.
    rewrite Hpre, length_app in H4, Hlen.
    destruct r; cbn [snd _stats _cache with_state]; lia.
  - unfold invalidate. destruct (_generate_key lower sid q) as [key|]; cbn zeta.
    2:{ cbn [snd]. lia. }
    destruct (od_mem key (_cache c)); cbn [snd]; simpl; [|lia].
    pose proof (od_del_length_le (_cache c) key). lia.
  - simpl. lia.
  - cbn zeta.
    pose proof (cleanup_expired_cache c now Hnd) as Hc.
    pose proof (cleanup_expired_count c now) as Hn.
    rewrite <- Hc in Hn.
    assert (length (_cache (snd (cleanup_expired c now))) <= length (_cache c))%nat
      as Hle.
    { rewrite Hc. apply length_filter. }
    unfold cleanup_expired in *. cbn [fst snd] in *.
    rewrite with_state_cache in *.
    destruct (0 <? _) eqn:E; simpl; [lia|].
    apply Z.ltb_ge in E. lia.
Qed.

Lemma lookups_snoc calls o :
  lookups lower (calls ++ [o])
  = lookups lower calls + (if is_lookup lower o then 1 else 0).
Proof.
  unfold lookups. rewrite filter_app, length_app.
  destruct (is_lookup lower o) eqn:E.
  - rewrite (filter_cons_True _ o) by done. simpl. lia.
  - rewrite (filter_cons_False _ o) by congruence. simpl. lia.
Qed.

Lemma stores_snoc calls o :
  stores lower (calls ++ [o])
  = stores lower calls + (if is_store lower o then 1 else 0).
Proof.
  unfold stores. rewrite filter_app, length_app.
  destruct (is_store lower o) eqn:E.
  - rewrite (filter_cons_True _ o) by done. simpl. lia.
  - rewrite (filter_cons_False _ o) by congruence. simpl. lia.
Qed.

End cache_calls_facts.

Section cache_calls_theorems.
Import CacheManager CacheCalls.
Variable lower : pystr -> pystr.

(** In every cache that calls have made of a new one, the counters that
    [get_stats] reports add up: hits and misses count the [get] calls,
    [sets] counts the [set] calls, and the entries still held together with
    the evictions never exceed the [set] calls. *)
Theorem cache_counters_account_for_calls
    (capacity ttl0 : Z) (sem : bool) (calls : list call) :
  let c := run lower (__init__ capacity ttl0 sem) calls in
  hits (_stats c) + misses (_stats c) = lookups lower calls
  /\ sets (_stats c) = stores lower calls
  /\ 0 <= hits (_stats c) /\ 0 <= misses (_stats c)
  /\ 0 <= evictions (_stats c)
  /\ Z.of_nat (length (_cache c)) + evictions (_stats c) <= sets (_stats c).
Proof.
  induction calls as [|o calls IH] using rev_ind; [cbv; intuition congruence|].
  rewrite run_snoc, lookups_snoc, stores_snoc. cbn zeta in *.
  destruct (run_well_formed lower capacity ttl0 sem calls) as (Hnd & _).
  pose proof (apply_stats lower _ o Hnd) as Hstep. cbn zeta in Hstep.
  lia.
Qed.

(** [invalidate] tells whether the question had an entry, and removes it:
    a following [get] for the question misses, a second [invalidate]
    returns [False], and the entries of other keys and the counters are as
    before. *)
Theorem invalidate_removes_the_entry
    (capacity ttl0 : Z) (sem : bool) (calls : list call)
    (session_id query key : pystr) :
  let c := run lower (__init__ capacity ttl0 sem) calls in
  _generate_key lower session_id query = Returned key ->
  exists c',
    invalidate lower c session_id query = (Returned (od_mem key (_cache c)), c')
    /\ od_get key (_cache c') = None
    /\ (forall k, k <> key -> od_get k (_cache c') = od_get k (_cache c))
    /\ _stats c' = _stats c
    /\ (forall now, fst (get lower c' session_id query now) = Returned None)
    /\ fst (invalidate lower c' session_id query) = Returned false.
Proof.
  intros c Hkey.
  destruct (run_well_formed lower capacity ttl0 sem calls) as (Hnd & _).
  fold c in Hnd.
  assert (exists c', invalidate lower c session_id query
                     = (Returned (od_mem key (_cache c)), c')
                     /\ od_get key (_cache c') = None
                     /\ (forall k, k <> key ->
                           od_get k (_cache c') = od_get k (_cache c))
                     /\ _stats c' = _stats c) as (c' & Hinv & Hgone & Hrest & Hst).
  { unfold invalidate. rewrite Hkey.
    destruct (od_mem key (_cache c)) eqn:E.
    - eexists. split; [reflexivity|]. simpl. split_and!; [|intros k Hk|done].
      + by apply od_get_del_eq.
      + by apply od_get_del_ne.
    - exists c. split_and!; try done.
      unfold od_mem in E. by destruct (od_get key (_cache c)). }
  exists c'. split_and!; try done.
  - intros now. unfold get. rewrite Hkey, Hgone. done.
  - unfold invalidate, od_mem. rewrite Hkey, Hgone. done.
Qed.


(** What [set] leaves when the cache has room for one entry at least: the
    new entry, last. *)
Lemma set_stores_last c session_id query answer md now key :
  1 <= max_size c -> NoDup (od_keys (_cache c)) ->
  _generate_key lower session_id query = Returned key ->
  exists c1 kept,
    set lower c session_id query answer md now = (Returned key, c1)
    /\ _cache c1
       = kept ++ [(key, {| CacheManager.query := query; CacheManager.answer := answer;
                           created_at := now; hit_count := 0;
                           metadata := match md with
                                       | Some m => m
                                       | None => ∅
                                       end |})]
    /\ (key ∉ od_keys kept)
    /\ max_size c1 = max_size c /\ ttl c1 = ttl c
    /\ hits (_stats c1) = hits (_stats c)
    /\ misses (_stats c1) = misses (_stats c).
Proof.
  intros Hcap Hnd Hkey. unfold set. rewrite Hkey.
  pose proof (store_entry_cache c key query answer md now) as Hc1.
  rewrite od_set_fresh in Hc1 by (by apply od_del_not_elem).
  assert (_stats (store_entry c key query answer md now) = add_set (_stats c))
    as Hst by done.
  assert (max_size (store_entry c key query answer md now) = max_size c
          /\ ttl (store_entry c key query answer md now) = ttl c)
    as [Hms Httl] by done.
  remember (store_entry c key query answer md now) as c0 eqn:Hc0. clear Hc0.
  destruct (evict_spec (max_size c0) (_cache c0) (_stats c0) ltac:(lia))
    as (pre & kept & st' & Hev & Hsplit & Hlen).
  rewrite Hev.
  apply evict_counts in Hev as (_ & H1 & H2 & _).
  rewrite Hst in H1, H2. simpl in H1, H2.
  rewrite Hc1 in Hsplit, Hlen.
  destruct kept as [|x kept _] using rev_ind.
  { rewrite length_app in Hlen. simpl in Hlen. lia. }
  rewrite app_assoc in Hsplit. apply app_inj_tail in Hsplit as [Hd ->].
  eexists _, kept. split; [reflexivity|]. cbn [_cache with_state].
  split_and!; try done.
  intros Hin. apply (od_del_not_elem (_cache c) key Hnd).
  rewrite Hd. unfold od_keys in *. rewrite map_app. apply elem_of_app. by right.
Qed.

(** An answer older than the time to live is never served: once [set] has
    stored it in a cache with room for one entry at least, a [get] for the
    question at a time when the entry is expired returns [None], removes
    the entry and counts a miss and an eviction. *)
Theorem expired_answer_is_dropped_by_get
    (capacity ttl0 : Z) (sem : bool) (calls : list call)
    (session_id query answer : pystr) (md : option (gmap pystr pyval))
    (stored now : float) (key : pystr) :
  let c := run lower (__init__ capacity ttl0 sem) calls in
  1 <= capacity ->
  _generate_key lower session_id query = Returned key ->
  PrimFloat.ltb (float_of_Z ttl0) (PrimFloat.sub now stored) = true ->
  exists c1 c2,
    set lower c session_id query answer md stored = (Returned key, c1)
    /\ get lower c1 session_id query now = (Returned None, c2)
    /\ od_get key (_cache c2) = None
    /\ length (_cache c2) = pred (length (_cache c1))
    /\ misses (_stats c2) = misses (_stats c1) + 1
    /\ hits (_stats c2) = hits (_stats c1)
    /\ evictions (_stats c2) = evictions (_stats c1) + 1.
Proof.
  intros c Hcap Hkey Hlate.
  destruct (run_well_formed lower capacity ttl0 sem calls) as (Hnd & Hm & Ht).
  fold c in Hnd, Hm, Ht.
  destruct (set_stores_last c session_id query answer md stored key
              ltac:(lia) Hnd Hkey)
    as (c1 & kept & Hset & Hc1 & Hfresh & _ & Httl & _).
  exists c1. eexists. split; [done|].
  unfold get. rewrite Hkey, Hc1, od_get_app_last by done.
  unfold _is_expired. cbn [created_at]. rewrite Httl, Ht, Hlate.
  split; [reflexivity|]. cbn [_cache _stats with_state].
  rewrite od_del_last by done. simpl.
  split_and!; [by apply od_get_None|by rewrite length_app, Nat.add_1_r|done..].
Qed.

(** A hit returns the stored answer of an unexpired entry, moves that
    entry to the most recently used end with its hit count raised by one,
    and leaves every other entry as it was. *)
Theorem cache_hit_refreshes_the_entry
    (capacity ttl0 : Z) (sem : bool) (calls : list call)
    (session_id query : pystr) (now : float) (a : pystr) (c' : t) :
  let c := run lower (__init__ capacity ttl0 sem) calls in
  get lower c session_id query now = (Returned (Some a), c') ->
  exists key e,
    _generate_key lower session_id query = Returned key
    /\ od_get key (_cache c) = Some e
    /\ answer e = a
    /\ _is_expired c e now = false
    /\ _cache c' = od_del key (_cache c) ++ [(key, hit e)]
    /\ hit_count (hit e) = hit_count e + 1
    /\ (forall k, k <> key -> od_get k (_cache c') = od_get k (_cache c))
    /\ hits (_stats c') = hits (_stats c) + 1
    /\ misses (_stats c') = misses (_stats c).
Proof.
  intros c Hget.
  destruct (run_well_formed lower capacity ttl0 sem calls) as (Hnd & _).
  fold c in Hnd. unfold get in Hget.
  destruct (_generate_key lower session_id query) as [key|]; [|done].
  destruct (od_get key (_cache c)) as [e|] eqn:He; [|done].
  destruct (_is_expired c e now) eqn:Hexp; [done|].
  injection Hget as <- <-. exists key, e.
  assert (od_set key (hit e) (od_move_to_end key (_cache c))
          = od_del key (_cache c) ++ [(key, hit e)]) as Hc.
  { unfold od_move_to_end. rewrite He.
    apply od_set_last. by apply od_del_not_elem. }
  cbn [_cache _stats with_state]. rewrite Hc.
  split_and!; try done.
  intros k Hk. rewrite <- Hc.
  rewrite od_get_set_ne by done. by apply od_get_move_to_end.
Qed.

End cache_calls_theorems.

(** [get_hot_queries] lists the first [limit] entries in decreasing order
    of hit count: the entries it lists and those it leaves out are together
    the entries of the cache, none listed has fewer hits than one left
    out, and with a limit that is not negative it lists [limit] entries, or
    all if there are fewer. *)
Theorem get_hot_queries_lists_the_most_hit (c : CacheManager.t) (limit : Z) :
  let hot := CacheManager.get_hot_queries c limit in
  let all := map (fun kv => (CacheManager.query (snd kv),
                             CacheManager.hit_count (snd kv)))
                 (CacheManager._cache c) in
  exists rest,
    hot ++ rest ≡ₚ all
    /\ StronglySorted (fun x y => snd y <= snd x) (hot ++ rest)
    /\ (0 <= limit ->
        length hot = Nat.min (Z.to_nat limit) (length (CacheManager._cache c))).
Proof.
  intros hot all. subst hot. unfold CacheManager.get_hot_queries.
  set (sorted := sorted_reverse CacheManager.hit_count Z.ltb
                   (map snd (CacheManager._cache c))).
  set (render := fun e => (CacheManager.query e, CacheManager.hit_count e)).
  assert (exists m, slice_to limit sorted = take m sorted
                    /\ (0 <= limit -> m = Z.to_nat limit)) as (m' & Hm' & Hlim).
  { unfold slice_to. destruct (limit <? 0) eqn:E.
    - eexists. split; [done|]. apply Z.ltb_lt in E. lia.
    - by eexists. }
  exists (map render (drop m' sorted)). rewrite Hm'.
  rewrite <- map_app, take_drop. split_and!.
  - subst sorted all. rewrite sorted_reverse_perm.
    by rewrite map_map.
  - pose proof (sorted_reverse_sorted CacheManager.hit_count
                  (map snd (CacheManager._cache c))) as Hs.
    fold sorted in Hs. clear -Hs.
    induction Hs as [|e l Hs IH Hall]; [constructor|].
    simpl. constructor; [done|].
    apply Forall_map. eapply Forall_impl; [exact Hall|]. done.
  - intros Hl. rewrite length_map, length_take, (Hlim Hl).
    subst sorted. rewrite sorted_reverse_perm, length_map. done.
Qed.

Lemma invalidate_removes_the_entry_witness :
  exists key c',
    CacheManager._generate_key ascii_lower (utf8 "123") (utf8 "红烧肉怎么做？")
    = Returned key
    /\ CacheManager.invalidate ascii_lower CacheExamples.asked_once
         (utf8 "123") (utf8 "红烧肉怎么做？")
       = (Returned (od_mem key (CacheManager._cache CacheExamples.asked_once)), c')
    /\ od_get key (CacheManager._cache c') = None.
Proof.
  eexists.
  edestruct (invalidate_removes_the_entry ascii_lower 1000 3600 false
               [CacheCalls.CallSet (utf8 "123") (utf8 "红烧肉怎么做？")
                                   (utf8 "红烧肉做法") None CacheExamples.t0]
               (utf8 "123") (utf8 "红烧肉怎么做？"))
    as (c' & Hinv & Hgone & _).
  { vm_compute. reflexivity. }
  exists c'. split; [vm_compute; reflexivity|].
  split; [exact Hinv|exact Hgone].
Defined.

Lemma expired_answer_is_dropped_by_get_witness :
  exists key c1 c2,
    CacheManager.set ascii_lower (CacheManager.__init__ 2 30 false)
      (utf8 "123") (utf8 "红烧肉怎么做？") (utf8 "红烧肉做法") None 0%float
    = (Returned key, c1)
    /\ CacheManager.get ascii_lower c1 (utf8 "123") (utf8 "红烧肉怎么做？") 31%float
       = (Returned None, c2)
    /\ od_get key (CacheManager._cache c2) = None.
Proof.
  eexists.
  edestruct (expired_answer_is_dropped_by_get ascii_lower 2 30 false []
               (utf8 "123") (utf8 "红烧肉怎么做？") (utf8 "红烧肉做法") None
               0%float 31%float)
    as (c1 & c2 & Hset & Hget & Hgone & _).
  - lia.
  - vm_compute. reflexivity.
  - vm_compute. reflexivity.
  - exists c1, c2. split; [exact Hset|]. split; [exact Hget|exact Hgone].
Defined.

Lemma cache_hit_refreshes_the_entry_witness :
  exists key e,
    CacheManager._generate_key ascii_lower (utf8 "123") (utf8 "红烧肉怎么做？")
    = Returned key
    /\ od_get key (CacheManager._cache CacheExamples.asked_once) = Some e
    /\ CacheManager.answer e = utf8 "红烧肉做法".
Proof.
  edestruct (cache_hit_refreshes_the_entry ascii_lower 1000 3600 false
               [CacheCalls.CallSet (utf8 "123") (utf8 "红烧肉怎么做？")
                                   (utf8 "红烧肉做法") None CacheExamples.t0]
               (utf8 "123") (utf8 "红烧肉怎么做？") CacheExamples.t0)
    as (key & e & Hkey & He & Hans & _).
  { vm_compute. reflexivity. }
  exists key, e. split; [exact Hkey|]. split; [exact He|exact Hans].
Defined.

(* ===================================================================== *)
(** * Session store: every call                                           *)
(* ===================================================================== *)

Lemma od_del_pairs_sublist {K V} `{EqDecision K} (d : odict K V) k :
  od_del k d `sublist_of` d.
Proof.
  induction d as [|[k0 v0] d IH]; simpl; [done|].
  destruct (decide (k = k0)); [by apply sublist_cons | by apply sublist_skip].
Qed.

Lemma Forall_od_set {K V} `{EqDecision K} (P : K * V -> Prop) (d : odict K V)
    k v :
  Forall P d -> P (k, v) -> Forall P (od_set k v d).
Proof.
  intros Hall Hkv. induction d as [|[k0 v0] d IH]; simpl.
  - by constructor.
  - apply Forall_cons in Hall as [H0 Hall].
    destruct (decide (k = k0)) as [->|Hne]; constructor; auto.
Qed.

Lemma Forall_od_move_to_end {K V} `{EqDecision K} (P : K * V -> Prop)
    (d : odict K V) k :
  Forall P d -> Forall P (od_move_to_end k d).
Proof.
  intros Hall. unfold od_move_to_end.
  destruct (od_get k d) as [v|] eqn:E; [|done].
  apply Forall_app. split.
  - eapply Forall_sublist; [apply od_del_pairs_sublist|done].
  - constructor; [|constructor].
    rewrite Forall_forall in Hall. apply Hall. by apply od_get_Some_elem.
Qed.

Lemma od_get_move_to_end_eq {K V} `{EqDecision K} (d : odict K V) k v :
  NoDup (od_keys d) -> od_get k d = Some v ->
  od_get k (od_move_to_end k d) = Some v.
Proof. intros Hnd Hg. by rewrite od_get_move_to_end. Qed.

Lemma drop_app_one {A} (n : nat) (l : list A) (x : A) :
  (n <= length l)%nat -> drop n (l ++ [x]) = drop n l ++ [x].
Proof. intros Hn. by rewrite drop_app_le. Qed.

Lemma last_drop {A} (n : nat) (l : list A) :
  (n < length l)%nat -> last (drop n l) = last l.
Proof.
  revert n. induction l as [|a l IH]; intros n Hn; simpl in Hn; [lia|].
  destruct n as [|n]; [done|]. simpl drop.
  rewrite IH by lia. destruct l; [simpl in Hn; lia|done].
Qed.

Section session_calls_facts.
Import SessionManager SessionCalls.

Lemma with_sessions_id m : with_sessions m (_sessions m) = m.
Proof. by destruct m. Qed.

(** The eviction loop removes sessions from the front. *)
Lemma evict_suffix max_sessions (d : odict pystr Session.t) r d' :
  evict max_sessions d = (r, d') -> exists pre, d = pre ++ d'.
Proof.
  induction d as [|e d IH]; simpl.
  - destruct (_ <? _); intros [= <- <-]; by exists [].
  - destruct (_ <? _).
    + intros Hev. destruct (IH Hev) as [pre ->]. by exists (e :: pre).
    + intros [= <- <-]. by exists [].
Qed.

(** With a capacity that is not negative it returns, and keeps the last
    [max_sessions] sessions. *)
Lemma evict_keeps max_sessions (d : odict pystr Session.t) :
  0 <= max_sessions ->
  evict max_sessions d
  = (Returned tt, drop (length d - Z.to_nat max_sessions) d).
Proof.
  intros Hm. induction d as [|e d IH]; cbn [evict].
  - destruct (max_sessions <? Z.of_nat 0) eqn:E; [|done].
    apply Z.ltb_lt in E. simpl in E. lia.
  - destruct (max_sessions <? Z.of_nat (length (e :: d))) eqn:E.
    + apply Z.ltb_lt in E. rewrite IH. f_equal.
      rewrite length_cons in *.
      replace (S (length d) - Z.to_nat max_sessions)%nat
        with (S (length d - Z.to_nat max_sessions)) by lia.
      done.
    + apply Z.ltb_ge in E. rewrite length_cons in *.
      replace (S (length d) - Z.to_nat max_sessions)%nat with 0%nat by lia.
      done.
Qed.

(** The three ways in which [get_session] ends. *)
Lemma get_session_cases m sid now :
  (od_get sid (_sessions m) = None /\ get_session m sid now = (None, m))
  \/ (exists s, od_get sid (_sessions m) = Some s
                /\ is_expired m s now = true
                /\ get_session m sid now
                   = (None, with_sessions m (od_del sid (_sessions m))))
  \/ (exists s, od_get sid (_sessions m) = Some s
                /\ is_expired m s now = false
                /\ get_session m sid now
                   = (Some s,
                      with_sessions m (od_move_to_end sid (_sessions m)))).
Proof.
  unfold get_session, is_expired.
  destruct (od_get sid (_sessions m)) as [s|]; [|by left].
  right. destruct (PrimFloat.ltb _ _) eqn:E; [left|right]; by exists s.
Qed.

Lemma delete_session_snd m sid :
  snd (delete_session m sid) = with_sessions m (od_del sid (_sessions m)).
Proof.
  unfold delete_session. destruct (od_mem sid (_sessions m)) eqn:E; [done|].
  cbn [snd]. rewrite od_del_absent; [by rewrite with_sessions_id|].
  intros Hin. apply od_mem_true in Hin. congruence.
Qed.

Lemma delete_all_sessions m (ks : list pystr) :
  fold_left (fun m sid => snd (delete_session m sid)) ks m
  = with_sessions m (fold_left (fun d k => od_del k d) ks (_sessions m)).
Proof.
  revert m. induction ks as [|k ks IH]; intros m; simpl.
  - by rewrite with_sessions_id.
  - rewrite IH, delete_session_snd. done.
Qed.

Lemma cleanup_expired_sessions m now :
  NoDup (od_keys (_sessions m)) ->
  _sessions (snd (cleanup_expired m now))
  = filter (fun kv => is_expired m (snd kv) now <> true) (_sessions m).
Proof.
  intros Hnd. unfold cleanup_expired. cbn [snd].
  rewrite delete_all_sessions. cbn [_sessions with_sessions].
  rewrite od_del_all by done. apply filter_ext_elem. intros [k e] Hin. simpl.
  split.
  - intros Hn He. apply Hn. apply list_elem_of_fmap. exists (k, e).
    split; [done|]. by apply list_elem_of_filter.
  - intros He ([k' e'] & Hk & [Hx Hin']%list_elem_of_filter)%list_elem_of_fmap.
    simpl in Hk, Hx. subst k'.
    by rewrite (od_elem_functional (_sessions m) k e e' Hnd Hin Hin') in He.
Qed.

Lemma well_filed_sublist m d :
  well_filed m -> d `sublist_of` _sessions m -> well_filed (with_sessions m d).
Proof.
  intros [Hnd Hall] Hsub. split; cbn [_sessions with_sessions].
  - eapply sublist_NoDup; [exact Hnd|]. unfold od_keys.
    by apply (fmap_sublist fst).
  - by eapply Forall_sublist.
Qed.

Lemma well_filed_set m sid s :
  well_filed m -> Session.session_id s = sid ->
  well_filed (with_sessions m (od_set sid s (_sessions m))).
Proof.
  intros [Hnd Hall] Hid. split; cbn [_sessions with_sessions].
  - by apply od_set_NoDup.
  - by apply Forall_od_set.
Qed.

Lemma well_filed_get m sid s :
  well_filed m -> od_get sid (_sessions m) = Some s -> Session.session_id s = sid.
Proof.
  intros [_ Hall] Hg. apply od_get_Some_elem in Hg.
  rewrite Forall_forall in Hall. exact (Hall _ Hg).
Qed.

(** [get_session] keeps the store in order, and adds no session. *)
Lemma get_session_keeps m sid now :
  well_filed m ->
  let m1 := snd (get_session m sid now) in
  well_filed m1 /\ settings m1 = settings m
  /\ (length (_sessions m1) <= length (_sessions m))%nat
  /\ (forall s, fst (get_session m sid now) = Some s ->
        od_get sid (_sessions m1) = Some s
        /\ length (_sessions m1) = length (_sessions m)).
Proof.
  intros Hwf.
  destruct (get_session_cases m sid now)
    as [[Hg ->]|[(s & Hg & He & ->)|(s & Hg & He & ->)]]; cbn [fst snd].
  - split_and!; [done|done|done|done].
  - split_and!; [|done| |done].
    + apply well_filed_sublist; [done|apply od_del_pairs_sublist].
    + cbn [_sessions with_sessions]. apply od_del_length_le.
  - destruct Hwf as [Hnd Hall]. split_and!.
    + split; cbn [_sessions with_sessions].
      * by apply od_move_to_end_NoDup.
      * by apply Forall_od_move_to_end.
    + done.
    + cbn [_sessions with_sessions]. by rewrite od_move_to_end_length.
    + intros s' [= <-]. cbn [_sessions with_sessions].
      split; [by apply od_get_move_to_end_eq|apply od_move_to_end_length].
Qed.

Lemma create_session_keeps m uuid user now_c now_u :
  well_filed m ->
  let m1 := snd (create_session m uuid user now_c now_u) in
  well_filed m1 /\ settings m1 = settings m
  /\ (0 <= max_sessions m ->
      Z.of_nat (length (_sessions m1)) <= max_sessions m).
Proof.
  intros Hwf. unfold create_session.
  set (new := {| Session.session_id := uuid; Session.user_id := user;
                 Session.messages := []; Session.created_at := now_c;
                 Session.updated_at := now_u; Session.metadata := ∅ |}).
  pose proof (well_filed_set m uuid new Hwf eq_refl) as Hwf1.
  destruct (evict (max_sessions m) (od_set uuid new (_sessions m)))
    as [r d] eqn:Hev.
  assert (snd (match r with
               | Returned _ => (Returned uuid, with_sessions m d)
               | Raised e => (Raised e, with_sessions m d)
               end) = with_sessions m d) as Hsnd by (by destruct r).
  cbn zeta. rewrite Hsnd. split_and!.
  - destruct (evict_suffix _ _ _ _ Hev) as [pre Hpre].
    apply (well_filed_sublist _ d) in Hwf1; [done|].
    cbn [_sessions with_sessions]. rewrite Hpre. by apply sublist_inserts_l.
  - done.
  - intros Hcap. rewrite evict_keeps in Hev by done. injection Hev as _ <-.
    cbn [_sessions with_sessions]. rewrite length_drop. lia.
Qed.

(** A call that looks a session up and then stores a session under the
    same id. *)
Lemma restore_keeps m sid now s' :
  well_filed m ->
  (forall s, fst (get_session m sid now) = Some s ->
     Session.session_id s' = Session.session_id s) ->
  is_Some (fst (get_session m sid now)) ->
  let m1 := snd (get_session m sid now) in
  let m2 := with_sessions m1 (od_set sid s' (_sessions m1)) in
  well_filed m2 /\ settings m2 = settings m
  /\ length (_sessions m2) = length (_sessions m).
Proof.
  intros Hwf Hid [s Hs].
  destruct (get_session_keeps m sid now Hwf) as (Hwf1 & Hset & _ & Hfound).
  destruct (Hfound s Hs) as [Hg Hlen]. cbn zeta.
  split_and!.
  - apply well_filed_set; [done|]. rewrite (Hid s Hs).
    exact (well_filed_get _ sid s Hwf1 Hg).
  - done.
  - cbn [_sessions with_sessions]. rewrite od_set_length_present; [done|].
    by apply od_get_Some_key in Hg.
Qed.

(** No call breaks the filing, changes the settings, or lets the store
    grow beyond its capacity. *)
Lemma apply_keeps m o :
  well_filed m ->
  well_filed (apply m o) /\ settings (apply m o) = settings m
  /\ (0 <= max_sessions m ->
      Z.of_nat (length (_sessions m)) <= max_sessions m ->
      Z.of_nat (length (_sessions (apply m o))) <= max_sessions m).
Proof.
  intros Hwf.
  assert (forall sid now,
            well_filed (snd (get_session m sid now))
            /\ settings (snd (get_session m sid now)) = settings m
            /\ (0 <= max_sessions m ->
                Z.of_nat (length (_sessions m)) <= max_sessions m ->
                Z.of_nat (length (_sessions (snd (get_session m sid now))))
                <= max_sessions m)) as Hget.
  { intros sid now.
    destruct (get_session_keeps m sid now Hwf) as (H1 & H2 & H3 & _).
    split_and!; [done|done|]. intros _ Hle. cbn zeta in H3. lia. }
  assert (forall sid now s',
            (forall s, fst (get_session m sid now) = Some s ->
               Session.session_id (s' s) = Session.session_id s) ->
            forall s, fst (get_session m sid now) = Some s ->
            let m1 := snd (get_session m sid now) in
            let m2 := with_sessions m1 (od_set sid (s' s) (_sessions m1)) in
            well_filed m2 /\ settings m2 = settings m
            /\ (0 <= max_sessions m ->
                Z.of_nat (length (_sessions m)) <= max_sessions m ->
                Z.of_nat (length (_sessions m2)) <= max_sessions m)) as Hput.
  { intros sid now s' Hid s Hs.
    destruct (restore_keeps m sid now (s' s) Hwf) as (H1 & H2 & H3).
    - intros s0 Hs0. rewrite Hs in Hs0. injection Hs0 as <-. by apply Hid.
    - by rewrite Hs.
    - split_and!; [done|done|]. intros _ Hle. cbn zeta in H3. lia. }
  destruct o as [uuid user now_c now_u|sid now|sid user now uuid now_c now_u
                |sid role content md now now_m now_u|sid incl now|sid limit now
                |sid now now_u|sid|sid now|now]; cbn [apply].
  - destruct (create_session_keeps m uuid user now_c now_u Hwf)
      as (H1 & H2 & H3).
    split_and!; [done|done|]. intros Hcap _. by apply H3.
  - apply Hget.
  - unfold get_or_create_session.
    assert (forall m0, well_filed m0 -> settings m0 = settings m ->
              well_filed (snd (create_session m0 uuid user now_c now_u))
              /\ settings (snd (create_session m0 uuid user now_c now_u))
                 = settings m
              /\ (0 <= max_sessions m ->
                  Z.of_nat (length (_sessions m)) <= max_sessions m ->
                  Z.of_nat (length (_sessions
                     (snd (create_session m0 uuid user now_c now_u))))
                  <= max_sessions m)) as Hcreate.
    { intros m0 Hwf0 Hs0.
      destruct (create_session_keeps m0 uuid user now_c now_u Hwf0)
        as (H1 & H2 & H3).
      assert (max_sessions m0 = max_sessions m) as Hms
        by (unfold settings in Hs0; congruence).
      split_and!; [done|congruence|]. intros Hcap _. rewrite <- Hms.
      apply H3. lia. }
    destruct sid as [[|c sid]|]; [by apply Hcreate|idtac|by apply Hcreate].
    destruct (Hget (c :: sid) now) as (H1 & H2 & H3).
    destruct (get_session m (c :: sid) now) as [[s|] m1]; cbn [snd] in *.
    + done.
    + by apply Hcreate.
  - unfold add_message.
    destruct (get_session m sid now) as [[s|] m1] eqn:Hg.
    2:{ specialize (Hget sid now). by rewrite Hg in Hget. }
    set (appended := Session.messages s ++ _).
    specialize (Hput sid now
                  (fun s => Session.update s
                              (snd (trim (max_history m1) appended)) now_u)
                  ltac:(done) s). rewrite Hg in Hput.
    specialize (Hput eq_refl). cbn [snd] in Hput.
    by destruct (trim (max_history m1) appended) as [[] msgs].
  - unfold get_context. specialize (Hget sid now).
    destruct (get_session m sid now) as [[s|] m1]; cbn [snd] in *; [|done].
    destruct (Session.is_empty s); [done|].
    by destruct (slice_from _ _).
  - unfold get_messages. specialize (Hget sid now).
    by destruct (get_session m sid now) as [[s|] m1].
  - unfold clear_session.
    destruct (get_session m sid now) as [[s|] m1] eqn:Hg.
    2:{ specialize (Hget sid now). by rewrite Hg in Hget. }
    specialize (Hput sid now (fun s => Session.update s [] now_u)
                  ltac:(done) s). rewrite Hg in Hput.
    exact (Hput eq_refl).
  - rewrite delete_session_snd. split_and!; [|done|].
    + apply well_filed_sublist; [done|apply od_del_pairs_sublist].
    + intros _ Hle. cbn [_sessions with_sessions].
      pose proof (od_del_length_le (_sessions m) sid). lia.
  - unfold get_session_info. specialize (Hget sid now).
    by destruct (get_session m sid now) as [[s|] m1].
  - destruct Hwf as [Hnd Hall].
    pose proof (cleanup_expired_sessions m now Hnd) as Hc.
    assert (snd (cleanup_expired m now)
            = with_sessions m (_sessions (snd (cleanup_expired m now)))) as ->.
    { unfold cleanup_expired. cbn [snd]. by rewrite delete_all_sessions. }
    rewrite Hc. split_and!; [|done|].
    + apply well_filed_sublist; [done|apply sublist_filter].
    + intros _ Hle. cbn [_sessions with_sessions].
      pose proof (length_filter
                    (fun kv : pystr * Session.t =>
                       is_expired m (snd kv) now <> true) (_sessions m)). lia.
Qed.

Lemma run_calls_snoc m calls o : run m (calls ++ [o]) = apply (run m calls) o.
Proof. unfold run. by rewrite fold_left_app. Qed.

(** What holds of every store that calls have made of a new one. *)
Lemma run_keeps capacity history ttl0 window calls :
  let m := run (__init__ capacity history ttl0 window) calls in
  well_filed m /\ settings m = (capacity, history, ttl0, window)
  /\ (0 <= capacity -> Z.of_nat (length (_sessions m)) <= capacity).
Proof.
  induction calls as [|o calls IH] using rev_ind.
  - simpl. split_and!; [split; constructor|done|simpl; lia].
  - rewrite run_calls_snoc. cbn zeta in *. destruct IH as (Hwf & Hs & Hlen).
    destruct (apply_keeps _ o Hwf) as (H1 & H2 & H3).
    assert (max_sessions (run (__init__ capacity history ttl0 window) calls)
            = capacity) as Hms by (unfold settings in Hs; congruence).
    rewrite Hms in H3.
    split_and!; [done|congruence|]. intros Hcap. apply H3; auto.
Qed.

End session_calls_facts.

Section session_calls_theorems.
Import SessionManager SessionCalls.

(** In every store that calls have made of a new one whose [max_sessions]
    is not negative, the number of sessions never exceeds [max_sessions];
    no session id is stored twice and every session is stored under its
    own id. *)
Theorem session_store_bounded_and_filed
    (capacity history ttl0 window : Z) (calls : list call) :
  0 <= capacity ->
  let m := run (__init__ capacity history ttl0 window) calls in
  active_session_count m <= capacity
  /\ NoDup (od_keys (_sessions m))
  /\ forall sid s,
       od_get sid (_sessions m) = Some s -> Session.session_id s = sid.
Proof.
  intros Hcap m.
  destruct (run_keeps capacity history ttl0 window calls) as (Hwf & _ & Hlen).
  fold m in Hwf, Hlen. split_and!.
  - by apply Hlen.
  - by destruct Hwf.
  - intros sid s. by apply well_filed_get.
Qed.

(** [create_session] returns the new id and keeps the [max_sessions] most
    recently used sessions: the sessions that it drops are the first of the
    dictionary.  When there is room for one session and the id is new, the
    new session is the last one, it is empty, and the others are the
    [max_sessions - 1] last used. *)
Theorem create_session_keeps_the_most_recent
    (capacity history ttl0 window : Z) (calls : list call)
    (uuid user_id : pystr) (now_c now_u : float) :
  0 <= capacity ->
  let m := run (__init__ capacity history ttl0 window) calls in
  let new := {| Session.session_id := uuid; Session.user_id := user_id;
                Session.messages := []; Session.created_at := now_c;
                Session.updated_at := now_u; Session.metadata := ∅ |} in
  let d := od_set uuid new (_sessions m) in
  exists m',
    create_session m uuid user_id now_c now_u = (Returned uuid, m')
    /\ _sessions m' = drop (length d - Z.to_nat capacity) d
    /\ (1 <= capacity -> uuid ∉ od_keys (_sessions m) ->
        _sessions m'
        = drop (length (_sessions m) + 1 - Z.to_nat capacity) (_sessions m)
          ++ [(uuid, new)]).
Proof.
  intros Hcap m new d.
  destruct (run_keeps capacity history ttl0 window calls) as (_ & Hs & _).
  fold m in Hs.
  assert (max_sessions m = capacity) as Hms by (unfold settings in Hs; congruence).
  unfold create_session. fold new. fold d. rewrite Hms.
  rewrite evict_keeps by done.
  eexists. split; [reflexivity|]. cbn [_sessions with_sessions].
  split; [done|]. intros Hone Hfresh. subst d.
  rewrite od_set_fresh by done. rewrite length_app. simpl length.
  apply drop_app_one. lia.
Qed.

(** A session whose last update is older than [session_ttl] is removed by
    the first call that looks it up, and that call answers as for a session
    that does not exist: [add_message] and [clear_session] return [False],
    [get_context] the empty string, [get_messages] the empty list,
    [get_session] and [get_session_info] [None], and
    [get_or_create_session] creates a new session. *)
Theorem expired_session_is_removed_on_access
    (capacity history ttl0 window : Z) (calls : list call)
    (sid : pystr) (s : Session.t) (now : float) :
  let m := run (__init__ capacity history ttl0 window) calls in
  od_get sid (_sessions m) = Some s ->
  PrimFloat.ltb (float_of_Z ttl0) (PrimFloat.sub now (Session.updated_at s))
  = true ->
  let m' := with_sessions m (od_del sid (_sessions m)) in
  od_get sid (_sessions m') = None
  /\ get_session m sid now = (None, m')
  /\ (forall role content md now_m now_u,
        add_message m sid role content md now now_m now_u
        = (Returned false, m'))
  /\ (forall incl, get_context m sid incl now = ([], m'))
  /\ (forall limit, get_messages m sid limit now = ([], m'))
  /\ (forall now_u, clear_session m sid now now_u = (false, m'))
  /\ get_session_info m sid now = (None, m')
  /\ (forall user uuid now_c now_u,
        sid <> [] ->
        get_or_create_session m (Some sid) user now uuid now_c now_u
        = create_session m' uuid user now_c now_u).
Proof.
  intros m Hg Hold m'.
  destruct (run_keeps capacity history ttl0 window calls) as ([Hnd _] & Hs & _).
  fold m in Hnd, Hs.
  assert (session_ttl m = ttl0) as Httl by (unfold settings in Hs; congruence).
  assert (get_session m sid now = (None, m')) as Hget.
  { unfold get_session. by rewrite Hg, Httl, Hold. }
  split_and!.
  - by apply od_get_del_eq.
  - done.
  - intros. unfold add_message. by rewrite Hget.
  - intros. unfold get_context. by rewrite Hget.
  - intros. unfold get_messages. by rewrite Hget.
  - intros. unfold clear_session. by rewrite Hget.
  - unfold get_session_info. by rewrite Hget.
  - intros user uuid now_c now_u Hne. unfold get_or_create_session.
    destruct sid as [|c sid]; [done|]. by rewrite Hget.
Qed.

(** What [add_message] does when it returns [True]. *)
Lemma add_message_returns m sid role content md now now_m now_u m2 :
  1 <= max_history m ->
  add_message m sid role content md now now_m now_u = (Returned true, m2) ->
  exists s m1 (n : nat),
    get_session m sid now = (Some s, m1)
    /\ let message := {| Message.role := role; Message.content := content;
                         Message.timestamp := now_m;
                         Message.metadata := match md with
                                             | Some x => x
                                             | None => ∅
                                             end |} in
       let kept := drop (2 * n) (Session.messages s ++ [message]) in
       m2 = with_sessions m1
              (od_set sid (Session.update s kept now_u) (_sessions m1))
       /\ last kept = Some message
       /\ Z.of_nat (length kept) <= max_history m * 2.
Proof.
  intros Hmh. unfold add_message.
  destruct (get_session m sid now) as [[s|] m1] eqn:Hg; [|done].
  pose proof (get_session_config m sid now) as [Hc _].
  rewrite Hg in Hc. simpl in Hc. rewrite Hc.
  set (message := {| Message.role := role |}).
  destruct (trim_spec (max_history m) (Session.messages s ++ [message]) Hmh)
    as (n & -> & Hlen & Hmin).
  intros [= <-]. exists s, m1, n. split; [done|]. cbn zeta.
  split_and!; [done| |done].
  rewrite last_drop; [by rewrite last_snoc|].
  destruct n as [|n]; [rewrite length_app; simpl; lia|].
  specialize (Hmin n ltac:(lia)). rewrite length_drop in Hmin. lia.
Qed.

(** A message that [add_message] has stored is the last one that
    [get_messages] returns for the session, as long as the session has not
    expired; at most [2 * max_history] messages are returned. *)
Theorem added_message_is_read_back_last
    (capacity history ttl0 window : Z) (calls : list call)
    (sid role content : pystr) (md : option (gmap pystr pyval))
    (now now_m now_u later : float) (m2 : t) :
  1 <= history ->
  let m := run (__init__ capacity history ttl0 window) calls in
  add_message m sid role content md now now_m now_u = (Returned true, m2) ->
  PrimFloat.ltb (float_of_Z ttl0) (PrimFloat.sub later now_u) = false ->
  last (fst (get_messages m2 sid None later)) = Some (role, content)
  /\ fst (get_messages m2 sid (Some 1) later) = [(role, content)]
  /\ Z.of_nat (length (fst (get_messages m2 sid None later))) <= history * 2.
Proof.
  intros Hmh m Hadd Hlive.
  destruct (run_keeps capacity history ttl0 window calls) as (Hwf & Hs & _).
  fold m in Hwf, Hs.
  assert (max_history m = history /\ session_ttl m = ttl0) as [Hh Httl]
    by (unfold settings in Hs; split; congruence).
  destruct (add_message_returns m sid role content md now now_m now_u m2
              ltac:(lia) Hadd) as (s & m1 & n & Hg & Hm2 & Hlast & Hlen).
  cbn zeta in Hm2, Hlast, Hlen.
  set (message := {| Message.role := role |}) in *.
  set (kept := drop (2 * n) (Session.messages s ++ [message])) in *.
  destruct (get_session_keeps m sid now Hwf) as (_ & Hs1 & _).
  rewrite Hg in Hs1. cbn [snd] in Hs1.
  assert (session_ttl m2 = ttl0) as Httl2.
  { rewrite Hm2. unfold settings in Hs1. cbn [session_ttl with_sessions].
    congruence. }
  assert (forall limit,
            fst (get_messages m2 sid limit later)
            = map (fun msg => (Message.role msg, Message.content msg))
                  match limit with
                  | Some l => if l =? 0 then kept else slice_from (- l) kept
                  | None => kept
                  end) as Hread.
  { intros limit. unfold get_messages, get_session. rewrite Httl2.
    rewrite Hm2 at 1. cbn [_sessions with_sessions].
    rewrite od_get_set_eq. cbn [Session.updated_at Session.update].
    rewrite Hlive. done. }
  rewrite !Hread. split_and!.
  - rewrite fmap_last, Hlast. done.
  - change (1 =? 0) with false. cbv iota. unfold slice_from.
    change (- (1) <? 0) with true. cbv iota.
    assert (exists front, kept = front ++ [message]) as [front Hk].
    { destruct kept as [|x kept0 _] using rev_ind; [done|].
      rewrite last_snoc in Hlast. injection Hlast as ->. by exists kept0. }
    rewrite Hk, length_app. simpl length.
    replace (Z.to_nat (Z.of_nat (length front + 1) + - (1))) with (length front)
      by lia.
    by rewrite drop_app_length.
  - rewrite length_map. lia.
Qed.

(** [get_messages] with a positive [limit] returns the last [limit]
    messages of a live session, or all if there are fewer; with a negative
    [limit] it returns all but the first [-limit] messages. *)
Theorem get_messages_limit_selects_the_latest
    (m : t) (sid : pystr) (limit : Z) (now : float) (s : Session.t) (m1 : t) :
  get_session m sid now = (Some s, m1) ->
  let all := map (fun msg => (Message.role msg, Message.content msg))
                 (Session.messages s) in
  snd (get_messages m sid (Some limit) now) = m1
  /\ (0 < limit ->
      fst (get_messages m sid (Some limit) now)
      = drop (length all - Z.to_nat limit) all
      /\ length (fst (get_messages m sid (Some limit) now))
         = Nat.min (Z.to_nat limit) (length all))
  /\ (limit < 0 ->
      fst (get_messages m sid (Some limit) now) = drop (Z.to_nat (- limit)) all).
Proof.
  intros Hg all. unfold get_messages. rewrite Hg. cbn [fst snd].
  split; [done|]. subst all. split.
  - intros Hpos. destruct (limit =? 0) eqn:E; [apply Z.eqb_eq in E; lia|].
    unfold slice_from. destruct (- limit <? 0) eqn:E2.
    2:{ apply Z.ltb_ge in E2. lia. }
    rewrite <- fmap_drop, length_map.
    replace (Z.to_nat (Z.of_nat (length (Session.messages s)) + - limit))
      with (length (Session.messages s) - Z.to_nat limit)%nat by lia.
    split; [done|]. rewrite length_map, length_drop. lia.
  - intros Hneg. destruct (limit =? 0) eqn:E; [apply Z.eqb_eq in E; lia|].
    unfold slice_from. destruct (- limit <? 0) eqn:E2.
    { apply Z.ltb_lt in E2. lia. }
    by rewrite <- fmap_drop.
Qed.

(** [clear_session] empties a live session and keeps it: afterwards, as
    long as the session has not expired, [get_messages] returns the empty
    list and [get_context] the empty string, while [get_session_info]
    still reports the user and the creation time, with no messages; the
    number of sessions is unchanged. *)
Theorem cleared_session_is_empty_and_kept
    (capacity history ttl0 window : Z) (calls : list call)
    (sid : pystr) (now now_u later : float) (m2 : t) :
  let m := run (__init__ capacity history ttl0 window) calls in
  clear_session m sid now now_u = (true, m2) ->
  PrimFloat.ltb (float_of_Z ttl0) (PrimFloat.sub later now_u) = false ->
  (forall limit, fst (get_messages m2 sid limit later) = [])
  /\ (forall incl, fst (get_context m2 sid incl later) = [])
  /\ active_session_count m2 = active_session_count m
  /\ exists s info,
       od_get sid (_sessions m) = Some s
       /\ fst (get_session_info m2 sid later) = Some info
       /\ info_messages_count info = 0
       /\ info_session_id info = sid
       /\ info_user_id info = Session.user_id s
       /\ info_created_at info = Session.created_at s
       /\ info_updated_at info = now_u.
Proof.
  intros m Hclear Hlive.
  destruct (run_keeps capacity history ttl0 window calls) as (Hwf & Hs & _).
  fold m in Hwf, Hs.
  unfold clear_session in Hclear.
  destruct (get_session m sid now) as [[s|] m1] eqn:Hg; [|done].
  injection Hclear as <-.
  destruct (get_session_keeps m sid now Hwf) as (Hwf1 & Hs1 & _ & Hfound).
  rewrite Hg in Hwf1, Hs1, Hfound. cbn [fst snd] in *.
  destruct (Hfound s eq_refl) as [Hg1 Hlen].
  assert (session_ttl m1 = ttl0) as Httl
    by (unfold settings in Hs, Hs1; congruence).
  assert (get_session
            (with_sessions m1
               (od_set sid (Session.update s [] now_u) (_sessions m1))) sid later
          = (Some (Session.update s [] now_u),
             with_sessions m1
               (od_move_to_end sid
                  (od_set sid (Session.update s [] now_u) (_sessions m1)))))
    as Hget.
  { unfold get_session. cbn [_sessions session_ttl with_sessions].
    rewrite od_get_set_eq, Httl. cbn [Session.updated_at Session.update].
    by rewrite Hlive. }
  split_and!.
  - intros limit. unfold get_messages. rewrite Hget. cbn [fst].
    cbn [Session.messages Session.update].
    destruct limit as [l|]; [|done]. destruct (l =? 0); [done|].
    unfold slice_from. destruct (_ <? _); by rewrite drop_nil.
  - intros incl. unfold get_context. by rewrite Hget.
  - unfold active_session_count. cbn [_sessions with_sessions].
    rewrite od_set_length_present by (by apply od_get_Some_key in Hg1).
    by rewrite Hlen.
  - exists s. eexists. split; [exact (get_session_Some m sid now s m1 Hg)|].
    unfold get_session_info. rewrite Hget. cbn [fst].
    split; [reflexivity|]. cbn.
    split_and!; try done. by apply (well_filed_get m1 sid).
Qed.

(** [delete_session] tells whether the session existed, and removes it:
    afterwards the id is unknown, a second [delete_session] returns
    [False], and the other sessions are as before. *)
Theorem deleted_session_is_gone
    (capacity history ttl0 window : Z) (calls : list call) (sid : pystr) :
  let m := run (__init__ capacity history ttl0 window) calls in
  let m' := snd (delete_session m sid) in
  fst (delete_session m sid) = od_mem sid (_sessions m)
  /\ od_get sid (_sessions m') = None
  /\ (forall now, get_session m' sid now = (None, m'))
  /\ fst (delete_session m' sid) = false
  /\ (forall k, k <> sid -> od_get k (_sessions m') = od_get k (_sessions m))
  /\ active_session_count m'
     = active_session_count m - (if od_mem sid (_sessions m) then 1 else 0).
Proof.
  intros m m'.
  destruct (run_keeps capacity history ttl0 window calls) as ([Hnd _] & _).
  fold m in Hnd.
  assert (od_get sid (_sessions m') = None) as Hgone.
  { subst m'. rewrite delete_session_snd. cbn [_sessions with_sessions].
    by apply od_get_del_eq. }
  split_and!.
  - unfold delete_session. by destruct (od_mem sid (_sessions m)).
  - done.
  - intros now. unfold get_session. by rewrite Hgone.
  - unfold delete_session, od_mem. by rewrite Hgone.
  - intros k Hk. subst m'. rewrite delete_session_snd.
    cbn [_sessions with_sessions]. by apply od_get_del_ne.
  - subst m'. unfold active_session_count, delete_session.
    destruct (od_mem sid (_sessions m)) eqn:E; cbn [snd]; [|lia].
    cbn [_sessions with_sessions]. apply od_mem_true in E.
    pose proof (od_del_length (_sessions m) sid E). lia.
Qed.

(** [cleanup_expired] removes the sessions that are expired at the time of
    the call and no others: the sessions left are the unexpired ones in
    their order, and the number returned is the number removed. *)
Theorem cleanup_expired_removes_expired_sessions
    (capacity history ttl0 window : Z) (calls : list call) (now : float) :
  let m := run (__init__ capacity history ttl0 window) calls in
  let n := fst (cleanup_expired m now) in
  let m' := snd (cleanup_expired m now) in
  _sessions m'
  = filter (fun kv => is_expired m (snd kv) now <> true) (_sessions m)
  /\ (forall sid s, od_get sid (_sessions m') = Some s
                    <-> od_get sid (_sessions m) = Some s
                        /\ is_expired m s now = false)
  /\ n = active_session_count m - active_session_count m'
  /\ fst (cleanup_expired m' now) = 0.
Proof.
  intros m n m'.
  destruct (run_keeps capacity history ttl0 window calls) as ([Hnd _] & _).
  fold m in Hnd.
  pose proof (cleanup_expired_sessions m now Hnd) as Hc. fold m' in Hc.
  assert (forall m0, fst (cleanup_expired m0 now)
            = Z.of_nat (length (_sessions m0))
              - Z.of_nat (length (filter (fun kv => is_expired m0 (snd kv) now
                                                    <> true) (_sessions m0))))
    as Hcount.
  { intros m0. unfold cleanup_expired. cbn [fst]. rewrite length_map.
    pose proof (filter_length_split
                  (fun kv : pystr * Session.t => is_expired m0 (snd kv) now = true)
                  (_sessions m0)). lia. }
  split_and!.
  - done.
  - intros sid s. rewrite Hc, od_get_filter by done. simpl.
    destruct (is_expired m s now); split; intros [? ?]; split; congruence.
  - subst n. rewrite Hcount, <- Hc. done.
  - rewrite Hcount.
    assert (forall s, is_expired m' s now = is_expired m s now) as Hexp.
    { intros s. subst m'. unfold cleanup_expired. cbn [snd].
      by rewrite delete_all_sessions. }
    rewrite (filter_all (fun kv : pystr * Session.t =>
                           is_expired m' (snd kv) now <> true)); [lia|].
    intros [k s] Hin. simpl. rewrite Hexp. rewrite Hc in Hin.
    by apply list_elem_of_filter in Hin as [? _].
Qed.

(** [get_or_create_session] returns the id of a session that exists when
    it returns: the id it was given, if that names a session that has not
    expired, which then becomes the most recently used one; otherwise the
    id of a new, empty session.  ([max_sessions] is at least 1 and the new
    id is not in use.) *)
Theorem get_or_create_session_returns_a_session
    (capacity history ttl0 window : Z) (calls : list call)
    (session_id : option pystr) (user_id : pystr) (now : float)
    (uuid : pystr) (now_c now_u : float) :
  1 <= capacity ->
  let m := run (__init__ capacity history ttl0 window) calls in
  uuid ∉ od_keys (_sessions m) ->
  exists id m',
    get_or_create_session m session_id user_id now uuid now_c now_u
    = (Returned id, m')
    /\ (exists s, last (_sessions m') = Some (id, s)
                  /\ Session.session_id s = id
                  /\ (id = uuid -> Session.messages s = []
                                   /\ Session.user_id s = user_id))
    /\ (id = uuid
        \/ session_id = Some id
           /\ exists s, od_get id (_sessions m) = Some s
                        /\ is_expired m s now = false
                        /\ length (_sessions m') = length (_sessions m))
    /\ (forall sid s, session_id = Some sid -> sid <> [] ->
          od_get sid (_sessions m) = Some s -> is_expired m s now = false ->
          id = sid).
Proof.
  intros Hcap m Hfresh.
  destruct (run_keeps capacity history ttl0 window calls) as (Hwf & Hs & _).
  fold m in Hwf, Hs.
  assert (forall m0, max_sessions m0 = capacity ->
            uuid ∉ od_keys (_sessions m0) ->
            exists m' front s,
              create_session m0 uuid user_id now_c now_u = (Returned uuid, m')
              /\ _sessions m' = front ++ [(uuid, s)]
              /\ Session.session_id s = uuid /\ Session.messages s = []
              /\ Session.user_id s = user_id) as Hcreate.
  { intros m0 Hms Hf. unfold create_session. rewrite Hms.
    rewrite evict_keeps by lia. rewrite od_set_fresh by done.
    rewrite length_app. simpl length. rewrite drop_app_one by lia.
    eexists _, _, _. split; [reflexivity|]. cbn [_sessions with_sessions].
    split; [reflexivity|]. done. }
  assert (max_sessions m = capacity) as Hms
    by (unfold settings in Hs; congruence).
  assert ((exists m', get_or_create_session m session_id user_id now uuid now_c now_u
                     = (Returned uuid, m')
                     /\ exists s, last (_sessions m') = Some (uuid, s)
                          /\ Session.session_id s = uuid
                          /\ (uuid = uuid -> Session.messages s = []
                                           /\ Session.user_id s = user_id))
          \/ exists sid s, session_id = Some sid /\ sid <> []
                /\ od_get sid (_sessions m) = Some s
                /\ is_expired m s now = false
                /\ get_session m sid now
                   = (Some s, with_sessions m
                                (od_move_to_end sid (_sessions m)))
                /\ get_or_create_session m session_id user_id now uuid now_c now_u
                   = (Returned (Session.session_id s),
                      with_sessions m (od_move_to_end sid (_sessions m))))
    as [(m' & Hr & s & Hlast)|(sid & s & -> & Hne & Hg & He & Hget & Hr)].
  { assert (forall m0, max_sessions m0 = capacity ->
              uuid ∉ od_keys (_sessions m0) ->
              exists m', create_session m0 uuid user_id now_c now_u
                         = (Returned uuid, m')
                /\ exists s, last (_sessions m') = Some (uuid, s)
                     /\ Session.session_id s = uuid
                     /\ (uuid = uuid -> Session.messages s = []
                                      /\ Session.user_id s = user_id))
      as Hcreate'.
    { intros m0 Hm0 Hf0.
      destruct (Hcreate m0 Hm0 Hf0) as (m' & front & s & Hc & Hd & H1 & H2 & H3).
      exists m'. split; [done|]. exists s. rewrite Hd, last_snoc. done. }
    unfold get_or_create_session.
    destruct session_id as [[|c sid]|]; [left; by apply Hcreate'| |left; by apply Hcreate'].
    destruct (get_session_cases m (c :: sid) now)
      as [[Hg ->]|[(s & Hg & He & ->)|(s & Hg & He & Hget)]].
    - left. by apply Hcreate'.
    - left. apply Hcreate'; [done|]. cbn [_sessions with_sessions].
      intros Hin. apply Hfresh.
      by apply (sublist_subseteq _ _ (od_del_sublist (_sessions m) (c :: sid))).
    - right. exists (c :: sid), s. split_and!; try done. by rewrite Hget. }
  - exists uuid, m'. split; [done|]. split; [by exists s|].
    split; [by left|].
    intros sid s0 -> Hne Hg He. unfold get_or_create_session in Hr.
    destruct sid as [|c sid]; [done|].
    unfold get_session in Hr. rewrite Hg in Hr. unfold is_expired in He.
    rewrite He in Hr. injection Hr as Hid _.
    rewrite (well_filed_get m (c :: sid) s0 Hwf Hg) in Hid. done.
  - pose proof (well_filed_get m sid s Hwf Hg) as Hid. rewrite Hid in Hr.
    exists sid. eexists. split; [exact Hr|]. cbn [_sessions with_sessions].
    split_and!.
    + exists s. unfold od_move_to_end. rewrite Hg, last_snoc.
      split_and!; [done|done|]. intros ->. exfalso. apply Hfresh.
      by apply od_get_Some_key in Hg.
    + right. split; [done|]. exists s. split_and!; [done|done|].
      apply od_move_to_end_length.
    + intros sid0 s0 [= <-] _ Hg0 _. done.
Qed.

End session_calls_theorems.

Section session_calls_witnesses.
Import SessionManager SessionCalls SessionCallExamples.

Lemma session_store_bounded_and_filed_witness :
  active_session_count (run (__init__ 2 10 3600 5) crowded_calls) <= 2.
Proof.
  apply (session_store_bounded_and_filed 2 10 3600 5 crowded_calls). lia.
Defined.

Lemma create_session_keeps_the_most_recent_witness :
  exists m',
    create_session (run (__init__ 2 10 3600 5) crowded_calls)
                   (utf8 "s4") (utf8 "u4") t0 t0
    = (Returned (utf8 "s4"), m')
    /\ od_keys (_sessions m') = [utf8 "s3"; utf8 "s4"].
Proof.
  destruct (create_session_keeps_the_most_recent 2 10 3600 5 crowded_calls
              (utf8 "s4") (utf8 "u4") t0 t0 ltac:(lia))
    as (m' & Hc & Hd & _).
  exists m'. split; [exact Hc|]. rewrite Hd. vm_compute. reflexivity.
Defined.

Lemma expired_session_is_removed_on_access_witness :
  fst (add_message demo_store (utf8 "s1") (utf8 "user") (utf8 "还在吗？") None
                   4000%float 4000%float 4000%float)
  = Returned false.
Proof.
  assert (exists s, od_get (utf8 "s1") (_sessions demo_store) = Some s
                    /\ PrimFloat.ltb (float_of_Z 3600)
                         (PrimFloat.sub 4000%float (Session.updated_at s))
                       = true) as (s & Hs & Hold).
  { eexists. split; vm_compute; reflexivity. }
  destruct (expired_session_is_removed_on_access 1000 5 3600 5 demo_calls
              (utf8 "s1") s 4000%float Hs Hold) as (_ & _ & Hadd & _).
  unfold demo_store. by rewrite Hadd.
Defined.

Lemma added_message_is_read_back_last_witness :
  last (fst (get_messages
               (snd (add_message demo_store (utf8 "s1") (utf8 "assistant")
                                 (utf8 "盐和酱油") None t0 t0 t0))
               (utf8 "s1") None t0))
  = Some (utf8 "assistant", utf8 "盐和酱油").
Proof.
  eapply proj1.
  eapply (added_message_is_read_back_last 1000 5 3600 5 demo_calls
            (utf8 "s1") (utf8 "assistant") (utf8 "盐和酱油") None t0 t0 t0 t0).
  - lia.
  - vm_compute. reflexivity.
  - vm_compute. reflexivity.
Defined.

Lemma get_messages_limit_selects_the_latest_witness :
  length (fst (get_messages demo_store (utf8 "s1") (Some 2) t0)) = 2%nat.
Proof.
  edestruct (get_messages_limit_selects_the_latest demo_store (utf8 "s1") 2 t0)
    as (_ & Hpos & _).
  { vm_compute. reflexivity. }
  destruct (Hpos ltac:(lia)) as [_ Hlen]. rewrite Hlen. vm_compute. reflexivity.
Defined.

Lemma cleared_session_is_empty_and_kept_witness :
  fst (get_messages (snd (clear_session demo_store (utf8 "s1") t0 t0))
                    (utf8 "s1") None t0)
  = [].
Proof.
  edestruct (cleared_session_is_empty_and_kept 1000 5 3600 5 demo_calls
               (utf8 "s1") t0 t0 t0) as (Hmsgs & _).
  - vm_compute. reflexivity.
  - vm_compute. reflexivity.
  - apply Hmsgs.
Defined.

Lemma get_or_create_session_returns_a_session_witness :
  exists id m',
    get_or_create_session demo_store (Some (utf8 "s1")) (utf8 "test_user") t0
                          (utf8 "s2") t0 t0
    = (Returned id, m')
    /\ id = utf8 "s1".
Proof.
  destruct (get_or_create_session_returns_a_session 1000 5 3600 5 demo_calls
              (Some (utf8 "s1")) (utf8 "test_user") t0 (utf8 "s2") t0 t0
              ltac:(lia))
    as (id & m' & Hr & _ & _ & Hsame).
  - vm_compute. intros Hin. apply list_elem_of_singleton in Hin. discriminate.
  - exists id, m'. split; [exact Hr|].
    eapply Hsame; [reflexivity|discriminate| |].
    + vm_compute. reflexivity.
    + vm_compute. reflexivity.
Defined.

End session_calls_witnesses.

(* ===================================================================== *)
(** * Substrings                                                          *)
(* ===================================================================== *)

Lemma startswith_spec (p s : pystr) :
  startswith p s = true <-> exists t, s = p ++ t.
Proof.
  revert s. induction p as [|a p IH]; intros s; simpl.
  - split; [intros _; by exists s|done].
  - destruct s as [|b s].
    + split; [done|]. by intros [t Ht].
    + rewrite andb_true_iff, Z.eqb_eq, IH. split.
      * intros [-> [t ->]]. by exists t.
      * intros [t [= -> ->]]. split; [done|by exists t].
Qed.

Lemma contains_spec (needle hay : pystr) :
  contains needle hay = true <-> exists a b, hay = a ++ needle ++ b.
Proof.
  induction hay as [|x hay IH].
  - cbn [contains]. rewrite orb_false_r, startswith_spec. split.
    + intros [t Ht]. by exists [], t.
    + intros (a & b & Hab). destruct a; [by exists b|done].
  - cbn [contains]. rewrite orb_true_iff, startswith_spec, IH. split.
    + intros [[t Ht]|(a & b & ->)]; [by exists [], t|by exists (x :: a), b].
    + intros ([|y a] & b & Hab); simpl in Hab.
      * left. by exists b.
      * injection Hab as -> ->. right. by exists a, b.
Qed.

(** A text that contains a string contains its endings. *)
Lemma contains_app_r (x y s : pystr) :
  contains (x ++ y) s = true -> contains y s = true.
Proof.
  rewrite !contains_spec. intros (a & b & ->).
  exists (a ++ x), b. by rewrite <- !app_assoc.
Qed.

Lemma startswith_repeat (c : Z) (n : nat) (s : pystr) :
  startswith (repeat c n) s = true <-> (n <= run_from c s)%nat.
Proof.
  revert s. induction n as [|n IH]; intros s; simpl.
  - split; [lia|done].
  - destruct s as [|x s]; simpl.
    + split; [done|lia].
    + rewrite andb_true_iff, IH, Z.eqb_eq.
      destruct (x =? c) eqn:E.
      * apply Z.eqb_eq in E. split; [lia|]. intros. split; [done|lia].
      * apply Z.eqb_neq in E. split; [intros [? _]; congruence|lia].
Qed.

Lemma contains_repeat (c : Z) (n : nat) (s : pystr) :
  contains (repeat c n) s = true <-> (n <= longest_run c s)%nat.
Proof.
  induction s as [|x s IH].
  - cbn [contains longest_run]. rewrite orb_false_r, startswith_repeat.
    done.
  - cbn [contains longest_run].
    rewrite orb_true_iff, startswith_repeat, IH. lia.
Qed.

(* ===================================================================== *)
(** * Recipe metadata and query filters                                   *)
(* ===================================================================== *)

Lemma find_first {A} (f : A -> bool) (l : list A) (x : A) :
  find f l = Some x ->
  exists l1 l2, l = l1 ++ x :: l2 /\ f x = true
                /\ forall y, y ∈ l1 -> f y = false.
Proof.
  induction l as [|a l IH]; simpl; [done|].
  destruct (f a) eqn:E.
  - intros [= ->]. exists [], l. split_and!; [done|done|].
    intros y Hy. by apply elem_of_nil in Hy.
  - intros Hf. destruct (IH Hf) as (l1 & l2 & -> & Hx & Hall).
    exists (a :: l1), l2. split_and!; [done|done|].
    intros y [->|Hy]%elem_of_cons; auto.
Qed.

Section enhance_metadata_theorems.
Import DataPreparationModule.
Variable parts : pystr -> list pystr.
Variable stem : pystr -> pystr.

Lemma difficulty_of_rating (content : pystr) :
  difficulty_of content = rating (longest_run star content).
Proof.
  unfold difficulty_of.
  change (utf8 "★★★★★") with (repeat star 5).
  change (utf8 "★★★★") with (repeat star 4).
  change (utf8 "★★★") with (repeat star 3).
  change (utf8 "★★") with (repeat star 2).
  change (utf8 "★") with (repeat star 1).
  pose proof (contains_repeat star 5 content) as H5.
  pose proof (contains_repeat star 4 content) as H4.
  pose proof (contains_repeat star 3 content) as H3.
  pose proof (contains_repeat star 2 content) as H2.
  pose proof (contains_repeat star 1 content) as H1.
  destruct (longest_run star content) as [|[|[|[|[|n]]]]];
    repeat match goal with
           | H : contains ?p content = true <-> (_ <= _)%nat |- _ =>
               first [ assert (contains p content = true) as ->
                         by (apply H; lia)
                     | assert (contains p content = false) as ->
                         by (apply not_true_is_false; rewrite H; lia) ];
               clear H
           end; done.
Qed.

(** [_enhance_metadata] rates a recipe by the longest run of stars in its
    text, one to five or more, and files it under the category of the
    first path component that names one, or under "其他"; it names the dish
    after the file, and leaves the text and every other metadata entry as
    they are. *)
Theorem enhance_metadata_rates_by_stars (doc doc' : Document.t) :
  _enhance_metadata parts stem doc = Returned doc' ->
  Document.page_content doc' = Document.page_content doc
  /\ Document.metadata doc' !! utf8 "difficulty"
     = Some (VStr (rating (longest_run star (Document.page_content doc))))
  /\ (exists source category,
        match Document.metadata doc !! utf8 "source" with
        | Some x => x = VStr source
        | None => source = []
        end
        /\ Document.metadata doc' !! utf8 "dish_name" = Some (VStr (stem source))
        /\ Document.metadata doc' !! utf8 "category" = Some (VStr category)
        /\ ((exists l1 part l2,
               parts source = l1 ++ part :: l2
               /\ od_get part CATAGORY_MAPPING = Some category
               /\ forall earlier, earlier ∈ l1 ->
                    od_get earlier CATAGORY_MAPPING = None)
            \/ (category = utf8 "其他"
                /\ forall part, part ∈ parts source ->
                     od_get part CATAGORY_MAPPING = None)))
  /\ (forall key,
        key <> utf8 "difficulty" -> key <> utf8 "dish_name" ->
        key <> utf8 "category" ->
        Document.metadata doc' !! key = Document.metadata doc !! key).
Proof.
  unfold _enhance_metadata. intros Hr.
  assert (exists source,
            match Document.metadata doc !! utf8 "source" with
            | Some x => x = VStr source
            | None => source = []
            end
            /\ doc' = {| Document.page_content := Document.page_content doc;
                         Document.metadata :=
                           <[utf8 "difficulty" :=
                               VStr (difficulty_of (Document.page_content doc))]>
                           (<[utf8 "dish_name" := VStr (stem source)]>
                            (<[utf8 "category" :=
                                 VStr (category_of (parts source))]>
                             (Document.metadata doc))) |})
    as (source & Hsrc & ->).
  { destruct (Document.metadata doc !! utf8 "source") as [[s|z|f]|];
      try done; injection Hr as <-; by eexists. }
  clear Hr. cbn [Document.page_content Document.metadata].
  split; [done|]. split.
  { rewrite lookup_insert_eq. by rewrite difficulty_of_rating. }
  split.
  - exists source, (category_of (parts source)). split; [done|]. split.
    { rewrite lookup_insert_ne by (vm_compute; discriminate).
      by rewrite lookup_insert_eq. }
    split.
    { rewrite lookup_insert_ne by (vm_compute; discriminate).
      rewrite lookup_insert_ne by (vm_compute; discriminate).
      by rewrite lookup_insert_eq. }
    unfold category_of.
    destruct (find _ (parts source)) as [part|] eqn:Hf.
    + left. apply find_first in Hf as (l1 & l2 & Hl & Hx & Hall).
      exists l1, part, l2. unfold od_mem in Hx.
      destruct (od_get part CATAGORY_MAPPING) as [c|] eqn:Hg; [|done].
      split_and!; [done|done|].
      intros earlier Hin. specialize (Hall _ Hin). unfold od_mem in Hall.
      by destruct (od_get earlier CATAGORY_MAPPING).
    + right. split; [done|]. intros part Hin.
      assert (In part (parts source)) as Hin' by (by apply list_elem_of_In).
      pose proof (find_none _ _ Hf part Hin') as Hn. unfold od_mem in Hn.
      by destruct (od_get part CATAGORY_MAPPING).
  - intros key H1 H2 H3. by rewrite !lookup_insert_ne.
Qed.

End enhance_metadata_theorems.

Section extract_filters_theorems.
Import DataPreparationModule RetrievalOptimizationModule RecipeRAGSystem.
Variable CATAGORY_LABELS : list pystr.

(** The search for a difficulty label never ends on "非常困难": the text
    that contains it contains "困难", which is tried first. *)
Lemma difficulty_search_never_hardest (query : pystr) :
  find (fun difficulty => contains difficulty query) get_difficulty_labels
  <> Some (utf8 "非常困难").
Proof.
  unfold get_difficulty_labels, DIFFICULTY_LABELS. cbn [find].
  destruct (contains (utf8 "非常简单") query);
    [intros [= H]; vm_compute in H; discriminate|].
  destruct (contains (utf8 "简单") query);
    [intros [= H]; vm_compute in H; discriminate|].
  destruct (contains (utf8 "中等") query);
    [intros [= H]; vm_compute in H; discriminate|].
  destruct (contains (utf8 "困难") query) eqn:Hhard;
    [intros [= H]; vm_compute in H; discriminate|].
  destruct (contains (utf8 "非常困难") query) eqn:Hx; [|done]. intros _.
  change (utf8 "非常困难") with (utf8 "非常" ++ utf8 "困难") in Hx.
  apply contains_app_r in Hx. congruence.
Qed.

Lemma extract_filters_difficulty (query : pystr) :
  od_get (utf8 "difficulty") (_extract_filters_from_query CATAGORY_LABELS query)
  = FilterValue
      <$> find (fun difficulty => contains difficulty query)
               get_difficulty_labels.
Proof.
  unfold _extract_filters_from_query.
  destruct (find (fun difficulty => contains difficulty query)
                 get_difficulty_labels) as [d|]; cbn [fmap option_fmap option_map].
  - apply od_get_set_eq.
  - destruct (find _ CATAGORY_LABELS); [|done].
    rewrite od_get_set_ne; [done|]. vm_compute. discriminate.
Qed.

(** A question that names the hardest rating is filtered by another
    one. *)
Lemma hardest_is_filtered_as_easier (query : pystr) :
  contains (utf8 "非常困难") query = true ->
  exists label,
    od_get (utf8 "difficulty") (_extract_filters_from_query CATAGORY_LABELS query)
    = Some (FilterValue label)
    /\ label ∈ [utf8 "非常简单"; utf8 "简单"; utf8 "中等"; utf8 "困难"].
Proof.
  intros Hq. rewrite extract_filters_difficulty.
  pose proof (difficulty_search_never_hardest query) as Hnever.
  destruct (find _ get_difficulty_labels) as [d|] eqn:Hf.
  - exists d. split; [done|].
    apply find_some in Hf as [Hin _]. apply list_elem_of_In in Hin.
    unfold get_difficulty_labels, DIFFICULTY_LABELS in Hin.
    do 4 (apply elem_of_cons in Hin as [->|Hin]; [set_solver|]).
    apply elem_of_cons in Hin as [->|Hin]; [done|].
    by apply elem_of_nil in Hin.
  - exfalso. pose proof (find_none _ _ Hf (utf8 "非常困难")) as Hn.
    cbn beta in Hn. rewrite Hq in Hn.
    assert (In (utf8 "非常困难") get_difficulty_labels) as Hin.
    { apply list_elem_of_In. unfold get_difficulty_labels, DIFFICULTY_LABELS.
      set_solver. }
    specialize (Hn Hin). done.
Qed.

(** The filters that [_extract_filters_from_query] reads off a question:
    the category is a category label that the question contains, the
    difficulty is the first difficulty label that it contains, and there
    are no other filters.  "困难" is a part of "非常困难" and is tried before
    it, so that the difficulty is never "非常困难": a question that asks for
    it is filtered by "困难", or by a label that comes before. *)
Theorem extract_filters_never_selects_the_hardest (query : pystr) :
  let filters := _extract_filters_from_query CATAGORY_LABELS query in
  od_get (utf8 "difficulty") filters <> Some (FilterValue (utf8 "非常困难"))
  /\ (forall v, od_get (utf8 "difficulty") filters = Some v ->
        exists label l1 l2,
          v = FilterValue label
          /\ get_difficulty_labels = l1 ++ label :: l2
          /\ contains label query = true
          /\ forall earlier, earlier ∈ l1 -> contains earlier query = false)
  /\ (od_get (utf8 "difficulty") filters = None <->
      forall label, label ∈ get_difficulty_labels ->
                    contains label query = false)
  /\ (forall v, od_get (utf8 "category") filters = Some v ->
        exists label, v = FilterValue label /\ label ∈ CATAGORY_LABELS
                      /\ contains label query = true)
  /\ (od_get (utf8 "category") filters = None <->
      forall label, label ∈ CATAGORY_LABELS -> contains label query = false)
  /\ (forall key, key <> utf8 "category" -> key <> utf8 "difficulty" ->
                  od_get key filters = None)
  /\ (contains (utf8 "非常困难") query = true ->
      exists label, od_get (utf8 "difficulty") filters
                    = Some (FilterValue label)
                    /\ label ∈ [utf8 "非常简单"; utf8 "简单"; utf8 "中等";
                                utf8 "困难"]).
Proof.
  intros filters. subst filters. unfold _extract_filters_from_query.
  set (fc := find (fun category => contains category query) CATAGORY_LABELS).
  set (fd := find (fun difficulty => contains difficulty query)
                  get_difficulty_labels).
  assert (forall base : odict pystr filter_value,
            od_get (utf8 "difficulty")
              match fd with
              | Some d => od_set (utf8 "difficulty") (FilterValue d) base
              | None => base
              end
            = match fd with
              | Some d => Some (FilterValue d)
              | None => od_get (utf8 "difficulty") base
              end) as Hd.
  { intros base. destruct fd; [apply od_get_set_eq|done]. }
  assert (forall key (base : odict pystr filter_value),
            key <> utf8 "difficulty" ->
            od_get key
              match fd with
              | Some d => od_set (utf8 "difficulty") (FilterValue d) base
              | None => base
              end
            = od_get key base) as Hnd.
  { intros key base Hne. destruct fd; [|done]. by apply od_get_set_ne. }
  assert (od_get (utf8 "difficulty")
            match fc with
            | Some c => od_set (utf8 "category") (FilterValue c) []
            | None => []
            end = None) as Hcd.
  { destruct fc; [|done]. rewrite od_get_set_ne; [done|].
    vm_compute. discriminate. }
  assert (od_get (utf8 "category")
            match fc with
            | Some c => od_set (utf8 "category") (FilterValue c) []
            | None => []
            end
          = match fc with Some c => Some (FilterValue c) | None => None end)
    as Hcc.
  { destruct fc; [apply od_get_set_eq|done]. }
  pose proof (difficulty_search_never_hardest query) as Hnever. fold fd in Hnever.
  rewrite Hd, Hcd, (Hnd (utf8 "category")), Hcc by (vm_compute; discriminate).
  split_and!.
  - destruct fd as [d|]; [|done]. intros [= ->]. done.
  - intros v Hv. destruct fd as [d|] eqn:Hf; [|done]. injection Hv as <-.
    apply find_first in Hf as (l1 & l2 & Hl & Hx & Hall).
    by exists d, l1, l2.
  - destruct fd as [d|] eqn:Hf.
    + split; [done|]. intros Hnone. apply find_some in Hf as [Hin Hx].
      rewrite Hnone in Hx by (by apply list_elem_of_In). done.
    + split; [|done]. intros _ label Hin.
      apply (find_none _ _ Hf). by apply list_elem_of_In.
  - intros v Hv. destruct fc as [c|] eqn:Hf; [|done]. injection Hv as <-.
    apply find_some in Hf as [Hin Hx]. exists c.
    split_and!; [done|by apply list_elem_of_In|done].
  - destruct fc as [c|] eqn:Hf.
    + split; [done|]. intros Hnone. apply find_some in Hf as [Hin Hx].
      rewrite Hnone in Hx by (by apply list_elem_of_In). done.
    + split; [|done]. intros _ label Hin.
      apply (find_none _ _ Hf). by apply list_elem_of_In.
  - intros key H1 H2. rewrite Hnd by done. destruct fc; [|done].
    by rewrite od_get_set_ne.
  - intros Hq.
    destruct (hardest_is_filtered_as_easier query Hq) as (label & Hl & Hin).
    rewrite extract_filters_difficulty in Hl. fold fd in Hl.
    destruct fd as [d|]; [|done]. injection Hl as ->. by exists label.
Qed.

End extract_filters_theorems.

Lemma enhance_metadata_rates_by_stars_witness :
  exists doc',
    DataPreparationModule._enhance_metadata
      RecipeExamples.parts RecipeExamples.stem RecipeExamples.braised_pork
    = Returned doc'
    /\ Document.metadata doc' !! utf8 "difficulty" = Some (VStr (utf8 "困难")).
Proof.
  eexists. split; [vm_compute; reflexivity|].
  eapply (proj1 (proj2 (enhance_metadata_rates_by_stars
                          RecipeExamples.parts RecipeExamples.stem
                          RecipeExamples.braised_pork _ _))).
  Unshelve. vm_compute. reflexivity.
Defined.

(* ===================================================================== *)
(** * Filtered retrieval                                                  *)
(* ===================================================================== *)

Section metadata_filter_facts.
Import RetrievalOptimizationModule FusionMore.

Lemma eq_str_spec (x : pyval) (v : pystr) : eq_str x v = true <-> x = VStr v.
Proof.
  destruct x as [s|z|f]; simpl; [|done..].
  rewrite bool_decide_eq_true. split; [by intros ->|by intros [= ->]].
Qed.

(** A document passes when its metadata has every key of the filters, with
    a value that the filter accepts. *)
Lemma matches_spec (md : gmap pystr pyval) (filters : odict pystr filter_value) :
  matches md filters = true
  <-> forall key value, (key, value) ∈ filters ->
        exists x, md !! key = Some x /\ satisfies x value.
Proof.
  induction filters as [|[key value] filters IH]; cbn [matches].
  - split; [|done]. intros _ key value Hin. by apply elem_of_nil in Hin.
  - assert ((exists x, md !! key = Some x /\ satisfies x value)
            /\ matches md filters = true
            <-> forall key0 value0, (key0, value0) ∈ (key, value) :: filters ->
                  exists x, md !! key0 = Some x /\ satisfies x value0) as Hcons.
    { rewrite IH. split.
      - intros [Hx Hall] key0 value0 [[= -> ->]|Hin]%elem_of_cons; auto.
      - intros Hall. split; [apply Hall; left|].
        intros key0 value0 Hin. apply Hall. by right. }
    rewrite <- Hcons. clear Hcons IH.
    destruct (md !! key) as [x|].
    2:{ split; [done|]. by intros [(x & ? & _) _]. }
    destruct value as [v|vs]; cbn [satisfies].
    + destruct (eq_str x v) eqn:E.
      * apply eq_str_spec in E. split; [|tauto]. intros Hm. split; [|done].
        by exists x.
      * split; [done|]. intros [(x' & [= <-] & Hx) _].
        apply eq_str_spec in Hx. congruence.
    + destruct (existsb (eq_str x) vs) eqn:E.
      * apply existsb_exists in E as (v & Hin & Hv).
        apply eq_str_spec in Hv. apply list_elem_of_In in Hin.
        split; [|tauto]. intros Hm. split; [|done]. exists x. split; [done|].
        by exists v.
      * split; [done|]. intros [(x' & [= <-] & v & Hin & Hx) _].
        assert (existsb (eq_str x) vs = true) as Ht; [|congruence].
        apply existsb_exists. exists v.
        split; [by apply list_elem_of_In|by apply eq_str_spec].
Qed.

(** The loop collects the documents that pass, in their order, until it
    holds [top_k] of them, and one at least if there is one. *)
Lemma filter_loop_spec h filters top_k (docs filtered_docs : list loc) :
  filter_loop h filters top_k docs filtered_docs
  = filtered_docs
    ++ take (Z.to_nat (Z.max 1 (top_k - Z.of_nat (length filtered_docs))))
            (filter (fun l => matches (metadata_of h l) filters = true) docs).
Proof.
  revert filtered_docs. induction docs as [|doc docs IH]; intros acc.
  - cbn [filter_loop]. by rewrite filter_nil, take_nil, app_nil_r.
  - cbn [filter_loop]. destruct (matches (metadata_of h doc) filters) eqn:E.
    + rewrite filter_cons_True by done.
      destruct (top_k <=? Z.of_nat (length (acc ++ [doc]))) eqn:Ek.
      * apply Z.leb_le in Ek. rewrite length_app in Ek. simpl in Ek.
        replace (Z.to_nat (Z.max 1 (top_k - Z.of_nat (length acc))))
          with 1%nat by lia.
        done.
      * apply Z.leb_gt in Ek. rewrite length_app in Ek. simpl in Ek.
        rewrite IH, <- app_assoc. f_equal. rewrite length_app. simpl length.
        replace (Z.to_nat (Z.max 1 (top_k - Z.of_nat (length acc))))
          with (S (Z.to_nat (Z.max 1 (top_k - Z.of_nat (length acc + 1)))))
          by lia.
        done.
    + rewrite filter_cons_False by congruence. apply IH.
Qed.

End metadata_filter_facts.

Section metadata_filter_theorems.
Import RetrievalOptimizationModule FusionSpec FusionInv FusionMore.
Variable hash : pystr -> Z.

(** [metadata_filter] returns the first [top_k] documents of the hybrid
    search for [3 * top_k] results that pass all filters, in the order of
    that search: every document it returns has, for each filter, a
    metadata value that the filter accepts, and no passing document is
    skipped before [top_k] are found.  With [top_k <= 0] it returns the
    first passing document of that search, if any.  An error of the
    search is passed on. *)
Theorem metadata_filter_returns_the_first_matches
    (self : t) (h : store) (query : pystr)
    (filters : odict pystr filter_value) (top_k : Z) :
  (forall docs h',
     hybrid_search hash self h query (top_k * 3) = (Returned docs, h') ->
     let passing :=
       filter (fun l => matches (metadata_of h' l) filters = true) docs in
     metadata_filter hash self h query filters top_k
     = (Returned (take (Z.to_nat (Z.max 1 top_k)) passing), h')
     /\ (forall l, l ∈ passing <->
           l ∈ docs
           /\ forall key value, (key, value) ∈ filters ->
                exists x, metadata_of h' l !! key = Some x
                          /\ satisfies x value)
     /\ take (Z.to_nat (Z.max 1 top_k)) passing `sublist_of` docs
     /\ (Z.of_nat (length (take (Z.to_nat (Z.max 1 top_k)) passing))
         <= Z.max 1 top_k))
  /\ (forall e h',
        hybrid_search hash self h query (top_k * 3) = (Raised e, h') ->
        metadata_filter hash self h query filters top_k = (Raised e, h')).
Proof.
  split.
  - intros docs h' Hs passing. unfold metadata_filter. rewrite Hs.
    rewrite filter_loop_spec. cbn [app length]. rewrite Z.sub_0_r.
    split_and!.
    + done.
    + intros l. subst passing. rewrite list_elem_of_filter, matches_spec. tauto.
    + etrans; [apply sublist_take|apply sublist_filter].
    + rewrite length_take. lia.
  - intros e h' Hs. unfold metadata_filter. by rewrite Hs.
Qed.

End metadata_filter_theorems.

Section filtered_search_theorems.
Import DataPreparationModule RetrievalOptimizationModule RecipeRAGSystem.
Import FusionMore.
Variable hash : pystr -> Z.
Variable CATAGORY_LABELS : list pystr.

(** The recipes of the hardest rating cannot be asked for: when the
    question contains "非常困难", the search with the filters read off the
    question returns no document whose difficulty is "非常困难". *)
Theorem hardest_recipes_are_not_found_by_rating
    (self : t) (h : store) (question query : pystr) (top_k : Z)
    (docs : list loc) (h' : store) :
  contains (utf8 "非常困难") question = true ->
  metadata_filter hash self h query
    (_extract_filters_from_query CATAGORY_LABELS question) top_k
  = (Returned docs, h') ->
  forall l, l ∈ docs ->
    metadata_of h' l !! utf8 "difficulty" <> Some (VStr (utf8 "非常困难")).
Proof.
  intros Hq Hf l Hl.
  destruct (hardest_is_filtered_as_easier CATAGORY_LABELS question Hq)
    as (label & Hg & Hlabel).
  unfold metadata_filter in Hf.
  destruct (hybrid_search hash self h query (top_k * 3)) as [[found|e] h1];
    [|done].
  injection Hf as <- <-. rewrite filter_loop_spec in Hl. cbn [app] in Hl.
  apply (sublist_subseteq _ _ (sublist_take _ _)) in Hl.
  apply list_elem_of_filter in Hl as [Hm _].
  pose proof (proj1 (matches_spec _ _) Hm) as Hall.
  destruct (Hall (utf8 "difficulty") (FilterValue label)
              (od_get_Some_elem _ _ _ Hg)) as (x & Hx & Hsat).
  cbn [satisfies] in Hsat. subst x. rewrite Hx. intros [= Heq].
  rewrite Heq in Hlabel.
  repeat (apply elem_of_cons in Hlabel as [Hlabel|Hlabel];
          [vm_compute in Hlabel; discriminate|]).
  by apply elem_of_nil in Hlabel.
Qed.

End filtered_search_theorems.

(* ===================================================================== *)
(** * Hybrid retrieval: the shape of the result                           *)
(* ===================================================================== *)

Section fusion_shape_facts.
Import RetrievalOptimizationModule FusionSpec FusionInv FusionMore.
Variable hash : pystr -> Z.

(** The table of objects holds, for each content hash, the last object
    that the loop met with it. *)
Lemma score_loop_objects h k rank docs sc ob sc' ob' :
  score_loop hash h k rank docs (sc, ob) = Returned (sc', ob') ->
  forall id,
    ob' !! id = match last_with_hash hash h docs id with
                | Some l => Some l
                | None => ob !! id
                end.
Proof.
  revert rank sc ob. induction docs as [|doc docs IH]; intros rank sc ob.
  - cbn [score_loop]. by intros [= <- <-] id.
  - cbn [score_loop]. destruct (rrf_score k rank) as [s|e]; [|done].
    intros Hl id. rewrite (IH _ _ _ Hl id). unfold last_with_hash.
    destruct (decide (hash (page_content h doc) = id)) as [Heq|Hne].
    + rewrite (filter_cons_True _ doc) by done.
      destruct (filter _ docs) as [|x l] eqn:Hf.
      * cbn [last]. by rewrite Heq, lookup_insert_eq.
      * rewrite last_cons_cons. destruct (last (x :: l)) eqn:E; [done|].
        by apply last_None in E.
    + rewrite (filter_cons_False _ doc) by done.
      destruct (last (filter _ docs)); [done|].
      by rewrite lookup_insert_ne.
Qed.

Lemma doc_tables_objects h vs bs sc ob :
  doc_tables hash h vs bs 60 = Returned (sc, ob) ->
  forall id, ob !! id = last_with_hash hash h (vs ++ bs) id.
Proof.
  unfold doc_tables.
  destruct (score_loop hash h 60 0 vs ([], ∅)) as [[sc1 ob1]|e] eqn:H1; [|done].
  intros H2 id.
  rewrite (score_loop_objects _ _ _ _ _ _ _ _ H2 id).
  rewrite (score_loop_objects _ _ _ _ _ _ _ _ H1 id).
  unfold last_with_hash. rewrite filter_app, last_app, lookup_empty.
  destruct (last (filter _ bs)); [done|]. by destruct (last (filter _ vs)).
Qed.

(** The content hashes of the fused list are the keys of the score table
    in sorted order: every key has its object. *)
Lemma rrf_rerank_ids h vs bs sc ob out h' :
  doc_tables hash h vs bs 60 = Returned (sc, ob) ->
  _rrf_rerank hash h vs bs 60 = (Returned out, h') ->
  ids hash h out = map fst (sorted_reverse snd PrimFloat.ltb sc)
  /\ out = omap (fun it => ob !! fst it) (sorted_reverse snd PrimFloat.ltb sc).
Proof.
  intros Ht Hr.
  destruct (rrf_rerank_spec hash h vs bs)
    as (sc0 & ob0 & out0 & h0 & Ht0 & Hr0 & Hout & _).
  rewrite Ht in Ht0. injection Ht0 as <- <-.
  rewrite Hr in Hr0. injection Hr0 as <- <-.
  destruct (doc_tables_spec hash h vs bs) as (sc1 & ob1 & Ht1 & _ & _ & Ho & Hd).
  rewrite Ht in Ht1. injection Ht1 as <- <-.
  split; [|done]. rewrite Hout. clear Hout Hr.
  assert (forall it, it ∈ sorted_reverse snd PrimFloat.ltb sc ->
                     fst it ∈ od_keys sc) as Hkeys.
  { intros it Hit. rewrite sorted_reverse_perm in Hit.
    apply list_elem_of_fmap. by exists it. }
  induction (sorted_reverse snd PrimFloat.ltb sc) as [|it items IH]; [done|].
  change (omap (fun it => ob !! fst it) (it :: items))
    with (match ob !! fst it with
          | Some l => l :: omap (fun it => ob !! fst it) items
          | None => omap (fun it : Z * float => ob !! fst it) items
          end).
  assert (fst it ∈ od_keys sc) as Hit by (apply Hkeys; left).
  destruct (Hd (fst it) Hit) as [l Hl].
  rewrite Hl. cbn [ids map]. apply Ho in Hl as [_ Hh]. rewrite Hh.
  f_equal. apply IH. intros it' Hit'. apply Hkeys. by right.
Qed.

End fusion_shape_facts.

Section fusion_shape_theorems.
Import RetrievalOptimizationModule FusionSpec FusionInv FusionMore.
Variable hash : pystr -> Z.

(** [hybrid_search] returns one object for each text: no object and no
    content hash occurs twice in the result, and the object that stands
    for a text is the last one with that text that the engines returned,
    scanning the vector list and then the lexical list.  It returns at most
    [top_k] objects when [top_k] is not negative, and every text that the
    engines returned is there when [top_k] is at least the number of
    different texts. *)
Theorem hybrid_search_returns_one_object_per_text
    (self : t) (h : store) (q : pystr) (top_k : Z) (vs bs out : list loc)
    (h' : store) :
  retrieved self q vs bs ->
  hybrid_search hash self h q top_k = (Returned out, h') ->
  NoDup out
  /\ NoDup (ids hash h out)
  /\ (forall l, l ∈ out ->
        last_with_hash hash h (vs ++ bs) (hash (page_content h l)) = Some l)
  /\ (0 <= top_k -> Z.of_nat (length out) <= top_k)
  /\ (Z.of_nat (length (first_seen (ids hash h (vs ++ bs)))) <= top_k ->
      forall l0, l0 ∈ vs ++ bs -> hash (page_content h l0) ∈ ids hash h out).
Proof.
  intros Hret Hs.
  rewrite (hybrid_search_retrieved hash self h q top_k vs bs Hret) in Hs.
  destruct (fuse_spec hash h vs bs top_k)
    as [(-> & -> & Hf)|(full & h1 & Hr & Hf)]; rewrite Hf in Hs;
    injection Hs as <- <-.
  { split_and!; [constructor|constructor| | |].
    - intros l Hl. by apply elem_of_nil in Hl.
    - simpl. lia.
    - intros _ l0 Hl0. by apply elem_of_nil in Hl0. }
  destruct (doc_tables_spec hash h vs bs) as (sc & ob & Ht & Hk & _ & Ho & Hd).
  pose proof (doc_tables_keys_NoDup hash h vs bs sc ob Ht) as Hnd.
  destruct (rrf_rerank_ids hash h vs bs sc ob full h1 Ht Hr) as [Hids Hfull].
  destruct (slice_to_take top_k full) as [m Hm].
  assert (NoDup (ids hash h full)) as Hndi.
  { rewrite Hids.
    assert (map fst (sorted_reverse snd PrimFloat.ltb sc) ≡ₚ od_keys sc) as Hp
      by (unfold od_keys; apply fmap_Permutation, sorted_reverse_perm).
    by rewrite Hp. }
  split_and!.
  - eapply sublist_NoDup; [by eapply rrf_rerank_NoDup|apply slice_to_sublist].
  - eapply sublist_NoDup; [exact Hndi|]. unfold ids.
    apply (fmap_sublist (fun l => hash (page_content h l))), slice_to_sublist.
  - intros l Hl. apply (sublist_subseteq _ _ (slice_to_sublist top_k full)) in Hl.
    rewrite Hfull in Hl. apply list_elem_of_omap in Hl as ([id s] & _ & Hl).
    cbn [fst] in Hl. pose proof (Ho _ _ Hl) as [_ Hh]. rewrite Hh.
    by rewrite <- (doc_tables_objects hash h vs bs sc ob Ht).
  - intros Hk0. unfold slice_to. destruct (top_k <? 0) eqn:E.
    { apply Z.ltb_lt in E. lia. }
    rewrite length_take. lia.
  - intros Hall l0 Hl0.
    assert (length full = length (first_seen (ids hash h (vs ++ bs)))) as Hlen.
    { rewrite <- (length_map (fun l => hash (page_content h l)) full).
      fold (ids hash h full). rewrite Hids, length_map.
      rewrite sorted_reverse_perm. unfold ids. rewrite map_app.
      fold (ids hash h vs). fold (ids hash h bs). rewrite <- Hk.
      unfold od_keys. by rewrite length_map. }
    assert (slice_to top_k full = full) as ->.
    { unfold slice_to. destruct (top_k <? 0) eqn:E.
      { apply Z.ltb_lt in E. lia. }
      apply take_ge. lia. }
    rewrite Hids.
    assert (hash (page_content h l0) ∈ od_keys sc) as Hin.
    { rewrite Hk. unfold first_seen. apply first_seen_from_elem. right.
      unfold ids. rewrite <- map_app. apply list_elem_of_fmap. by exists l0. }
    unfold od_keys in Hin. apply list_elem_of_fmap in Hin as (it & Hit & Hin).
    apply list_elem_of_fmap. exists it. split; [done|].
    by rewrite sorted_reverse_perm.
Qed.

End fusion_shape_theorems.

(* ===================================================================== *)
(** * Floats: sums of reciprocals are ordered                             *)
(* ===================================================================== *)

Lemma shr_1_nonneg (mrs : shr_record) : 0 <= shr_m mrs -> 0 <= shr_m (shr_1 mrs).
Proof.
  destruct mrs as [m r s]. simpl.
  destruct m as [|[p|p|]|p]; simpl; lia.
Qed.

Lemma iter_shr_1_nonneg (p : positive) (mrs : shr_record) :
  0 <= shr_m mrs -> 0 <= shr_m (SpecFloat.iter_pos shr_1 p mrs).
Proof.
  revert mrs. induction p as [p IH|p IH|]; intros mrs Hm; simpl.
  - apply IH, IH. by apply shr_1_nonneg.
  - by apply IH, IH.
  - by apply shr_1_nonneg.
Qed.

Lemma shr_fexp_nonneg (m e : Z) (l : location) :
  0 <= m -> 0 <= shr_m (fst (shr_fexp prec emax m e l)).
Proof.
  intros Hm. unfold shr_fexp, shr.
  assert (0 <= shr_m (shr_record_of_loc m l)) as H0.
  { destruct l as [|[]]; done. }
  destruct (_ - e) as [|p|p]; simpl fst; [done| |done].
  by apply iter_shr_1_nonneg.
Qed.

Lemma round_nearest_even_nonneg (m : Z) (l : location) :
  0 <= m -> 0 <= round_nearest_even m l.
Proof.
  intros Hm. unfold round_nearest_even.
  destruct l as [|[]]; try lia. destruct (Z.even m); lia.
Qed.

(** Rounding a mantissa that is not negative, with the positive sign,
    gives a number that is not negative. *)
Lemma binary_round_aux_number (mx ex : Z) (lx : location) :
  0 <= mx -> positive_number (binary_round_aux prec emax false mx ex lx).
Proof.
  intros Hm. unfold binary_round_aux.
  pose proof (shr_fexp_nonneg mx ex lx Hm) as H1.
  destruct (shr_fexp prec emax mx ex lx) as [mrs' e']. simpl fst in H1.
  pose proof (shr_fexp_nonneg _ e' loc_Exact
                (round_nearest_even_nonneg _ (loc_of_shr_record mrs') H1)) as H2.
  destruct (shr_fexp prec emax _ e' loc_Exact) as [mrs'' e'']. simpl fst in H2.
  destruct (shr_m mrs'') as [|m|m]; [done| |lia].
  by destruct (_ <=? _).
Qed.

Lemma of_uint63_number (n : int) : positive_number (Prim2SF (of_uint63 n)).
Proof.
  rewrite FloatAxioms.of_uint63_spec. unfold binary_normalize.
  pose proof (Uint63.to_Z_bounded n) as Hn.
  destruct (Uint63.to_Z n) as [|m|m]; [done| |lia].
  unfold binary_round. destruct (shl_align _ _ _) as [mz ez].
  by apply binary_round_aux_number.
Qed.

Lemma float_of_Z_number (z : Z) :
  0 <= z -> positive_number (Prim2SF (float_of_Z z)).
Proof.
  intros Hz. unfold float_of_Z.
  destruct (z <? 0) eqn:E; [apply Z.ltb_lt in E; lia|].
  apply of_uint63_number.
Qed.

Lemma recip_number (x : float) :
  positive_number (Prim2SF x) -> positive_number (Prim2SF (1 / x)).
Proof.
  intros Hx. rewrite FloatAxioms.div_spec.
  change (Prim2SF 1) with (S754_finite false 4503599627370496 (-52)).
  unfold SF64div, SFdiv.
  destruct (Prim2SF x) as [s|s| |s m e]; simpl in Hx; subst; try done.
  unfold SFdiv_core_binary.
  set (m' := match _ - _ - _ with Z0 => _ | Zpos _ => _ | Zneg _ => _ end).
  assert (0 <= m') as Hm'.
  { subst m'. destruct (_ - _ - _) as [|p|p]; [lia| |lia].
    apply Z.shiftl_nonneg. lia. }
  pose proof (Z.div_pos m' (Z.pos m) Hm' ltac:(lia)) as Hq.
  unfold Z.div in Hq.
  destruct (Z.div_eucl m' (Z.pos m)) as [q r]. simpl fst in Hq.
  by apply binary_round_aux_number.
Qed.

Lemma add_number (x y : float) :
  positive_number (Prim2SF x) -> positive_number (Prim2SF y) ->
  positive_number (Prim2SF (x + y)).
Proof.
  intros Hx Hy. rewrite FloatAxioms.add_spec. unfold SF64add, SFadd.
  destruct (Prim2SF x) as [sx|sx| |sx mx ex]; simpl in Hx; subst; try done;
    destruct (Prim2SF y) as [sy|sy| |sy my ey]; simpl in Hy; subst; try done.
  cbn [cond_Zopp]. unfold binary_normalize.
  destruct (shl_align mx ex _) as [m1 e1].
  destruct (shl_align my ey _) as [m2 e2]. cbn [fst].
  change (Z.pos m1 + Z.pos m2) with (Z.pos (m1 + m2)).
  unfold binary_round. destruct (shl_align _ _ _) as [mz ez].
  by apply binary_round_aux_number.
Qed.

(** On numbers that are not negative, [<] is asymmetric and its negation
    is transitive. *)
Lemma SFltb_asym (x y : spec_float) :
  positive_number x -> positive_number y ->
  SFltb x y = true -> SFltb y x = false.
Proof.
  unfold SFltb, SFcompare.
  destruct x as [sx|sx| |sx mx ex]; simpl; intros Hx; subst; try done;
    destruct y as [sy|sy| |sy my ey]; simpl; intros Hy; subst; try done.
  fold (Pos.compare mx my). fold (Pos.compare my mx).
  destruct (Z.compare_spec ex ey), (Z.compare_spec ey ex); try done; try lia;
    destruct (Pos.compare_spec mx my), (Pos.compare_spec my mx);
    try done; try lia.
Qed.

Lemma SFltb_negtrans (x y z : spec_float) :
  positive_number x -> positive_number y -> positive_number z ->
  SFltb x y = false -> SFltb y z = false -> SFltb x z = false.
Proof.
  unfold SFltb, SFcompare.
  destruct x as [sx|sx| |sx mx ex]; simpl; intros Hx; subst; try done;
    destruct y as [sy|sy| |sy my ey]; simpl; intros Hy; subst; try done;
    destruct z as [sz|sz| |sz mz ez]; simpl; intros Hz; subst; try done.
  fold (Pos.compare mx my). fold (Pos.compare my mz). fold (Pos.compare mx mz).
  destruct (Z.compare_spec ex ey), (Z.compare_spec ey ez),
    (Z.compare_spec ex ez); try done; try lia; subst;
    destruct (Pos.compare_spec mx my), (Pos.compare_spec my mz),
    (Pos.compare_spec mx mz); try done; try lia.
Qed.

Lemma float_ltb_asym (x y : float) :
  positive_number (Prim2SF x) -> positive_number (Prim2SF y) ->
  PrimFloat.ltb x y = true -> PrimFloat.ltb y x = false.
Proof. rewrite !FloatAxioms.ltb_spec. apply SFltb_asym. Qed.

Lemma float_ltb_negtrans (x y z : float) :
  positive_number (Prim2SF x) -> positive_number (Prim2SF y) ->
  positive_number (Prim2SF z) ->
  PrimFloat.ltb x y = false -> PrimFloat.ltb y z = false ->
  PrimFloat.ltb x z = false.
Proof. rewrite !FloatAxioms.ltb_spec. apply SFltb_negtrans. Qed.

(* ===================================================================== *)
(** * Hybrid retrieval: the result is in score order                      *)
(* ===================================================================== *)

Section sorted_desc_facts.
Context {A K : Type} (key : A -> K) (lt : K -> K -> bool) (good : K -> Prop).
Hypothesis lt_asym :
  forall a b, good a -> good b -> lt a b = true -> lt b a = false.
Hypothesis lt_negtrans :
  forall a b c, good a -> good b -> good c ->
    lt a b = false -> lt b c = false -> lt a c = false.

Lemma insert_desc_desc x l :
  good (key x) -> Forall (fun y => good (key y)) l ->
  StronglySorted (fun a b => lt (key a) (key b) = false) l ->
  StronglySorted (fun a b => lt (key a) (key b) = false) (insert_desc key lt x l).
Proof.
  intros Hx Hg Hs.
  destruct (insert_desc_split key lt x l) as (l1 & l2 & -> & -> & Hall & Hhd).
  apply Forall_app in Hg as [Hg1 Hg2].
  apply StronglySorted_app in Hs as (H12 & Hs1 & Hs2).
  apply StronglySorted_app_2; [|done|].
  - intros a b Ha Hb. apply elem_of_cons in Hb as [->|Hb]; [|by apply H12].
    rewrite Forall_forall in Hall, Hg1. apply lt_asym; auto.
  - constructor; [done|].
    destruct l2 as [|y l2]; [constructor|].
    apply StronglySorted_inv in Hs2 as [_ Hy].
    apply Forall_cons in Hg2 as [Hgy Hg2].
    constructor; [done|].
    rewrite Forall_forall in Hy, Hg2. apply Forall_forall. intros z Hz.
    apply (lt_negtrans _ (key y)); auto.
Qed.

Lemma sorted_reverse_desc l :
  Forall (fun y => good (key y)) l ->
  StronglySorted (fun a b => lt (key a) (key b) = false)
                 (sorted_reverse key lt l).
Proof.
  induction l as [|x l IH]; intros Hg; [constructor|].
  apply Forall_cons in Hg as [Hx Hg]. cbn [sorted_reverse foldr].
  apply insert_desc_desc; [done| |by apply IH].
  fold (sorted_reverse key lt l).
  apply Forall_forall. intros y Hy. rewrite sorted_reverse_perm in Hy.
  rewrite Forall_forall in Hg. by apply Hg.
Qed.

End sorted_desc_facts.

Lemma StronglySorted_before {A} (R : A -> A -> Prop) a b l :
  StronglySorted R l -> before a b l -> R a b.
Proof.
  intros Hs (l1 & l2 & l3 & ->).
  apply StronglySorted_app in Hs as (_ & _ & Hs).
  apply StronglySorted_inv in Hs as [_ Hall].
  rewrite Forall_forall in Hall. apply Hall.
  apply elem_of_app. right. left.
Qed.

Section fusion_score_facts.
Import RetrievalOptimizationModule FusionSpec FusionInv.
Variable hash : pystr -> Z.

Lemma rrf_terms_number h k rank docs id :
  0 <= k -> 0 <= rank ->
  Forall (fun x => positive_number (Prim2SF x)) (rrf_terms hash h k rank docs id).
Proof.
  intros Hk. revert rank. induction docs as [|d docs IH]; intros rank Hr.
  - constructor.
  - cbn [rrf_terms]. apply Forall_app. split; [|apply IH; lia].
    case_decide; [|constructor]. constructor; [|constructor].
    apply recip_number, float_of_Z_number. lia.
Qed.

Lemma fold_add_number (terms : list float) (x : float) :
  positive_number (Prim2SF x) ->
  Forall (fun x => positive_number (Prim2SF x)) terms ->
  positive_number (Prim2SF (fold_left PrimFloat.add terms x)).
Proof.
  revert x. induction terms as [|t terms IH]; intros x Hx Ht; [done|].
  apply Forall_cons in Ht as [Ht Hts]. cbn [fold_left].
  apply IH; [|done]. by apply add_number.
Qed.

(** Every fused score is a number and is not negative. *)
Lemma doc_tables_scores_number h vs bs sc ob :
  doc_tables hash h vs bs 60 = Returned (sc, ob) ->
  Forall (fun it => positive_number (Prim2SF (snd it))) sc.
Proof.
  intros Ht.
  destruct (doc_tables_spec hash h vs bs) as (sc' & ob' & Ht' & _ & Hs & _).
  rewrite Ht in Ht'. injection Ht' as <- <-.
  pose proof (doc_tables_keys_NoDup hash h vs bs sc ob Ht) as Hnd.
  apply Forall_forall. intros [id s] Hin. cbn [snd].
  assert (get_score id sc = s) as <-.
  { unfold get_score. destruct (od_get id sc) as [s'|] eqn:E.
    - apply od_get_Some_elem in E.
      exact (od_elem_functional sc id s' s Hnd E Hin).
    - exfalso. apply od_get_None in E. apply E.
      apply list_elem_of_fmap. by exists (id, s). }
  rewrite Hs. unfold fsum. apply fold_add_number; [done|].
  apply Forall_app. split; by apply rrf_terms_number.
Qed.

End fusion_score_facts.

Section fusion_score_theorems.
Import RetrievalOptimizationModule FusionSpec FusionInv.
Variable hash : pystr -> Z.

(** [hybrid_search] returns the objects in the order of their fused
    scores: of two returned objects, the one that stands first carries an
    [rrf_score] that is not smaller than the other's, and every score
    carried by a returned object is a number that is not negative. *)
Theorem hybrid_search_is_in_score_order
    (self : t) (h : store) (q : pystr) (top_k : Z) (out : list loc)
    (h' : store) :
  hybrid_search hash self h q top_k = (Returned out, h') ->
  (forall la lb sa sb,
     before la lb out ->
     rrf_score_of h' la = Some (VFloat sa) ->
     rrf_score_of h' lb = Some (VFloat sb) ->
     PrimFloat.ltb sa sb = false)
  /\ (forall l, l ∈ out -> is_Some (h !! l) ->
        exists s, rrf_score_of h' l = Some (VFloat s)
                  /\ positive_number (Prim2SF s)).
Proof.
  intros Hs.
  apply hybrid_search_returns in Hs as [[-> ->]|(vs & bs & _ & Hs)].
  { split; [|intros l Hl; by apply elem_of_nil in Hl].
    intros la lb sa sb Hb. by apply before_nil in Hb. }
  destruct (fuse_spec hash h vs bs top_k)
    as [(-> & -> & Hf)|(full & h1 & Hr & Hf)]; rewrite Hf in Hs;
    injection Hs as <- <-.
  { split; [|intros l Hl; by apply elem_of_nil in Hl].
    intros la lb sa sb Hb. by apply before_nil in Hb. }
  destruct (rrf_rerank_spec hash h vs bs)
    as (sc & ob & full0 & h0 & Ht & Hr0 & Hfull & Hch & Hsc & _).
  rewrite Hr in Hr0. injection Hr0 as <- <-.
  pose proof (doc_tables_scores_number hash h vs bs sc ob Ht) as Hnum.
  pose proof (doc_tables_keys_NoDup hash h vs bs sc ob Ht) as Hnd.
  assert (forall l, l ∈ full -> is_Some (h !! l) ->
            exists it, it ∈ sc /\ ob !! fst it = Some l
                       /\ rrf_score_of h1 l = Some (VFloat (snd it))) as Hread.
  { intros l Hl Hlive. rewrite Hfull in Hl.
    apply list_elem_of_omap in Hl as ([id s] & Hit & Hl).
    rewrite sorted_reverse_perm in Hit. cbn [fst] in Hl.
    exists (id, s). split_and!; [done|done|]. cbn [snd].
    apply (Hsc id s l); [|done|done].
    apply od_get_elem; done. }
  split.
  - intros la lb sa sb Hb Ha Hbs.
    apply (before_mono _ _ _ _ (slice_to_sublist top_k full)) in Hb.
    rewrite Hfull in Hb.
    apply before_omap_inv in Hb as (ita & itb & Hb & Hla & Hlb).
    assert (forall l s, rrf_score_of h1 l = Some (VFloat s) -> is_Some (h !! l))
      as Hlive.
    { intros l s Hl. unfold rrf_score_of in Hl. specialize (Hch l).
      destruct (h !! l); [by eexists|]. by destruct (h1 !! l). }
    assert (snd ita = sa) as <-.
    { assert (ita ∈ sc) as Hin
        by (rewrite <- (sorted_reverse_perm snd PrimFloat.ltb);
            by eapply before_elem_l).
      destruct ita as [id s]. cbn [fst snd] in *.
      pose proof (Hsc id s la (od_get_elem _ _ _ Hnd Hin) Hla (Hlive _ _ Ha)) as E.
      congruence. }
    assert (snd itb = sb) as <-.
    { assert (itb ∈ sc) as Hin
        by (rewrite <- (sorted_reverse_perm snd PrimFloat.ltb);
            by eapply before_elem_r).
      destruct itb as [id s]. cbn [fst snd] in *.
      pose proof (Hsc id s lb (od_get_elem _ _ _ Hnd Hin) Hlb (Hlive _ _ Hbs)) as E.
      congruence. }
    apply (StronglySorted_before
             (fun a b : Z * float => PrimFloat.ltb (snd a) (snd b) = false)
             ita itb _) in Hb; [done|].
    apply (sorted_reverse_desc snd PrimFloat.ltb
             (fun x => positive_number (Prim2SF x))).
    + apply float_ltb_asym.
    + apply float_ltb_negtrans.
    + exact Hnum.
  - intros l Hl Hlive.
    apply (sublist_subseteq _ _ (slice_to_sublist top_k full)) in Hl.
    destruct (Hread l Hl Hlive) as (it & Hit & _ & Hs).
    exists (snd it). split; [done|].
    rewrite Forall_forall in Hnum. by apply Hnum.
Qed.

End fusion_score_theorems.

Section retrieval_witnesses.
Import RetrievalOptimizationModule RecipeRAGSystem FusionSpec FusionInv.
Import FusionMore FusionExamples RecipeExamples.

(** Both rated recipes are found for a question that asks for the hardest
    rating; the one handed back is the four-star recipe. *)
Lemma hardest_recipes_are_not_found_by_rating_witness :
  metadata_of
    (snd (metadata_filter text_hash
            (engines (Returned [2%positive; 1%positive]) (Returned []) (Returned []))
            rated_objects query
            (_extract_filters_from_query [] (utf8 "非常困难的荤菜")) 5))
    1%positive !! utf8 "difficulty"
  <> Some (VStr (utf8 "非常困难")).
Proof.
  eapply (hardest_recipes_are_not_found_by_rating text_hash []
            (engines (Returned [2%positive; 1%positive]) (Returned []) (Returned []))
            rated_objects (utf8 "非常困难的荤菜") query 5 [1%positive]).
  - vm_compute. reflexivity.
  - vm_compute. reflexivity.
  - left.
Defined.

(** The objects 2 and 3 have the same text: object 3, met last, stands
    for it in the result. *)
Lemma hybrid_search_returns_one_object_per_text_witness :
  last_with_hash text_hash objects ([2%positive; 3%positive] ++ [1%positive])
    (text_hash (page_content objects 3%positive))
  = Some 3%positive.
Proof.
  eapply (proj1 (proj2 (proj2
            (hybrid_search_returns_one_object_per_text text_hash
               (engines (Returned [2%positive; 3%positive])
                        (Returned [1%positive]) (Returned []))
               objects query 5 [2%positive; 3%positive] [1%positive]
               [3%positive; 1%positive]
               (snd (hybrid_search text_hash
                       (engines (Returned [2%positive; 3%positive])
                                (Returned [1%positive]) (Returned []))
                       objects query 5))
               _ _))) 3%positive).
  left.
  Unshelve.
  - split; [reflexivity|left; reflexivity].
  - vm_compute. reflexivity.
Defined.

(** The text of the objects 2 and 3 is met twice and outranks object 1. *)
Lemma hybrid_search_is_in_score_order_witness :
  exists s,
    rrf_score_of
      (snd (hybrid_search text_hash
              (engines (Returned [2%positive; 3%positive])
                       (Returned [1%positive]) (Returned []))
              objects query 5))
      3%positive
    = Some (VFloat s)
    /\ positive_number (Prim2SF s).
Proof.
  eapply (proj2 (hybrid_search_is_in_score_order text_hash
                   (engines (Returned [2%positive; 3%positive])
                            (Returned [1%positive]) (Returned []))
                   objects query 5 [3%positive; 1%positive] _ _) 3%positive).
  - left.
  - vm_compute. by eexists.
  Unshelve.
  vm_compute. reflexivity.
Defined.

End retrieval_witnesses.
